(** * global-invest-simulator: the allocation engine and the application of [src/App.tsx]

    The engine is the function [autoAllocate]: it turns a preferences record
    into a list of percentage-weighted line items.  It is embedded once, over an
    interface [Number] for the arithmetic of the JavaScript type [number], and
    read at three instances:

    - [binary64], the IEEE 754 double precision of the kernel's primitive
      floats: what the program runs on.  It evaluates the engine at concrete
      inputs.
    - [roundedQ rnd], rational arithmetic in which every operation and every
      literal is rounded by [rnd].  What holds of the engine up to rounding is
      proved for every [rnd] whose relative error is at most 2^-53, the unit
      roundoff of binary64: the sum of 100 and the crypto cap within the
      tolerance, the opt-outs, the signs and the order of the rows.  [round53],
      rounding to nearest on 53 bits, is such a rounding, and with it the
      engine returns the numbers that it returns on doubles, at the records
      tried.
    - [exactQ], which is [roundedQ] with no rounding: exact arithmetic, for
      what is exact, as the weights before normalization.

    The rest of the file is the application around the engine: [clamp] and
    the handlers of the form, which keep the preferences in range; the two pie
    charts and the bar chart, which are computed from the rows; [fmtPct],
    which writes a percentage of the table; and the text of the CSV export. *)

From Stdlib Require Import QArith Qabs Qround ZArith List String Bool Floats.
From Stdlib Require Import Lia Lqa Permutation Sorted.
From Stdlib Require Import Ascii NArith DecimalString DecimalN.
Import ListNotations.

(** ** The arithmetic of [number] *)

Declare Scope num_scope.
Delimit Scope num_scope with num.

Class Number (N : Type) : Type := {
  lit : Q -> N;            (* a numeric literal of the source text *)
  add : N -> N -> N;
  sub : N -> N -> N;
  mul : N -> N -> N;
  div : N -> N -> N;
  ltb : N -> N -> bool;    (* [a < b]; [a > b] is [ltb b a] *)
  truthy : N -> bool       (* ToBoolean: false on 0 and NaN *)
}.

Infix "+" := add : num_scope.
Infix "-" := sub : num_scope.
Infix "*" := mul : num_scope.
Infix "/" := div : num_scope.
Infix "<?" := ltb : num_scope.
Notation "a >? b" := (ltb b a) : num_scope.
Notation "a || b" := (if truthy a then a else b) : num_scope.

(** Rationals, each result rounded by [rnd]. *)
Definition Qltb (a b : Q) : bool := negb (Qle_bool b a).

Definition roundedQ (rnd : Q -> Q) : Number Q := {|
  lit q := rnd q;
  add a b := rnd (a + b)%Q;
  sub a b := rnd (a - b)%Q;
  mul a b := rnd (a * b)%Q;
  div a b := rnd (a / b)%Q;
  ltb := Qltb;
  truthy q := negb (Qeq_bool q 0)
|}.

(** Exact rationals: nothing is rounded. *)
Definition exactQ : Number Q := roundedQ (fun x => x).

(** IEEE 754 binary64.  A literal whose numerator and denominator are below
    2^53 is the correctly rounded quotient of two exact integers, which is the
    double the source text denotes. *)
Definition float_of_Z (z : Z) : float :=
  match z with
  | Z0 => PrimFloat.zero
  | Zpos _ => PrimFloat.of_uint63 (Uint63.of_Z z)
  | Zneg p => PrimFloat.opp (PrimFloat.of_uint63 (Uint63.of_Z (Zpos p)))
  end.

Definition float_of_Q (q : Q) : float :=
  PrimFloat.div (float_of_Z (Qnum q)) (float_of_Z (Zpos (Qden q))).

#[export] Instance binary64 : Number float := {|
  lit := float_of_Q;
  add := PrimFloat.add; sub := PrimFloat.sub;
  mul := PrimFloat.mul; div := PrimFloat.div;
  ltb := PrimFloat.ltb;
  truthy x := negb (PrimFloat.eqb x PrimFloat.zero || PrimFloat.is_nan x)
|}.

(** ** Data model *)

Inductive Risk := Conservative | Moderate | Aggressive | ModerateAggressive.
Inductive Currency := USD | INR.
Inductive RebalFreq := Quarterly | Annual.
Inductive RiskTier := Low | Medium | High | VeryHigh.

Set Implicit Arguments.

(** [interface Inputs].  The source keeps the region split as the text
    ["usa|india"] and reads it with [split("|").map(parseFloat)]; the record
    holds the two numbers read.  [horizon] is a whole number of years. *)
Record Inputs (N : Type) := {
  budget : N;
  horizon : Z;
  risk : Risk;
  regionSplit : N * N;
  currency : Currency;
  includeGold : bool;
  includeCrypto : bool;
  cryptoCapPct : N;
  rebalFreq : RebalFreq
}.

(** [interface AllocationRow]; the field [risk] of a row is [riskTier] here. *)
Record AllocationRow (N : Type) := {
  assetClass : string;
  instrument : string;
  country : string;
  pct : N;
  expCagr : N * N;
  riskTier : RiskTier;
  rationale : string
}.

(** The object [base]: one weight per category. *)
Record Weights (N : Type) := {
  equity : N; fixed : N; gold : N; reits : N; cash : N; crypto : N
}.

(** An entry of [sectorTiltUSA] / [sectorTiltIND]. *)
Record Sector (N : Type) := { s_name : string; s_pct : N; s_instr : string }.

Unset Implicit Arguments.

(** ** The engine *)

Section Engine.
Context {N : Type} {num : Number N}.
Local Open Scope num_scope.
Local Notation "# q" := (lit q%Q) (at level 1, format "# q").

Definition profiles (r : Risk) : Weights N :=
  match r with
  | Conservative =>
      {| equity := #35; fixed := #45; gold := #12; reits := #4; cash := #4; crypto := #0 |}
  | Moderate =>
      {| equity := #60; fixed := #25; gold := #8; reits := #5; cash := #2; crypto := #0 |}
  | ModerateAggressive =>
      {| equity := #70; fixed := #15; gold := #7; reits := #5; cash := #1; crypto := #2 |}
  | Aggressive =>
      {| equity := #80; fixed := #8; gold := #5; reits := #5; cash := #0; crypto := #2 |}
  end.

Definition set_equity (b : Weights N) (v : N) : Weights N :=
  {| equity := v; fixed := fixed b; gold := gold b;
     reits := reits b; cash := cash b; crypto := crypto b |}.
Definition set_fixed (b : Weights N) (v : N) : Weights N :=
  {| equity := equity b; fixed := v; gold := gold b;
     reits := reits b; cash := cash b; crypto := crypto b |}.
Definition set_gold (b : Weights N) (v : N) : Weights N :=
  {| equity := equity b; fixed := fixed b; gold := v;
     reits := reits b; cash := cash b; crypto := crypto b |}.
Definition set_crypto (b : Weights N) (v : N) : Weights N :=
  {| equity := equity b; fixed := fixed b; gold := gold b;
     reits := reits b; cash := cash b; crypto := v |}.

(** [if (i.horizon >= 10) {...} else if (i.horizon <= 3) {...}] *)
Definition horizonTilt (i : Inputs N) (b : Weights N) : Weights N :=
  if (10 <=? horizon i)%Z then
    let b := set_equity b (equity b + #5) in set_fixed b (fixed b - #5)
  else if (horizon i <=? 3)%Z then
    let b := set_equity b (equity b - #10) in set_fixed b (fixed b + #10)
  else b.

(** [if (!i.includeGold) { base.fixed += base.gold; base.gold = 0; }] *)
Definition goldOptOut (i : Inputs N) (b : Weights N) : Weights N :=
  if negb (includeGold i) then
    let b := set_fixed b (fixed b + gold b) in set_gold b #0
  else b.

(** [if (!i.includeCrypto) { base.equity += base.crypto; base.crypto = 0; }] *)
Definition cryptoOptOut (i : Inputs N) (b : Weights N) : Weights N :=
  if negb (includeCrypto i) then
    let b := set_equity b (equity b + crypto b) in set_crypto b #0
  else b.

(** [if (i.includeCrypto && base.crypto > i.cryptoCapPct) {...}] *)
Definition cryptoCap (i : Inputs N) (b : Weights N) : Weights N :=
  if includeCrypto i && (crypto b >? cryptoCapPct i) then
    let diff := crypto b - cryptoCapPct i in
    let b := set_equity b (equity b + diff) in set_crypto b (cryptoCapPct i)
  else b.

(** The weights when the four adjustments are done. *)
Definition adjusted (i : Inputs N) : Weights N :=
  cryptoCap i (cryptoOptOut i (goldOptOut i (horizonTilt i (profiles (risk i))))).

(** [const sum = base.equity + ... + (base.crypto || 0)] *)
Definition total (b : Weights N) : N :=
  equity b + fixed b + gold b + reits b + cash b + (crypto b || #0).

(** [for (const k of Object.keys(base)) base[k] = (base[k] / sum) * 100] *)
Definition normalize (b : Weights N) : Weights N :=
  let sum := total b in
  {| equity := (equity b / sum) * #100;
     fixed := (fixed b / sum) * #100;
     gold := (gold b / sum) * #100;
     reits := (reits b / sum) * #100;
     cash := (cash b / sum) * #100;
     crypto := (crypto b / sum) * #100 |}.

Definition sectorTiltUSA : list (Sector N) :=
  [ {| s_name := "Broad Market"; s_pct := #55; s_instr := "S&P 500 ETF (VOO)" |};
    {| s_name := "Technology/AI"; s_pct := #20; s_instr := "Nasdaq 100 (QQQ)" |};
    {| s_name := "Healthcare"; s_pct := #10; s_instr := "Healthcare ETF (XLV)" |};
    {| s_name := "Energy"; s_pct := #8; s_instr := "Energy ETF (XLE)" |};
    {| s_name := "Industrials"; s_pct := #7; s_instr := "Industrials ETF (XLI)" |} ].

Definition sectorTiltIND : list (Sector N) :=
  [ {| s_name := "Broad Market"; s_pct := #55; s_instr := "Nifty 50 ETF" |};
    {| s_name := "Midcap Growth"; s_pct := #20; s_instr := "Nifty Midcap 150" |};
    {| s_name := "Financials"; s_pct := #10; s_instr := "Bank Nifty ETF" |};
    {| s_name := "Manufacturing/Infra"; s_pct := #10; s_instr := "CPSE/Infra ETF" |};
    {| s_name := "Export-Tech"; s_pct := #5; s_instr := "IT Services ETF" |} ].

(** [String.prototype.includes] *)
Definition includes (s sub : string) : bool :=
  match index 0 sub s with Some _ => true | None => false end.

(** The row object that [push] appends. *)
Definition mkRow (a ins c : string) (p : N) (e : N * N) (r : RiskTier)
    (why : string) : AllocationRow N :=
  {| assetClass := a; instrument := ins; country := c; pct := p;
     expCagr := e; riskTier := r; rationale := why |}.

(** The body of [sectorTiltUSA.forEach]. *)
Definition usaSectorRow (equityUSA : N) (s : Sector N) : AllocationRow N :=
  let pct := (equityUSA * s_pct s) / #100 in
  let tech := String.eqb (s_name s) "Technology/AI" in
  let exp := if tech then (#9, #12) else (#7, #10) in
  let risk := if tech then High else Medium in
  mkRow "Equity" (s_instr s) "USA" pct exp risk ("Sector tilt: " ++ s_name s).

(** The body of [sectorTiltIND.forEach]. *)
Definition indSectorRow (equityIND : N) (s : Sector N) : AllocationRow N :=
  let pct := (equityIND * s_pct s) / #100 in
  let mid := includes (s_name s) "Midcap" in
  let exp := if mid then (#11, #14) else (#8, #12) in
  let risk := if mid then High else Medium in
  mkRow "Equity" (s_instr s) "India" pct exp risk ("Sector tilt: " ++ s_name s).

(** [if (c) push(r)]: the rows a guarded [push] adds. *)
Definition pushIf (c : bool) (r : AllocationRow N) : list (AllocationRow N) :=
  if c then [r] else [].

(** The array [rows] when every [push] is done, from the normalized weights. *)
Definition buildRows (i : Inputs N) (base : Weights N) : list (AllocationRow N) :=
  let '(usaPct, indPct) := regionSplit i in
  let equityUSA := (equity base * usaPct) / #100 in
  let equityIND := (equity base * indPct) / #100 in
  let fixedUSA := (fixed base * usaPct) / #100 in
  let fixedIND := (fixed base * indPct) / #100 in
  let goldUSA := (gold base * usaPct) / #100 in
  let goldIND := (gold base * indPct) / #100 in
  let reitsUSA := (reits base * usaPct) / #100 in
  let reitsIND := (reits base * indPct) / #100 in
  let cashUSA := (cash base * usaPct) / #100 in
  let cashIND := (cash base * indPct) / #100 in
  map (usaSectorRow equityUSA) sectorTiltUSA
  ++ map (indSectorRow equityIND) sectorTiltIND
  ++ pushIf (fixedUSA >? #0)
       (mkRow "Fixed Income" "UST Bills/Notes Ladder (T-Bills, 2-5y Notes)" "USA"
          fixedUSA (#3.5, #5) Low "Income & drawdown buffer")
  ++ pushIf (fixedIND >? #0)
       (mkRow "Fixed Income" "India G-Secs/SDL Ladder (T-Bills, 5-10y)" "India"
          fixedIND (#6, #7.5) Low "Carry + rate diversification")
  ++ (if gold base >? #0 then
        pushIf (goldUSA >? #0)
          (mkRow "Commodity" "Gold ETF (GLD/IAU)" "Global"
             goldUSA (#4.5, #6) Low "Inflation & crisis hedge")
        ++ pushIf (goldIND >? #0)
          (mkRow "Commodity" "India Gold ETF/SGB" "India"
             goldIND (#4.5, #6) Low "Local currency hedge")
      else [])
  ++ pushIf (reitsUSA >? #0)
       (mkRow "REITs" "U.S. REIT ETF (VNQ)" "USA"
          reitsUSA (#5, #7) Medium "Income + diversification")
  ++ pushIf (reitsIND >? #0)
       (mkRow "REITs" "India REIT/InvIT" "India"
          reitsIND (#6, #8) Medium "Infra & real-asset exposure")
  ++ pushIf (cashUSA >? #0)
       (mkRow "Cash" "USD MMF / T-Bill ETF (BIL/SGOV)" "USA"
          cashUSA (#3, #4) Low "Dry powder for dips")
  ++ pushIf (cashIND >? #0)
       (mkRow "Cash" "INR Liquid Fund / T-Bill" "India"
          cashIND (#5, #6) Low "Liquidity buffer")
  ++ pushIf (includeCrypto i && (crypto base >? #0))
       (mkRow "Crypto" "BTC/ETH Spot ETF Blend" "Global"
          (crypto base) (#12, #20) VeryHigh "Speculative convexity with cap").

(** [rows.forEach((r) => { if (r.pct < 0.4) tiny += r.pct; else cleaned.push(r); })]:
    the state of the loop is the pair of [tiny] and [cleaned]. *)
Definition sweepStep (st : N * list (AllocationRow N)) (r : AllocationRow N)
    : N * list (AllocationRow N) :=
  let '(tiny, cleaned) := st in
  if pct r <? #0.4 then (tiny + pct r, cleaned) else (tiny, cleaned ++ [r]).

Definition sweep (rows : list (AllocationRow N)) : N * list (AllocationRow N) :=
  fold_left sweepStep rows (#0, []).

Definition consolidatedRow (tiny : N) : AllocationRow N :=
  mkRow "Cash" "Consolidated" "Global" tiny (#0, #0) Low "Rounded tiny slices".

(** [if (tiny > 0) cleaned.push({... "Consolidated" ...})] *)
Definition consolidate (rows : list (AllocationRow N)) : list (AllocationRow N) :=
  let '(tiny, cleaned) := sweep rows in
  cleaned ++ pushIf (tiny >? #0) (consolidatedRow tiny).

(** [cleaned.sort((a, b) => b.pct - a.pct)].  [Array.prototype.sort] is a
    stable sort: [a] goes after [b] exactly when the comparator is positive on
    [(a, b)].  Insertion from the right gives that order. *)
Definition comparator (a b : AllocationRow N) : N := pct b - pct a.

Fixpoint insertRow (a : AllocationRow N) (l : list (AllocationRow N))
    : list (AllocationRow N) :=
  match l with
  | [] => [a]
  | b :: l' => if comparator a b >? #0 then b :: insertRow a l' else a :: l
  end.

Definition sortRows (l : list (AllocationRow N)) : list (AllocationRow N) :=
  fold_right insertRow [] l.

Definition autoAllocate (i : Inputs N) : list (AllocationRow N) :=
  let base := normalize (adjusted i) in
  sortRows (consolidate (buildRows i base)).

(** *** Names for what the claims speak of *)

(** The rows before consolidation. *)
Definition rawRows (i : Inputs N) : list (AllocationRow N) :=
  buildRows i (normalize (adjusted i)).

(** The test of the consolidation loop, and its negation. *)
Definition isTiny (r : AllocationRow N) : bool := pct r <? #0.4.
Definition isKept (r : AllocationRow N) : bool := negb (isTiny r).

(** The rows that the consolidation removes. *)
Definition removed (rows : list (AllocationRow N)) : list (AllocationRow N) :=
  filter isTiny rows.

(** The value of [tiny] when the loop is over. *)
Definition tinyTotal (i : Inputs N) : N := fst (sweep (rawRows i)).

Definition isConsolidated (r : AllocationRow N) : bool :=
  String.eqb (instrument r) "Consolidated".


End Engine.

(** ** Vocabulary of the statements *)

Abbreviation Row := (AllocationRow Q).

(** The unit roundoff of binary64. *)
Definition u : Q := Eval vm_compute in 1 # (2 ^ 53).

(** The tolerance of the specification, 1e-6. *)
Definition tolerance : Q := 1 # 1000000.

(** [approx k x X]: the computed [x] is the ideal, non-negative [X] up to [k]
    roundings, that is up to the factor [(1 - u)^k] either way. *)
Fixpoint epow (k : nat) : Q :=
  match k with
  | O => 1
  | S k => (1 - u) * epow k
  end.

Definition approx (k : nat) (x X : Q) : Prop :=
  0 <= X /\ X * epow k <= x /\ x * epow k <= X.

(** Rounding to nearest, ties to even, on 53 significant bits: the rounding of
    binary64 where it neither overflows nor underflows.  [p] scales [a] into
    the integers of 53 bits; the test on the scaled number holds whenever [a]
    is positive. *)
Definition pow2 (s : Z) : Q :=
  if (0 <=? s)%Z then inject_Z (2 ^ s) else / inject_Z (2 ^ (- s)).

Definition roundHalfEven (q : Q) : Z :=
  let f := Qfloor q in
  match Qcompare (q - inject_Z f) (1 # 2) with
  | Lt => f
  | Gt => (f + 1)%Z
  | Eq => if Z.even f then f else (f + 1)%Z
  end.

Definition roundPos (a : Q) : Q :=
  let e0 := (Z.log2 (Qnum a) - Z.log2 (Zpos (Qden a)) - 1)%Z in
  let e := if Qle_bool (pow2 (e0 + 1)) a then (e0 + 1)%Z else e0 in
  let p := pow2 (52 - e) in
  let q := a * p in
  if Qle_bool (inject_Z (2 ^ 52)) q then inject_Z (roundHalfEven q) / p else a.

Definition round53 (x : Q) : Q :=
  match Qnum x with
  | Z0 => 0
  | Zpos _ => roundPos x
  | Zneg _ => - roundPos (- x)
  end.

(** The rational that a finite double is. *)
Definition Q_of_float (f : float) : Q :=
  match Prim2SF f with
  | S754_finite s m e => (if s then -1 else 1) * inject_Z (Zpos m) * pow2 e
  | _ => 0
  end.

(** A valid preferences record: the two region shares are percentages, so not
    negative, that add up to 100, the crypto cap lies in [0,10] and the horizon
    in [1,30]. *)
Definition validb (i : Inputs Q) : bool :=
  Qeq_bool (fst (regionSplit i) + snd (regionSplit i)) 100
  && Qle_bool 0 (fst (regionSplit i)) && Qle_bool 0 (snd (regionSplit i))
  && Qle_bool 0 (cryptoCapPct i) && Qle_bool (cryptoCapPct i) 10
  && (1 <=? horizon i)%Z && (horizon i <=? 30)%Z.

Definition valid (i : Inputs Q) : Prop := validb i = true.

(** The same test on doubles. *)
Definition validF (i : Inputs float) : bool :=
  PrimFloat.eqb (fst (regionSplit i) + snd (regionSplit i)) 100
  && PrimFloat.leb 0 (fst (regionSplit i)) && PrimFloat.leb 0 (snd (regionSplit i))
  && PrimFloat.leb 0 (cryptoCapPct i) && PrimFloat.leb (cryptoCapPct i) 10
  && (1 <=? horizon i)%Z && (horizon i <=? 30)%Z.

(** The sum of [pct] over a list of rows. *)
Definition sumPct (l : list Row) : Q := fold_right (fun r s => pct r + s) 0 l.

(** The sum of the six category weights. *)
Definition weightSum (b : Weights Q) : Q :=
  equity b + fixed b + gold b + reits b + cash b + crypto b.

(** The six weights are non-negative. *)
Definition nonneg (b : Weights Q) : Prop :=
  0 <= equity b /\ 0 <= fixed b /\ 0 <= gold b /\
  0 <= reits b /\ 0 <= cash b /\ 0 <= crypto b.

(** The share of a weight that goes to a region, [(x * p) / 100], when the
    operations are rounded by [rnd]. *)
Definition share (rnd : Q -> Q) (x p : Q) : Q := rnd (rnd (x * p) / rnd 100).

(** The ideal normalized weights: each adjusted weight as its share of 100. *)
Definition idealWeights (b : Weights Q) : Weights Q :=
  {| equity := equity b / weightSum b * 100;
     fixed := fixed b / weightSum b * 100;
     gold := gold b / weightSum b * 100;
     reits := reits b / weightSum b * 100;
     cash := cash b / weightSum b * 100;
     crypto := crypto b / weightSum b * 100 |}.

(** Non-increasing order of [pct] between neighbours. *)
Definition descending : Row -> Row -> Prop := fun a b => pct b <= pct a.

(** The preferences of the application's initial state. *)
Definition defaultInputs : Inputs Q :=
  {| budget := 25000; horizon := 7; risk := Moderate; regionSplit := (60, 40);
     currency := USD; includeGold := true; includeCrypto := false;
     cryptoCapPct := 3; rebalFreq := Annual |}.

(** Crypto included and capped at 1, on the profile with a base crypto weight
    of 2 and on one with none. *)
Definition cappedInputs : Inputs Q :=
  {| budget := 25000; horizon := 7; risk := ModerateAggressive;
     regionSplit := (60, 40); currency := USD; includeGold := true;
     includeCrypto := true; cryptoCapPct := 1; rebalFreq := Annual |}.

Definition moderateWithCrypto : Inputs Q :=
  {| budget := 25000; horizon := 7; risk := Moderate;
     regionSplit := (60, 40); currency := USD; includeGold := true;
     includeCrypto := true; cryptoCapPct := 1; rebalFreq := Annual |}.

(** A short horizon on the Aggressive profile. *)
Definition shortAggressive : Inputs Q :=
  {| budget := 25000; horizon := 2; risk := Aggressive;
     regionSplit := (60, 40); currency := USD; includeGold := true;
     includeCrypto := true; cryptoCapPct := 3; rebalFreq := Annual |}.

(** A split of 80 to 20 and a cap of 0.3: the India cash share, 0.2, and the
    crypto weight, 0.3, are below 0.4. *)
Definition smallSlices : Inputs Q :=
  {| budget := 25000; horizon := 7; risk := ModerateAggressive;
     regionSplit := (80, 20); currency := USD; includeGold := true;
     includeCrypto := true; cryptoCapPct := 0.3; rebalFreq := Annual |}.

(** Not a valid record: the two shares add up to 100 and one is negative. *)
Definition negativeShare : Inputs Q :=
  {| budget := 25000; horizon := 7; risk := Moderate; regionSplit := (150, -50);
     currency := USD; includeGold := true; includeCrypto := false;
     cryptoCapPct := 3; rebalFreq := Annual |}.

(** The same record on doubles, and the three conditions that the
    specification lists for a valid record: a region split summing to 100, a
    crypto cap in [0,10], a horizon in [1,30]. *)
Definition negativeShareF : Inputs float :=
  {| budget := 25000%float; horizon := 7; risk := Moderate;
     regionSplit := (150, -50)%float; currency := USD; includeGold := true;
     includeCrypto := false; cryptoCapPct := 3%float; rebalFreq := Annual |}.

Definition statedValidF (i : Inputs float) : bool :=
  PrimFloat.eqb (fst (regionSplit i) + snd (regionSplit i)) 100
  && PrimFloat.leb 0 (cryptoCapPct i) && PrimFloat.leb (cryptoCapPct i) 10
  && (1 <=? horizon i)%Z && (horizon i <=? 30)%Z.

(** A valid record whose India cash share is 0.4 in exact arithmetic and
    just below the double 0.4 on doubles: with the cap in exact arithmetic,
    with the cap a double in the rationals, and on doubles. *)
Definition atThreshold : Inputs Q :=
  {| budget := 25000; horizon := 2; risk := ModerateAggressive;
     regionSplit := (60, 40); currency := USD; includeGold := true;
     includeCrypto := true; cryptoCapPct := 0.01; rebalFreq := Annual |}.

Definition atThresholdQ : Inputs Q :=
  {| budget := 25000; horizon := 2; risk := ModerateAggressive;
     regionSplit := (60, 40); currency := USD; includeGold := true;
     includeCrypto := true; cryptoCapPct := round53 0.01; rebalFreq := Annual |}.

Definition atThresholdF : Inputs float :=
  {| budget := 25000%float; horizon := 2; risk := ModerateAggressive;
     regionSplit := (60, 40)%float; currency := USD; includeGold := true;
     includeCrypto := true; cryptoCapPct := float_of_Q 0.01;
     rebalFreq := Annual |}.

(** Gold and crypto excluded. *)
Definition plainInputs : Inputs Q :=
  {| budget := 25000; horizon := 12; risk := Aggressive; regionSplit := (60, 40);
     currency := USD; includeGold := false; includeCrypto := false;
     cryptoCapPct := 3; rebalFreq := Annual |}.

(** The first row of a list, and its first "Crypto" row. *)
Definition firstRow (l : list Row) : Row :=
  hd (consolidatedRow (num := exactQ) 0) l.

Definition cryptoRow (l : list Row) : Row :=
  hd (consolidatedRow (num := exactQ) 0)
    (filter (fun r => String.eqb (assetClass r) "Crypto") l).

(** Doubles: a valid record whose cap, 1.99, is below the base crypto weight;
    and the same record in the rationals, the cap being the double 1.99. *)
Definition cap199 : Inputs float :=
  {| budget := 25000%float; horizon := 1; risk := ModerateAggressive;
     regionSplit := (60, 40)%float; currency := USD; includeGold := true;
     includeCrypto := true; cryptoCapPct := float_of_Q 1.99; rebalFreq := Annual |}.

Definition cap199Q : Inputs Q :=
  {| budget := 25000; horizon := 1; risk := ModerateAggressive;
     regionSplit := (60, 40); currency := USD; includeGold := true;
     includeCrypto := true; cryptoCapPct := round53 1.99; rebalFreq := Annual |}.

(** Doubles: the record [smallSlices]; and [smallSlices] with the cap a double. *)
Definition smallSlicesF : Inputs float :=
  {| budget := 25000%float; horizon := 7; risk := ModerateAggressive;
     regionSplit := (80, 20)%float; currency := USD; includeGold := true;
     includeCrypto := true; cryptoCapPct := float_of_Q 0.3; rebalFreq := Annual |}.

Definition smallSlicesQ : Inputs Q :=
  {| budget := 25000; horizon := 7; risk := ModerateAggressive;
     regionSplit := (80, 20); currency := USD; includeGold := true;
     includeCrypto := true; cryptoCapPct := round53 0.3; rebalFreq := Annual |}.

(** Doubles: a record outside the valid range, with the cap -2^1000. *)
Definition hugeNegativeCap : Inputs float :=
  {| budget := 25000%float; horizon := 7; risk := ModerateAggressive;
     regionSplit := (60, 40)%float; currency := USD; includeGold := true;
     includeCrypto := true; cryptoCapPct := (-0x1p1000)%float; rebalFreq := Annual |}.

(** ** The application around the engine

    [App] keeps the preferences in a React state and computes the rows from
    that state.  The form changes the state, the numbers going through
    [clamp]; the two pie charts, the bar chart, the column of percentages and
    the CSV export are derived from the rows. *)

(** [Math.max] and [Math.min] of two numbers.  They round nothing: the result
    is one of the two arguments, or NaN. *)
Class MathNumber (N : Type) : Type := {
  Math_max : N -> N -> N;
  Math_min : N -> N -> N
}.

#[export] Instance mathQ : MathNumber Q := {|
  Math_max a b := if Qle_bool a b then b else a;
  Math_min a b := if Qle_bool a b then a else b
|}.

(** On doubles the result is NaN as soon as an argument is NaN, and +0 counts
    as larger than -0. *)
#[export] Instance mathFloat : MathNumber float := {|
  Math_max a b :=
    if PrimFloat.is_nan a || PrimFloat.is_nan b then PrimFloat.nan
    else if PrimFloat.ltb a b then b
    else if PrimFloat.ltb b a then a
    else if PrimFloat.get_sign a then b else a;
  Math_min a b :=
    if PrimFloat.is_nan a || PrimFloat.is_nan b then PrimFloat.nan
    else if PrimFloat.ltb a b then a
    else if PrimFloat.ltb b a then b
    else if PrimFloat.get_sign a then a else b
|}.

(** [function clamp(min, v, max) { return Math.max(min, Math.min(max, v)); }] *)
Definition clamp {N : Type} {math : MathNumber N} (min v max : N) : N :=
  Math_max min (Math_min max v).

(** The options of the region select, in their order. *)
Inductive SplitOption := S80_20 | S70_30 | S60_40 | S50_50 | S40_60 | S30_70.

Set Implicit Arguments.

(** The state [inputs] of [App]: the record of [interface Inputs] as
    [useState] holds it.  Its [horizon] is the number that [clamp] returned,
    whole or not; the region split is the pair of numbers that the engine
    reads from the value of the select. *)
Record State (N : Type) := {
  st_budget : N;
  st_horizon : N;
  st_risk : Risk;
  st_regionSplit : N * N;
  st_currency : Currency;
  st_includeGold : bool;
  st_includeCrypto : bool;
  st_cryptoCapPct : N;
  st_rebalFreq : RebalFreq
}.

(** An entry of [pieByAsset] / [pieByRegion]: [{ name, value }]. *)
Record Slice (N : Type) := { name : string; value : N }.

(** An entry of [barExpReturns]: [{ name, low, high }]. *)
Record Bar (N : Type) := { b_name : string; low : N; high : N }.

Unset Implicit Arguments.

Section Application.
Context {N : Type} {num : Number N} {math : MathNumber N}.
Local Open Scope num_scope.
Local Notation "# q" := (lit q%Q) (at level 1, format "# q").

(** *** The state and the form *)

(** The state that [useState] starts from and that the Reset button restores. *)
Definition initialState : State N :=
  {| st_budget := #25000; st_horizon := #7; st_risk := Moderate;
     st_regionSplit := (#60, #40); st_currency := USD;
     st_includeGold := true; st_includeCrypto := false;
     st_cryptoCapPct := #3; st_rebalFreq := Annual |}.

(** The pair of numbers that [split("|").map(parseFloat)] reads from the value
    of an option of the region select. *)
Definition splitOption (o : SplitOption) : N * N :=
  match o with
  | S80_20 => (#80, #20)
  | S70_30 => (#70, #30)
  | S60_40 => (#60, #40)
  | S50_50 => (#50, #50)
  | S40_60 => (#40, #60)
  | S30_70 => (#30, #70)
  end.

(** [{ ...s, budget: v }] and the like: the state with one field replaced. *)
Definition with_budget (s : State N) (v : N) : State N :=
  {| st_budget := v; st_horizon := st_horizon s; st_risk := st_risk s;
     st_regionSplit := st_regionSplit s; st_currency := st_currency s;
     st_includeGold := st_includeGold s; st_includeCrypto := st_includeCrypto s;
     st_cryptoCapPct := st_cryptoCapPct s; st_rebalFreq := st_rebalFreq s |}.
Definition with_horizon (s : State N) (v : N) : State N :=
  {| st_budget := st_budget s; st_horizon := v; st_risk := st_risk s;
     st_regionSplit := st_regionSplit s; st_currency := st_currency s;
     st_includeGold := st_includeGold s; st_includeCrypto := st_includeCrypto s;
     st_cryptoCapPct := st_cryptoCapPct s; st_rebalFreq := st_rebalFreq s |}.
Definition with_risk (s : State N) (v : Risk) : State N :=
  {| st_budget := st_budget s; st_horizon := st_horizon s; st_risk := v;
     st_regionSplit := st_regionSplit s; st_currency := st_currency s;
     st_includeGold := st_includeGold s; st_includeCrypto := st_includeCrypto s;
     st_cryptoCapPct := st_cryptoCapPct s; st_rebalFreq := st_rebalFreq s |}.
Definition with_regionSplit (s : State N) (v : N * N) : State N :=
  {| st_budget := st_budget s; st_horizon := st_horizon s; st_risk := st_risk s;
     st_regionSplit := v; st_currency := st_currency s;
     st_includeGold := st_includeGold s; st_includeCrypto := st_includeCrypto s;
     st_cryptoCapPct := st_cryptoCapPct s; st_rebalFreq := st_rebalFreq s |}.
Definition with_currency (s : State N) (v : Currency) : State N :=
  {| st_budget := st_budget s; st_horizon := st_horizon s; st_risk := st_risk s;
     st_regionSplit := st_regionSplit s; st_currency := v;
     st_includeGold := st_includeGold s; st_includeCrypto := st_includeCrypto s;
     st_cryptoCapPct := st_cryptoCapPct s; st_rebalFreq := st_rebalFreq s |}.
Definition with_includeGold (s : State N) (v : bool) : State N :=
  {| st_budget := st_budget s; st_horizon := st_horizon s; st_risk := st_risk s;
     st_regionSplit := st_regionSplit s; st_currency := st_currency s;
     st_includeGold := v; st_includeCrypto := st_includeCrypto s;
     st_cryptoCapPct := st_cryptoCapPct s; st_rebalFreq := st_rebalFreq s |}.
Definition with_includeCrypto (s : State N) (v : bool) : State N :=
  {| st_budget := st_budget s; st_horizon := st_horizon s; st_risk := st_risk s;
     st_regionSplit := st_regionSplit s; st_currency := st_currency s;
     st_includeGold := st_includeGold s; st_includeCrypto := v;
     st_cryptoCapPct := st_cryptoCapPct s; st_rebalFreq := st_rebalFreq s |}.
Definition with_cryptoCapPct (s : State N) (v : N) : State N :=
  {| st_budget := st_budget s; st_horizon := st_horizon s; st_risk := st_risk s;
     st_regionSplit := st_regionSplit s; st_currency := st_currency s;
     st_includeGold := st_includeGold s; st_includeCrypto := st_includeCrypto s;
     st_cryptoCapPct := v; st_rebalFreq := st_rebalFreq s |}.
Definition with_rebalFreq (s : State N) (v : RebalFreq) : State N :=
  {| st_budget := st_budget s; st_horizon := st_horizon s; st_risk := st_risk s;
     st_regionSplit := st_regionSplit s; st_currency := st_currency s;
     st_includeGold := st_includeGold s; st_includeCrypto := st_includeCrypto s;
     st_cryptoCapPct := st_cryptoCapPct s; st_rebalFreq := v |}.

(** What the user does: a change of one control of the form, or a click on
    Reset.  A number field hands over [Number(e.target.value || 0)], the
    number typed or 0 for an empty field. *)
Inductive Event : Type :=
| BudgetChange (v : N)
| HorizonChange (v : N)
| RiskChange (r : Risk)
| RegionSplitChange (o : SplitOption)
| CurrencyChange (c : Currency)
| GoldChange (checked : bool)
| CryptoChange (checked : bool)
| CryptoCapChange (v : N)
| RebalChange (f : RebalFreq)
| ResetClick.

(** The [onChange] and [onClick] handlers: each is a [setInputs] that replaces
    one field of the state, or the whole state.  The three number fields go
    through the same [clamp]. *)
Definition handle (s : State N) (e : Event) : State N :=
  match e with
  | BudgetChange v => with_budget s (clamp #100 v #10000000)
  | HorizonChange v => with_horizon s (clamp #1 v #30)
  | RiskChange r => with_risk s r
  | RegionSplitChange o => with_regionSplit s (splitOption o)
  | CurrencyChange c => with_currency s c
  | GoldChange checked => with_includeGold s checked
  | CryptoChange checked => with_includeCrypto s checked
  | CryptoCapChange v => with_cryptoCapPct s (clamp #0 v #10)
  | RebalChange f => with_rebalFreq s f
  | ResetClick => initialState
  end.

(** The state after a sequence of events, from the initial state. *)
Definition stateAfter (es : list Event) : State N :=
  fold_left handle es initialState.

(** *** The charts *)

(** [by.get(k)] and [by.set(k, v)] on a [Map]: the entries stay in the order
    in which their keys were first set. *)
Fixpoint Map_get (m : list (string * N)) (k : string) : option N :=
  match m with
  | [] => None
  | (k', v) :: m' => if String.eqb k' k then Some v else Map_get m' k
  end.

Fixpoint Map_set (m : list (string * N)) (k : string) (v : N)
    : list (string * N) :=
  match m with
  | [] => [(k, v)]
  | (k', v') :: m' =>
      if String.eqb k' k then (k, v) :: m' else (k', v') :: Map_set m' k v
  end.

(** [by.set(key, (by.get(key) || 0) + r.pct)]; a key that is not there reads
    as [undefined], which [|| 0] turns into 0. *)
Definition pieStep (key : AllocationRow N -> string)
    (m : list (string * N)) (r : AllocationRow N) : list (string * N) :=
  let old := match Map_get m (key r) with
             | Some v => v || #0
             | None => #0
             end in
  Map_set m (key r) (old + pct r).

(** [Array.from(by.entries()).map(([name, value]) => ({ name, value }))] *)
Definition slices (m : list (string * N)) : list (Slice N) :=
  map (fun kv => {| name := fst kv; value := snd kv |}) m.

Definition pieBy (key : AllocationRow N -> string)
    (rows : list (AllocationRow N)) : list (Slice N) :=
  slices (fold_left (pieStep key) rows []).

Definition pieByAsset (rows : list (AllocationRow N)) : list (Slice N) :=
  pieBy (@assetClass N) rows.

Definition pieByRegion (rows : list (AllocationRow N)) : list (Slice N) :=
  pieBy (@country N) rows.

(** The character U+2026 that ends a shortened name. *)
Definition ellipsis : string := "…".

(** [rows.slice(0, 8).map((r) => ({ name: ..., low: r.expCagr[0],
    high: r.expCagr[1] }))]; the name is the instrument, cut after 18
    characters when it is longer. *)
Definition barExpReturns (rows : list (AllocationRow N)) : list (Bar N) :=
  map (fun r =>
         {| b_name := if (18 <? String.length (instrument r))%nat
                      then substring 0 18 (instrument r) ++ ellipsis
                      else instrument r;
            low := fst (expCagr r);
            high := snd (expCagr r) |})
      (firstn 8 rows).

End Application.

(** *** From the state to the rows *)

(** The whole number that a rational is, when it is one. *)
Definition wholeQ (q : Q) : option Z :=
  if (Qden (Qred q) =? 1)%positive then Some (Qnum (Qred q)) else None.

(** [rows = useMemo(() => autoAllocate(inputs), [inputs])]: the engine reads
    the state as its preferences record.  The engine is embedded for a
    horizon that is a whole number of years; a state whose horizon is not
    whole has no record here. *)
Definition inputsOf (s : State Q) : option (Inputs Q) :=
  match wholeQ (st_horizon s) with
  | Some h =>
      Some {| budget := st_budget s; horizon := h; risk := st_risk s;
              regionSplit := st_regionSplit s; currency := st_currency s;
              includeGold := st_includeGold s;
              includeCrypto := st_includeCrypto s;
              cryptoCapPct := st_cryptoCapPct s;
              rebalFreq := st_rebalFreq s |}
  | None => None
  end.

(** *** The column of percentages *)

(** The decimal digits of a natural number, "0" for 0. *)
Definition digits (n : N) : string := NilEmpty.string_of_uint (N.to_uint n).

Fixpoint zeros (k : nat) : string :=
  match k with
  | O => EmptyString
  | S k => String "0"%char (zeros k)
  end.

(** [Number.prototype.toFixed(f)] on the real number [x] that a finite double
    is, for [x] below 10^21 in absolute value (from 10^21 on the method
    prints [x] as [String] does, which is not modelled).  [n] is the integer
    nearest to [x * 10^f], the larger one of two; its digits are padded with
    zeros on the left to [f + 1] digits and the point goes before the last
    [f]. *)
Definition toFixed (x : Q) (f : nat) : string :=
  let s := if Qltb x 0 then "-"%string else EmptyString in
  let x := Qabs x in
  let n := Z.to_N (Qfloor (x * inject_Z (10 ^ Z.of_nat f) + (1 # 2))) in
  let m := digits n in
  let m :=
    match f with
    | O => m
    | S _ =>
        let k := String.length m in
        let m := if (k <=? f)%nat then (zeros (f + 1 - k) ++ m)%string else m in
        let k := String.length m in
        (substring 0 (k - f) m ++ "." ++ substring (k - f) f m)%string
    end in
  (s ++ m)%string.

(** [function fmtPct(n) { return `${n.toFixed(1)}%`; }] *)
Definition fmtPct (n : Q) : string := (toFixed n 1 ++ "%")%string.

(** *** The CSV export *)

Definition quoteChar : ascii := ascii_of_nat 34.
Definition backslash : ascii := ascii_of_nat 92.

(** [String.prototype.replaceAll] for a pattern of one character. *)
Fixpoint replaceAll (s : string) (pattern : ascii) (replacement : string)
    : string :=
  match s with
  | EmptyString => EmptyString
  | String c s' =>
      ((if Ascii.eqb c pattern then replacement else String c EmptyString)
       ++ replaceAll s' pattern replacement)%string
  end.

(** [Array.prototype.join] *)
Fixpoint join (sep : string) (l : list string) : string :=
  match l with
  | [] => EmptyString
  | [x] => x
  | x :: l' => (x ++ sep ++ join sep l')%string
  end.

Definition csvHeaders : list string :=
  [ "Asset Class"; "Instrument"; "Country"; "Allocation %"; "Exp CAGR Low";
    "Exp CAGR High"; "Risk"; "Rationale" ]%string.

(** A cell of a line: the text of the field between two quote characters,
    every quote character of the text replaced by a backslash and a quote
    character. *)
Definition csvCell (x : string) : string :=
  String quoteChar
    (replaceAll x quoteChar (String backslash (String quoteChar EmptyString))
     ++ String quoteChar EmptyString)%string.

(** The separator of the lines in the source text is a backslash followed by
    the letter n, inside a string literal in which the backslash is itself
    escaped: two characters, none of them a line feed. *)
Definition csvSeparator : string := String backslash "n".

(** The text of the export.  [table] holds, for each row, the texts of its
    eight fields as [String] and [toFixed(2)] give them; the header line is
    joined as it is and every field of a row goes into a cell. *)
Definition csv (table : list (list string)) : string :=
  join csvSeparator
    (join "," csvHeaders :: map (fun fields => join "," (map csvCell fields)) table).

(** ** Vocabulary for the application *)

(** Two horizons on the same side of the two thresholds of the horizon tilt. *)
Definition sameBand (h1 h2 : Z) : Prop :=
  ((10 <= h1)%Z <-> (10 <= h2)%Z) /\ ((h1 <= 3)%Z <-> (h2 <= 3)%Z).

(** The sum of [pct] over the rows whose text field [f] is [c]. *)
Definition sumWhere (f : Row -> string) (c : string) (rows : list Row) : Q :=
  sumPct (filter (fun r => String.eqb (f r) c) rows).

(** The sum of the values of the slices of a pie. *)
Definition sumValue (l : list (Slice Q)) : Q :=
  fold_right (fun s t => value s + t) 0 l.

(** The keys of a list in the order of their first occurrence. *)
Fixpoint firstOccurrences (l : list string) : list string :=
  match l with
  | [] => []
  | k :: l' => k :: filter (fun k' => negb (String.eqb k k')) (firstOccurrences l')
  end.

(** Reading a text of [toFixed] back: a "-" or nothing, then digits with at
    most one point among them.  The value is the number that the digits
    write, divided by 10 for each digit after the point. *)
Fixpoint beforePoint (s : string) : string :=
  match s with
  | EmptyString => EmptyString
  | String c s' =>
      if Ascii.eqb c "."%char then EmptyString else String c (beforePoint s')
  end.

Fixpoint afterPoint (s : string) : string :=
  match s with
  | EmptyString => EmptyString
  | String c s' => if Ascii.eqb c "."%char then s' else afterPoint s'
  end.

Definition readUnsigned (s : string) : option Q :=
  match NilEmpty.uint_of_string (beforePoint s ++ afterPoint s)%string with
  | Some d =>
      Some (inject_Z (Z.of_N (N.of_uint d))
            / inject_Z (10 ^ Z.of_nat (String.length (afterPoint s))))
  | None => None
  end.

Definition readFixed (s : string) : option Q :=
  match s with
  | String c s' =>
      if Ascii.eqb c "-"%char then option_map Qopp (readUnsigned s')
      else readUnsigned s
  | EmptyString => readUnsigned s
  end.

(** A text with a line feed or a carriage return in it. *)
Fixpoint hasLineBreak (s : string) : bool :=
  match s with
  | EmptyString => false
  | String c s' =>
      Ascii.eqb c (ascii_of_nat 10) || Ascii.eqb c (ascii_of_nat 13)
      || hasLineBreak s'
  end.

(** A key among the keys of a list. *)
Definition occurs (k : string) (l : list string) : bool :=
  existsb (String.eqb k) l.

(** The value that a [Map] holds for a key, 0 for a key that is not there;
    the sum of its values. *)
Definition weightOf (m : list (string * Q)) (k : string) : Q :=
  match Map_get m k with Some v => v | None => 0 end.

Definition sumAssoc (m : list (string * Q)) : Q :=
  fold_right (fun kv t => snd kv + t) 0 m.

(** What the horizon adds to the equity weight and takes from the
    fixed-income weight. *)
Definition tilt (h : Z) : Q :=
  if (10 <=? h)%Z then 5 else if (h <=? 3)%Z then -10 else 0.

(** The region shares that the select offers, and what every state of the
    form satisfies. *)
Definition offered (p : Q * Q) : Prop :=
  exists o : SplitOption, p = splitOption (num := exactQ) o.

Definition wellFormed (s : State Q) : Prop :=
  100 <= st_budget s <= 10000000 /\ 1 <= st_horizon s <= 30 /\
  0 <= st_cryptoCapPct s <= 10 /\ offered (st_regionSplit s).

(** The horizon typed is a whole number, as the arrows of the field give. *)
Definition wholeEvent (e : @Event Q) : Prop :=
  match e with
  | HorizonChange v => wholeQ v <> None
  | _ => True
  end.

(** The integer nearest to [y], the larger one of two. *)
Definition nearest (y : Q) : Z := Qfloor (y + (1 # 2)).

(** The text of [toFixed] after the sign, from the integer [n]. *)
Definition fixedDigits (n : N) (f : nat) : string :=
  let m := digits n in
  match f with
  | O => m
  | S _ =>
      let k := String.length m in
      let m := if (k <=? f)%nat then (zeros (f + 1 - k) ++ m)%string else m in
      let k := String.length m in
      (substring 0 (k - f) m ++ "." ++ substring (k - f) f m)%string
  end.

(** Preferences that differ from the initial ones in the budget, the horizon,
    the currency, the cap and the rebalancing. *)
Definition otherInputs : Inputs Q :=
  {| budget := 100; horizon := 5; risk := Moderate; regionSplit := (60, 40);
     currency := INR; includeGold := true; includeCrypto := false;
     cryptoCapPct := 9; rebalFreq := Quarterly |}.

(** What a user may do: type a budget and a horizon out of range, pick the
    Aggressive profile and a split of 30 to 70, include crypto and type a cap
    out of range. *)
Definition someEvents : list (@Event Q) :=
  [ BudgetChange 5; HorizonChange 99; RiskChange Aggressive;
    RegionSplitChange S30_70; CryptoChange true; CryptoCapChange 12.5 ].

(** The texts of the fields of two rows, one with a quote character in it. *)
Definition someTable : list (list string) :=
  [ [ "Equity"; "S&P 500 ETF (VOO)"; "USA"; "33.00"; "7"; "10"; "Medium";
      "Sector tilt: Broad Market" ];
    [ "Cash"; String quoteChar "Consolidated"; "Global"; "0.50"; "0"; "0";
      "Low"; "Rounded tiny slices" ] ]%string.

(** An even split on the Moderate profile: each USA sector row but one has
    an India row of the same [pct]. *)
Definition evenSplit : Inputs Q :=
  {| budget := 25000; horizon := 7; risk := Moderate; regionSplit := (50, 50);
     currency := USD; includeGold := true; includeCrypto := false;
     cryptoCapPct := 3; rebalFreq := Annual |}.

(** The first slice of a pie. *)
Definition firstSlice (l : list (Slice Q)) : Slice Q :=
  hd {| name := EmptyString; value := 0 |} l.

(** *** Doubles: the form and the engine on the inputs of the form *)

(** An event that hands over a number hands over a double that is not NaN. *)
Definition typed (e : @Event float) : Prop :=
  match e with
  | BudgetChange v | HorizonChange v | CryptoCapChange v =>
      PrimFloat.is_nan v = false
  | _ => True
  end.

Definition wellFormedF (s : State float) : Prop :=
  (PrimFloat.leb 100 (st_budget s) = true /\
   PrimFloat.leb (st_budget s) 10000000 = true) /\
  (PrimFloat.leb 1 (st_horizon s) = true /\
   PrimFloat.leb (st_horizon s) 30 = true) /\
  (PrimFloat.leb 0 (st_cryptoCapPct s) = true /\
   PrimFloat.leb (st_cryptoCapPct s) 10 = true) /\
  exists o : SplitOption, st_regionSplit s = splitOption o.

(** The cap after [k] steps of 0.5 from 0, which is how the arrows of the cap
    field move it. *)
Definition halves (k : nat) : float :=
  PrimFloat.div (float_of_Z (Z.of_nat k)) 2%float.

(** A horizon in the band of [h]. *)
Definition representative (h : Z) : Z :=
  if (10 <=? h)%Z then 12%Z else if (h <=? 3)%Z then 2%Z else 5%Z.

Definition steppedInputs (r : Risk) (h : Z) (o : SplitOption) (g c : bool)
    (k : nat) : Inputs float :=
  {| budget := 25000%float; horizon := h; risk := r;
     regionSplit := splitOption o; currency := USD; includeGold := g;
     includeCrypto := c; cryptoCapPct := halves k; rebalFreq := Annual |}.

(** Each [pct] is at most the one before it. *)
Fixpoint descendingF (l : list (AllocationRow float)) : bool :=
  match l with
  | a :: (b :: _) as l' => PrimFloat.leb (pct b) (pct a) && descendingF l'
  | _ => true
  end.

(** The sum of the rationals that the [pct] of the rows are. *)
Definition sumExact (l : list (AllocationRow float)) : Q :=
  fold_right (fun r s => Q_of_float (pct r) + s) 0 l.

(** A double as a whole multiple of 2^-80, when it is one, and the sum of
    the [pct] of the rows in that unit. *)
Definition scaled (f : float) : option Z :=
  match Prim2SF f with
  | S754_zero _ => Some 0%Z
  | S754_finite s m e =>
      if (e <? -80)%Z then None
      else Some ((if s then -1 else 1) * (Zpos m * 2 ^ (e + 80)))%Z
  | _ => None
  end.

Fixpoint sumScaled (l : list (AllocationRow float)) : option Z :=
  match l with
  | [] => Some 0%Z
  | r :: l' =>
      match scaled (pct r), sumScaled l' with
      | Some a, Some b => Some (a + b)%Z
      | _, _ => None
      end
  end.

(** The tests of [soundOnDoubles]: the sum of the rows is within 1e-6 of
    100; a [pct] lies between 0 and 100; a "Crypto" row is at most the cap. *)
Definition sumWithin (l : list (AllocationRow float)) : bool :=
  match sumScaled l with
  | Some z => (Z.abs (z - 100 * 2 ^ 80) * 1000000 <=? 2 ^ 80)%Z
  | None => false
  end.

Definition inRange (r : AllocationRow float) : bool :=
  PrimFloat.leb 0 (pct r) && PrimFloat.leb (pct r) 100.

Definition cryptoCapped (cap : float) (r : AllocationRow float) : bool :=
  negb (String.eqb (assetClass r) "Crypto") || PrimFloat.leb (pct r) cap.

Definition soundOnDoubles (i : Inputs float) : bool :=
  let rows := autoAllocate i in
  forallb inRange rows && descendingF rows && sumWithin rows
  && forallb (cryptoCapped (cryptoCapPct i)) rows.

Definition allRisks : list Risk :=
  [Conservative; Moderate; ModerateAggressive; Aggressive].
Definition allSplits : list SplitOption :=
  [S80_20; S70_30; S60_40; S50_50; S40_60; S30_70].
Definition allBools : list bool := [true; false].
Definition allBands : list Z := [2; 5; 12]%Z.

(** [soundOnDoubles] on every combination of a profile, a band of the
    horizon, an option of the region split, the two opt-ins and, with crypto
    included, a cap from 0 to 10 in steps of 0.5. *)
Abbreviation steppedFormSound :=
  (forallb (fun r => forallb (fun h => forallb (fun o => forallb (fun g =>
     forallb (fun c =>
       forallb (fun k => soundOnDoubles (steppedInputs r h o g c k))
         (if c then seq 0 21 else [0%nat]))
       allBools) allBools) allSplits) allBands) allRisks).

(** Events on doubles: numbers out of range, one of them infinite, and a
    horizon that is not whole. *)
Definition someEventsF : list (@Event float) :=
  [ BudgetChange 5%float; HorizonChange 3.5%float; RiskChange Aggressive;
    RegionSplitChange S30_70; CryptoChange true;
    CryptoCapChange infinity ].

(** Preferences of the form on doubles: a cap of 1.5, that is 3 steps. *)
Definition steppedExample : Inputs float :=
  {| budget := 5000%float; horizon := 25; risk := ModerateAggressive;
     regionSplit := (70, 30)%float; currency := INR; includeGold := true;
     includeCrypto := true; cryptoCapPct := 1.5%float; rebalFreq := Quarterly |}.

(** ** What holds in every arithmetic *)

(** Case analysis on a row of [buildRows]: one goal per [push] of the source,
    with the guard of that [push] among the hypotheses. *)
Ltac in_rows H :=
  unfold buildRows in H;
  match type of H with context [regionSplit ?i] =>
    destruct (regionSplit i) as [usa ind] end;
  repeat rewrite in_app_iff in H;
  cbn [map sectorTiltUSA sectorTiltIND] in H;
  repeat match type of H with _ \/ _ => destruct H as [H|H] end;
  try match type of H with In _ (if ?g then _ ++ _ else _) =>
    let Gg := fresh "Gg" in
    destruct g eqn:Gg; [rewrite in_app_iff in H; destruct H as [H|H] | destruct H] end;
  unfold pushIf in H;
  try match type of H with In _ (if ?c then _ else _) =>
    let G := fresh "G" in destruct c eqn:G; [|destruct H] end;
  cbn [In] in H;
  repeat match type of H with _ \/ _ => destruct H as [H|H] end;
  try (exfalso; exact H);
  subst.


Section Structure.
Context {N : Type} {num : Number N}.
Local Open Scope num_scope.

Lemma sweep_fold (rows : list (AllocationRow N)) :
  forall (t : N) (c : list (AllocationRow N)),
    fold_left sweepStep rows (t, c)
    = (fold_left (fun t r => t + pct r) (removed rows) t, c ++ filter isKept rows).
Proof.
  induction rows as [|r rows IH]; intros t c; cbn [fold_left].
  - cbn [filter removed fold_left]. rewrite app_nil_r. reflexivity.
  - assert (Hstep : sweepStep (t, c) r
                    = if isTiny r then (t + pct r, c) else (t, c ++ [r]))
      by reflexivity.
    rewrite Hstep. unfold removed, isKept. cbn [filter].
    destruct (isTiny r); cbn [negb fold_left]; rewrite IH.
    + reflexivity.
    + rewrite <- app_assoc. reflexivity.
Qed.

(** [cleaned] holds the rows that are not below 0.4, in their order. *)
Lemma sweep_cleaned (rows : list (AllocationRow N)) :
  snd (sweep rows) = filter isKept rows.
Proof. unfold sweep. rewrite sweep_fold. reflexivity. Qed.

(** [tiny] accumulates the removed rows from the left, starting at 0. *)
Lemma sweep_tiny (rows : list (AllocationRow N)) :
  fst (sweep rows) = fold_left (fun t r => t + pct r) (removed rows) (lit 0).
Proof. unfold sweep. rewrite sweep_fold. reflexivity. Qed.

Lemma consolidate_eq (rows : list (AllocationRow N)) :
  consolidate rows =
  filter isKept rows
    ++ pushIf (fst (sweep rows) >? lit 0) (consolidatedRow (fst (sweep rows))).
Proof.
  unfold consolidate. rewrite <- sweep_cleaned.
  destruct (sweep rows) as [tiny cleaned]. reflexivity.
Qed.

Lemma consolidate_In (rows : list (AllocationRow N)) (r : AllocationRow N) :
  In r (consolidate rows) <->
  (In r rows /\ isTiny r = false) \/
  (r = consolidatedRow (fst (sweep rows)) /\ (fst (sweep rows) >? lit 0) = true).
Proof.
  rewrite consolidate_eq, in_app_iff, filter_In. unfold isKept, pushIf.
  rewrite negb_true_iff.
  destruct (fst (sweep rows) >? lit 0); cbn [In]; intuition congruence.
Qed.

Lemma insertRow_perm (a : AllocationRow N) (l : list (AllocationRow N)) :
  Permutation (insertRow a l) (a :: l).
Proof.
  induction l as [|b l IH]; cbn [insertRow].
  - reflexivity.
  - destruct (comparator a b >? lit 0).
    + rewrite IH. apply perm_swap.
    + reflexivity.
Qed.

(** Sorting rearranges the rows and changes none. *)
Lemma sortRows_perm (l : list (AllocationRow N)) : Permutation (sortRows l) l.
Proof.
  induction l as [|a l IH]; cbn [sortRows fold_right].
  - reflexivity.
  - fold (sortRows l). rewrite insertRow_perm, IH. reflexivity.
Qed.

Lemma sortRows_In (l : list (AllocationRow N)) (r : AllocationRow N) :
  In r (sortRows l) <-> In r l.
Proof.
  split; apply Permutation_in; [| symmetry]; apply sortRows_perm.
Qed.

(** A returned row is a row of [rows] that is not below 0.4, or it is the
    "Consolidated" row, and then [tiny] is positive. *)
Lemma autoAllocate_In (i : Inputs N) (r : AllocationRow N) :
  In r (autoAllocate i) <->
  (In r (rawRows i) /\ isTiny r = false) \/
  (r = consolidatedRow (tinyTotal i) /\ (tinyTotal i >? lit 0) = true).
Proof.
  unfold autoAllocate. rewrite sortRows_In. apply consolidate_In.
Qed.



(** What the rows pushed from the weights have in common: none is the
    "Consolidated" row, a Commodity row needs a positive gold weight, and a
    Crypto row needs crypto included and carries the positive crypto weight. *)
Lemma buildRows_facts (i : Inputs N) (base : Weights N) (r : AllocationRow N) :
  In r (buildRows i base) ->
  isConsolidated r = false /\
  (assetClass r = "Commodity"%string -> (gold base >? lit 0) = true) /\
  (assetClass r = "Crypto"%string ->
     includeCrypto i = true /\ (crypto base >? lit 0) = true /\ pct r = crypto base).
Proof.
  intros Hin. in_rows Hin;
    (split; [reflexivity | split; cbn [assetClass usaSectorRow indSectorRow mkRow];
       intros Ha; try discriminate Ha]).
  - reflexivity.
  - reflexivity.
  - apply andb_prop in G. destruct G as [G1 G2]. cbn [pct]. auto.
Qed.


(** With crypto excluded no "Crypto" row is returned, whatever the numbers. *)
Lemma crypto_off_no_row (i : Inputs N) (r : AllocationRow N) :
  includeCrypto i = false -> In r (autoAllocate i) ->
  assetClass r <> "Crypto"%string.
Proof.
  intros Hoff Hin Ha. apply autoAllocate_In in Hin.
  destruct Hin as [[Hin _]|[-> _]]; [|discriminate Ha].
  apply buildRows_facts in Hin. destruct Hin as (_ & _ & Hk).
  destruct (Hk Ha) as (Hon & _). congruence.
Qed.

End Structure.

(** ** Rational arithmetic *)

Local Open Scope Q_scope.

Lemma Qltb_lt (a b : Q) : Qltb a b = true <-> a < b.
Proof.
  unfold Qltb. rewrite negb_true_iff, <- not_true_iff_false, Qle_bool_iff.
  split; [apply Qnot_le_lt | apply Qlt_not_le].
Qed.

Lemma Qltb_ge (a b : Q) : Qltb a b = false <-> b <= a.
Proof.
  unfold Qltb. rewrite negb_false_iff, Qle_bool_iff. reflexivity.
Qed.

Ltac caseQltb a b :=
  let E := fresh "E" in
  destruct (Qltb a b) eqn:E;
  [apply Qltb_lt in E | apply Qltb_ge in E].

Ltac fields :=
  cbn [equity fixed gold reits cash crypto set_equity set_fixed set_gold set_crypto
       horizon risk regionSplit includeGold includeCrypto cryptoCapPct
       fst snd negb andb] in *.

Ltac steps :=
  unfold adjusted, cryptoCap, cryptoOptOut, goldOptOut, horizonTilt, profiles,
    weightSum, nonneg, total in *.

(** *** Sums of rows *)

Lemma sumPct_cons (r : Row) (l : list Row) : sumPct (r :: l) = pct r + sumPct l.
Proof. reflexivity. Qed.

Lemma sumPct_app (l1 l2 : list Row) : sumPct (l1 ++ l2) == sumPct l1 + sumPct l2.
Proof.
  induction l1 as [|r l1 IH].
  - cbn [app]. change (sumPct []) with 0. lra.
  - rewrite <- app_comm_cons, !sumPct_cons, IH. lra.
Qed.

Lemma sumPct_perm (l1 l2 : list Row) : Permutation l1 l2 -> sumPct l1 == sumPct l2.
Proof.
  induction 1 as [|r l l' _ IH|r r' l|l l' l'' _ IH1 _ IH2].
  - reflexivity.
  - rewrite !sumPct_cons, IH. reflexivity.
  - rewrite !sumPct_cons. lra.
  - rewrite IH1. exact IH2.
Qed.

Lemma sumPct_nonneg (l : list Row) :
  (forall r, In r l -> 0 <= pct r) -> 0 <= sumPct l.
Proof.
  induction l as [|r l IH]; intros Hl.
  - change (sumPct []) with 0. lra.
  - rewrite sumPct_cons.
    assert (0 <= pct r) by (apply Hl; left; reflexivity).
    assert (0 <= sumPct l) by (apply IH; intros; apply Hl; right; assumption).
    lra.
Qed.

Lemma sumPct_filter_split (f : Row -> bool) (l : list Row) :
  sumPct (filter f l) + sumPct (filter (fun r => negb (f r)) l) == sumPct l.
Proof.
  induction l as [|r l IH]; cbn [filter].
  - change (sumPct []) with 0. lra.
  - destruct (f r); cbn [negb]; rewrite !sumPct_cons; lra.
Qed.

Lemma sumPct_In_le (l : list Row) (r : Row) :
  (forall x, In x l -> 0 <= pct x) -> In r l -> pct r <= sumPct l.
Proof.
  induction l as [|x l IH]; intros Hl Hin; [destruct Hin|].
  rewrite sumPct_cons.
  assert (0 <= pct x) by (apply Hl; left; reflexivity).
  assert (0 <= sumPct l)
    by (apply sumPct_nonneg; intros; apply Hl; right; assumption).
  destruct Hin as [->|Hin].
  - lra.
  - assert (pct r <= sumPct l)
      by (apply IH; [intros; apply Hl; right; assumption | exact Hin]).
    lra.
Qed.

Lemma pushIf_sum (c : bool) (r : Row) :
  sumPct (pushIf c r) = if c then pct r + 0 else 0.
Proof. destruct c; reflexivity. Qed.

(** A share that is not negative is pushed when positive and is 0 otherwise:
    either way the guarded [push] adds the share to the sum. *)
Lemma guarded_sum (x : Q) (r : Row) :
  pct r = x -> 0 <= x -> sumPct (pushIf (Qltb 0 x) r) == x.
Proof.
  intros Hr Hx. rewrite pushIf_sum, Hr. caseQltb 0 x; lra.
Qed.

Lemma Sorted_neighbours (l : list Row) :
  Sorted descending l ->
  forall (k : nat) (a b : Row),
    nth_error l k = Some a -> nth_error l (S k) = Some b -> pct b <= pct a.
Proof.
  induction 1 as [|x l Hs IH Hd]; intros k a b Ha Hb.
  - destruct k; discriminate Ha.
  - destruct k as [|k].
    + cbn in Ha, Hb. injection Ha as <-. destruct l as [|y l]; [discriminate Hb|].
      cbn in Hb. injection Hb as <-. inversion Hd; subst. assumption.
    + exact (IH k a b Ha Hb).
Qed.

Lemma valid_inv (i : Inputs Q) :
  valid i ->
  fst (regionSplit i) + snd (regionSplit i) == 100 /\
  0 <= fst (regionSplit i) /\ 0 <= snd (regionSplit i) /\
  0 <= cryptoCapPct i /\ cryptoCapPct i <= 10 /\
  (1 <= horizon i <= 30)%Z.
Proof.
  unfold valid, validb. rewrite !andb_true_iff, !Qle_bool_iff, Qeq_bool_iff.
  rewrite !Z.leb_le. tauto.
Qed.

(** *** Relative error *)

Lemma epow_pos (k : nat) : 0 < epow k.
Proof.
  induction k as [|k IH]; cbn [epow]; [reflexivity|].
  apply Qmult_lt_0_compat; [reflexivity | exact IH].
Qed.

Lemma epow_le_1 (k : nat) : epow k <= 1.
Proof.
  induction k as [|k IH]; cbn [epow]; [discriminate|].
  pose proof (epow_pos k). unfold u. lra.
Qed.

Lemma epow_add (a b : nat) : epow (a + b) == epow a * epow b.
Proof.
  induction a as [|a IH]; cbn [epow Nat.add]; [ring|]. rewrite IH. ring.
Qed.

Lemma epow_mono (a b : nat) : (a <= b)%nat -> epow b <= epow a.
Proof.
  intros Hab. replace b with (a + (b - a))%nat by lia. rewrite epow_add.
  pose proof (epow_pos a). pose proof (epow_le_1 (b - a)).
  setoid_replace (epow a) with (epow a * 1) at 2 by ring.
  apply Qmult_le_l; assumption.
Qed.

#[export] Instance approx_proper (k : nat) :
  Proper (Qeq ==> Qeq ==> iff) (approx k).
Proof.
  intros x x' Hx X X' HX. unfold approx. rewrite Hx, HX. reflexivity.
Qed.

Lemma approx_ideal (k : nat) (x X X' : Q) :
  X == X' -> approx k x X' -> approx k x X.
Proof. intros HX Hx. rewrite HX. exact Hx. Qed.

Lemma approx_value (k : nat) (x x' X : Q) :
  x == x' -> approx k x' X -> approx k x X.
Proof. intros Hx Hx'. rewrite Hx. exact Hx'. Qed.

Lemma approx_nonneg (k : nat) (x X : Q) : approx k x X -> 0 <= x.
Proof.
  intros (HX & Hl & _). pose proof (epow_pos k).
  assert (0 <= X * epow k) by (apply Qmult_le_0_compat; lra). lra.
Qed.

Lemma approx_refl (x : Q) : 0 <= x -> approx 0 x x.
Proof. intros Hx. unfold approx. cbn [epow]. repeat split; lra. Qed.

Lemma approx_weaken (a b : nat) (x X : Q) :
  (a <= b)%nat -> approx a x X -> approx b x X.
Proof.
  intros Hab Hx. pose proof (approx_nonneg _ _ _ Hx) as Hx0.
  destruct Hx as (HX & Hl & Hu). pose proof (epow_mono a b Hab) as Hm.
  pose proof (epow_pos b).
  assert (X * epow b <= X * epow a)
    by (rewrite !(Qmult_comm X); apply Qmult_le_compat_r; assumption).
  assert (x * epow b <= x * epow a)
    by (rewrite !(Qmult_comm x); apply Qmult_le_compat_r; assumption).
  repeat split; lra.
Qed.

Lemma approx_add (k : nat) (x X y Y : Q) :
  approx k x X -> approx k y Y -> approx k (x + y) (X + Y).
Proof.
  intros (HX & Hxl & Hxu) (HY & Hyl & Hyu). repeat split; lra.
Qed.

Lemma approx_add_max (a b : nat) (x X y Y : Q) :
  approx a x X -> approx b y Y -> approx (Nat.max a b) (x + y) (X + Y).
Proof.
  intros Hx Hy. apply approx_add.
  - apply (approx_weaken a); [lia | exact Hx].
  - apply (approx_weaken b); [lia | exact Hy].
Qed.

Lemma approx_mul (a b : nat) (x X y Y : Q) :
  approx a x X -> approx b y Y -> approx (a + b) (x * y) (X * Y).
Proof.
  intros Hx Hy.
  pose proof (approx_nonneg _ _ _ Hx) as Hx0.
  pose proof (approx_nonneg _ _ _ Hy) as Hy0.
  destruct Hx as (HX & Hxl & Hxu). destruct Hy as (HY & Hyl & Hyu).
  pose proof (epow_pos a). pose proof (epow_pos b).
  unfold approx. rewrite epow_add. repeat split.
  - apply Qmult_le_0_compat; assumption.
  - setoid_replace (X * Y * (epow a * epow b))
      with ((X * epow a) * (Y * epow b)) by ring.
    apply Qmult_le_compat_nonneg; split; try assumption;
      apply Qmult_le_0_compat; lra.
  - setoid_replace (x * y * (epow a * epow b))
      with ((x * epow a) * (y * epow b)) by ring.
    apply Qmult_le_compat_nonneg; split; try assumption;
      apply Qmult_le_0_compat; lra.
Qed.

Lemma approx_inv (b : nat) (y Y : Q) :
  approx b y Y -> 0 < Y -> approx b (/ y) (/ Y).
Proof.
  intros (HY & Hl & Hu) Hpos. pose proof (epow_pos b) as He.
  assert (Hy : 0 < y).
  { assert (0 < Y * epow b) by (apply Qmult_lt_0_compat; assumption). lra. }
  repeat split.
  - apply Qinv_le_0_compat. exact HY.
  - apply Qle_shift_inv_l; [exact Hy|].
    setoid_replace (/ Y * epow b * y) with ((y * epow b) / Y) by (field; lra).
    apply Qle_shift_div_r; lra.
  - apply Qle_shift_inv_l; [exact Hpos|].
    setoid_replace (/ y * epow b * Y) with ((Y * epow b) / y) by (field; lra).
    apply Qle_shift_div_r; lra.
Qed.

Lemma approx_div (a b : nat) (x X y Y : Q) :
  approx a x X -> approx b y Y -> 0 < Y -> approx (a + b) (x / y) (X / Y).
Proof.
  intros Hx Hy Hpos. unfold Qdiv. apply approx_mul; [exact Hx|].
  apply approx_inv; assumption.
Qed.

Lemma approx_trans (a b : nat) (x y z : Q) :
  approx a x y -> approx b y z -> approx (a + b) x z.
Proof.
  intros Hxy Hyz. pose proof (approx_nonneg _ _ _ Hxy) as Hx0.
  destruct Hxy as (Hy0 & Hl1 & Hu1). destruct Hyz as (Hz0 & Hl2 & Hu2).
  pose proof (epow_pos a) as Ha. pose proof (epow_pos b) as Hb.
  unfold approx. rewrite epow_add. repeat split; [exact Hz0| |].
  - assert (z * epow b * epow a <= y * epow a)
      by (apply Qmult_le_compat_r; lra).
    setoid_replace (z * (epow a * epow b)) with (z * epow b * epow a) by ring.
    lra.
  - assert (x * epow a * epow b <= y * epow b)
      by (apply Qmult_le_compat_r; lra).
    setoid_replace (x * (epow a * epow b)) with (x * epow a * epow b) by ring.
    lra.
Qed.

(** Bernoulli's inequality for [(1 - u)^k]. *)
Lemma epow_lower (k : nat) : 1 - inject_Z (Z.of_nat k) * u <= epow k.
Proof.
  induction k as [|k IH]; cbn [epow].
  - apply Qle_bool_iff. reflexivity.
  - rewrite Nat2Z.inj_succ. unfold Z.succ. rewrite inject_Z_plus.
    assert (Hk : 0 <= inject_Z (Z.of_nat k))
      by (change 0 with (inject_Z 0); rewrite <- Zle_Qle; lia).
    pose proof (epow_pos k) as Hp. pose proof (epow_le_1 k) as H1.
    change (inject_Z 1) with 1. unfold u in *.
    set (n := inject_Z (Z.of_nat k)) in *. set (E := epow k) in *.
    assert (0 <= n * (1 # 9007199254740992) * (1 # 9007199254740992))
      by (repeat apply Qmult_le_0_compat; lra).
    lra.
Qed.

(** Within [k] roundings of 100, for [k] up to 40, is within the tolerance. *)
Lemma approx_100_tolerance (k : nat) (x : Q) :
  (k <= 40)%nat -> approx k x 100 -> Qabs (x - 100) <= tolerance.
Proof.
  intros Hk Hx. apply (approx_weaken k 40 _ _ Hk) in Hx.
  pose proof (approx_nonneg _ _ _ Hx) as Hx0. destruct Hx as (_ & Hl & Hu).
  pose proof (epow_lower 40) as Hb. pose proof (epow_le_1 40) as H1.
  change (inject_Z (Z.of_nat 40)) with 40 in Hb. unfold u in Hb.
  set (E := epow 40) in *.
  assert (x * (1 - 40 * (1 # 9007199254740992)) <= x * E)
    by (rewrite !(Qmult_comm x); apply Qmult_le_compat_r; assumption).
  apply Qabs_Qle_condition. unfold tolerance. split; lra.
Qed.

(** ** Rounded arithmetic

    [rnd] is any rounding whose relative error is at most [u]: the standard
    model of floating-point arithmetic, which binary64 satisfies on results in
    its normal range. *)

Section Rounding.

Variable rnd : Q -> Q.
Hypothesis rnd_err : forall x : Q, Qabs (rnd x - x) <= u * Qabs x.

#[local] Instance roundedN : Number Q := roundedQ rnd.

Ltac numR := cbv [add sub mul div ltb lit truthy roundedN roundedQ] in *.

Lemma rnd_bounds (x : Q) :
  0 <= x -> (1 - u) * x <= rnd x /\ rnd x <= (1 + u) * x.
Proof.
  intros Hx. pose proof (rnd_err x) as He.
  rewrite (Qabs_pos x Hx) in He. apply Qabs_Qle_condition in He.
  destruct He as [Hl Hu]. split; lra.
Qed.

Lemma rnd_nonneg (x : Q) : 0 <= x -> 0 <= rnd x.
Proof.
  intros Hx. destruct (rnd_bounds x Hx) as [Hl _]. unfold u in *.
  assert (0 <= (1 - (1 # 9007199254740992)) * x)
    by (apply Qmult_le_0_compat; lra).
  lra.
Qed.

Lemma rnd_pos (x : Q) : 0 < x -> 0 < rnd x.
Proof.
  intros Hx. destruct (rnd_bounds x (Qlt_le_weak _ _ Hx)) as [Hl _]. unfold u in *.
  assert (0 < (1 - (1 # 9007199254740992)) * x)
    by (apply Qmult_lt_0_compat; lra).
  lra.
Qed.

Lemma rnd_nonpos (x : Q) : x <= 0 -> rnd x <= 0.
Proof.
  intros Hx. pose proof (rnd_err x) as He.
  rewrite (Qabs_neg x Hx) in He. apply Qabs_Qle_condition in He.
  destruct He as [_ Hu']. unfold u in *.
  assert (0 <= (1 - (1 # 9007199254740992)) * - x)
    by (apply Qmult_le_0_compat; lra).
  lra.
Qed.

Lemma rnd_zero (x : Q) : x == 0 -> rnd x == 0.
Proof.
  intros Hx. apply Qle_antisym.
  - apply rnd_nonpos. lra.
  - apply rnd_nonneg. lra.
Qed.

(** The sign of a rounded number is the sign of the number. *)
Lemma rnd_pos_iff (x : Q) : 0 < rnd x <-> 0 < x.
Proof.
  split; [|apply rnd_pos].
  intros Hr. destruct (Qlt_le_dec 0 x) as [Hx|Hx]; [exact Hx|].
  pose proof (rnd_nonpos x Hx). lra.
Qed.

(** Names the rounded subterms from the inside out, each with its bounds. *)
Ltac rnd_facts :=
  repeat match goal with
  | |- context [rnd ?x] =>
      lazymatch x with context [rnd _] => fail | _ => idtac end;
      let Hx := fresh "Hx" in let v := fresh "v" in let Hv := fresh "Hv" in
      assert (Hx : 0 <= x) by lra;
      pose proof (rnd_bounds x Hx) as Hv; unfold u in Hv;
      set (v := rnd x) in *; clearbody v
  | _ : context [rnd ?x] |- _ =>
      lazymatch x with context [rnd _] => fail | _ => idtac end;
      let Hx := fresh "Hx" in let v := fresh "v" in let Hv := fresh "Hv" in
      assert (Hx : 0 <= x) by lra;
      pose proof (rnd_bounds x Hx) as Hv; unfold u in Hv;
      set (v := rnd x) in *; clearbody v
  end.

(** The adjusted weights are non-negative, and their sum is 100 up to four
    roundings. *)
Lemma adjusted_rounded (i : Inputs Q) :
  0 <= cryptoCapPct i ->
  nonneg (adjusted i) /\
  100 * (1 - 4 * u) <= weightSum (adjusted i) <= 100 * (1 + 4 * u).
Proof.
  destruct i as [bud h rk [usa ind] cur g c cap rb]. fields. intros Hcap.
  steps. fields.
  destruct rk; (destruct (10 <=? h)%Z; [|destruct (h <=? 3)%Z]);
    destruct g, c; fields; numR;
    match goal with
    | |- context [Qltb ?a ?b] => caseQltb a b
    | _ => idtac
    end; fields; unfold u in *; rnd_facts; repeat split; lra.
Qed.

(** *** Rounding in the calculus of relative error *)

Lemma approx_rnd (k : nat) (x X : Q) : approx k x X -> approx (S k) (rnd x) X.
Proof.
  intros Hx. pose proof (approx_nonneg _ _ _ Hx) as Hx0.
  destruct Hx as (HX & Hl & Hu). destruct (rnd_bounds x Hx0) as [Rl Ru].
  pose proof (epow_pos k) as He. unfold approx, u in *. cbn [epow]. unfold u.
  assert (rnd x * epow k <= (1 + (1 # 9007199254740992)) * x * epow k)
    by (apply Qmult_le_compat_r; lra).
  assert (0 <= x * epow k) by (apply Qmult_le_0_compat; lra).
  repeat split; lra.
Qed.

Lemma approx_lit (c : Q) : 0 <= c -> approx 1 (rnd c) c.
Proof. intros Hc. apply approx_rnd, approx_refl, Hc. Qed.

(** Derives [approx ?k x ?X] along the operations of [x]; the leaves are
    hypotheses of the context or non-negative numbers. *)
Ltac approx_leaf :=
  first [ eassumption
        | apply approx_lit; lra
        | apply approx_refl; first [assumption | lra] ].

Ltac approx_derive :=
  lazymatch goal with
  | |- approx _ (rnd (_ + _)) _ =>
      apply approx_rnd; eapply approx_add_max; approx_derive
  | |- approx _ (rnd (_ * _)) _ =>
      apply approx_rnd; eapply approx_mul; approx_derive
  | |- approx _ (rnd (_ / _)) _ =>
      apply approx_rnd; eapply approx_div; [approx_derive | approx_derive | ]
  | |- approx _ _ _ => approx_leaf
  end.

(** [base.crypto || 0] is [base.crypto], up to the rounding of the literal. *)
Lemma crypto_or_zero (k : Q) :
  0 <= k -> approx 1 (k || lit 0)%num k.
Proof.
  intros Hk. numR. destruct (Qeq_bool k 0) eqn:E; cbn [negb].
  - apply Qeq_bool_eq in E. rewrite E. apply approx_lit. lra.
  - apply (approx_weaken 0); [lia | apply approx_refl, Hk].
Qed.

(** The divisor of the normalization is the sum of the weights up to six
    roundings. *)
Lemma total_approx (b : Weights Q) :
  nonneg b -> approx 6 (total b) (weightSum b).
Proof.
  intros (He & Hf & Hg & Hr & Hc & Hk). unfold total, weightSum.
  pose proof (crypto_or_zero (crypto b) Hk) as Hk'. numR.
  eapply approx_weaken; [|approx_derive]. cbn. lia.
Qed.

(** Each normalized weight is its share of 100 up to nine roundings. *)
Lemma normalize_approx (b : Weights Q) :
  nonneg b -> 0 < weightSum b ->
  approx 9 (equity (normalize b)) (equity b / weightSum b * 100) /\
  approx 9 (fixed (normalize b)) (fixed b / weightSum b * 100) /\
  approx 9 (gold (normalize b)) (gold b / weightSum b * 100) /\
  approx 9 (reits (normalize b)) (reits b / weightSum b * 100) /\
  approx 9 (cash (normalize b)) (cash b / weightSum b * 100) /\
  approx 9 (crypto (normalize b)) (crypto b / weightSum b * 100).
Proof.
  intros Hb Hpos. pose proof (total_approx b Hb) as Ht.
  destruct Hb as (He & Hf & Hg & Hr & Hc & Hk).
  unfold normalize. fields. numR.
  repeat match goal with |- _ /\ _ => split end;
    (eapply approx_weaken; [|approx_derive; exact Hpos]); cbn; lia.
Qed.

Lemma share_approx (a : nat) (x X p : Q) :
  approx a x X -> 0 <= p -> approx (a + 3) (share rnd x p) (X * p / 100).
Proof.
  intros Hx Hp. unfold share.
  eapply approx_weaken; [|approx_derive; reflexivity]. cbn. lia.
Qed.

Lemma share_nonneg (x p : Q) : 0 <= x -> 0 <= p -> 0 <= share rnd x p.
Proof.
  intros Hx Hp.
  exact (approx_nonneg _ _ _ (share_approx 0 x x p (approx_refl x Hx) Hp)).
Qed.

Lemma share_zero (x p : Q) : x == 0 -> share rnd x p == 0.
Proof.
  intros Hx. unfold share. apply rnd_zero.
  assert (H0 : rnd (x * p) == 0) by (apply rnd_zero; rewrite Hx; ring).
  rewrite H0. unfold Qdiv. ring.
Qed.

(** The rows of a sector table carry the equity share, split by the table. *)
Lemma usaRows_approx (a : nat) (q X : Q) :
  approx a q X ->
  approx (a + 4) (sumPct (map (usaSectorRow q) sectorTiltUSA)) X.
Proof.
  intros Hq. unfold sectorTiltUSA, usaSectorRow, mkRow, sumPct.
  cbn [map fold_right pct s_pct]. numR.
  assert (HX : X == X * 55 / 100 + (X * 20 / 100 + (X * 10 / 100
                 + (X * 8 / 100 + (X * 7 / 100 + 0))))) by field.
  apply (approx_ideal _ _ _ _ HX).
  repeat (apply approx_add;
          [eapply approx_weaken; [|approx_derive; reflexivity]; cbn; lia|]).
  apply (approx_weaken 0); [lia | apply approx_refl; lra].
Qed.

Lemma indRows_approx (a : nat) (q X : Q) :
  approx a q X ->
  approx (a + 4) (sumPct (map (indSectorRow q) sectorTiltIND)) X.
Proof.
  intros Hq. unfold sectorTiltIND, indSectorRow, mkRow, sumPct.
  cbn [map fold_right pct s_pct]. numR.
  assert (HX : X == X * 55 / 100 + (X * 20 / 100 + (X * 10 / 100
                 + (X * 10 / 100 + (X * 5 / 100 + 0))))) by field.
  apply (approx_ideal _ _ _ _ HX).
  repeat (apply approx_add;
          [eapply approx_weaken; [|approx_derive; reflexivity]; cbn; lia|]).
  apply (approx_weaken 0); [lia | apply approx_refl; lra].
Qed.

Lemma guarded_sum_rnd (x : Q) (r : Row) :
  pct r = x -> 0 <= x -> sumPct (pushIf (Qltb (rnd 0) x) r) == x.
Proof.
  intros Hr Hx. rewrite pushIf_sum, Hr.
  assert (H0 : rnd 0 == 0) by (apply rnd_zero; reflexivity).
  caseQltb (rnd 0) x; lra.
Qed.

(** The sum of the rows pushed from the weights [base]: every guarded [push]
    adds its share, pushed or not. *)
Lemma buildRows_sum_rounded (i : Inputs Q) (base : Weights Q) :
  0 <= fst (regionSplit i) -> 0 <= snd (regionSplit i) ->
  nonneg base ->
  (includeCrypto i = false -> crypto base == 0) ->
  sumPct (buildRows i base) ==
    sumPct (map (usaSectorRow (share rnd (equity base) (fst (regionSplit i))))
              sectorTiltUSA)
    + sumPct (map (indSectorRow (share rnd (equity base) (snd (regionSplit i))))
                sectorTiltIND)
    + share rnd (fixed base) (fst (regionSplit i))
    + share rnd (fixed base) (snd (regionSplit i))
    + (share rnd (gold base) (fst (regionSplit i))
       + share rnd (gold base) (snd (regionSplit i)))
    + share rnd (reits base) (fst (regionSplit i))
    + share rnd (reits base) (snd (regionSplit i))
    + share rnd (cash base) (fst (regionSplit i))
    + share rnd (cash base) (snd (regionSplit i))
    + crypto base.
Proof.
  unfold buildRows, nonneg.
  destruct (regionSplit i) as [usa ind]. cbn [fst snd].
  intros Hu Hi (He & Hf & Hg & Hr & Hc & Hk) Hoff.
  rewrite !sumPct_app. numR.
  repeat match goal with
  | |- context [rnd (rnd (?x * ?p) / rnd 100)] =>
      change (rnd (rnd (x * p) / rnd 100)) with (share rnd x p)
  end.
  rewrite !guarded_sum_rnd by (reflexivity || (apply share_nonneg; assumption)).
  match goal with
  | |- context [sumPct (if Qltb (rnd 0) (gold base) then ?l else [])] =>
      assert (Hgold : sumPct (if Qltb (rnd 0) (gold base) then l else [])
                      == share rnd (gold base) usa + share rnd (gold base) ind)
  end.
  { assert (H0 : rnd 0 == 0) by (apply rnd_zero; reflexivity).
    caseQltb (rnd 0) (gold base).
    - rewrite sumPct_app, !guarded_sum_rnd
        by (reflexivity || (apply share_nonneg; assumption)).
      reflexivity.
    - assert (Hz : gold base == 0) by lra.
      rewrite (share_zero _ usa Hz), (share_zero _ ind Hz).
      change (sumPct []) with 0. lra. }
  rewrite Hgold.
  match goal with
  | |- context [sumPct (pushIf (includeCrypto i && ?c) ?r)] =>
      assert (Hcrypto : sumPct (pushIf (includeCrypto i && c) r) == crypto base)
  end.
  { destruct (includeCrypto i); cbn [andb].
    - apply guarded_sum_rnd; [reflexivity | assumption].
    - change (sumPct (pushIf false _)) with 0. rewrite Hoff; reflexivity. }
  rewrite Hcrypto. ring.
Qed.

(** When every weight of [base] is the weight of [B] up to [a] roundings, the
    rows add up to the sum of [B] up to [a + 7] roundings. *)
Lemma buildRows_approx (a : nat) (i : Inputs Q) (base B : Weights Q) :
  0 <= fst (regionSplit i) -> 0 <= snd (regionSplit i) ->
  fst (regionSplit i) + snd (regionSplit i) == 100 ->
  approx a (equity base) (equity B) -> approx a (fixed base) (fixed B) ->
  approx a (gold base) (gold B) -> approx a (reits base) (reits B) ->
  approx a (cash base) (cash B) -> approx a (crypto base) (crypto B) ->
  (includeCrypto i = false -> crypto base == 0) ->
  approx (a + 7) (sumPct (buildRows i base)) (weightSum B).
Proof.
  intros Hu Hi Hs He Hf Hg Hr Hc Hk Hoff.
  rewrite buildRows_sum_rounded; try assumption.
  2:{ unfold nonneg. repeat split; eapply approx_nonneg; eassumption. }
  destruct (regionSplit i) as [usa ind]. cbn [fst snd] in *.
  assert (Hind : ind == 100 - usa) by lra.
  assert (HB : weightSum B ==
            equity B * usa / 100 + equity B * ind / 100
            + fixed B * usa / 100 + fixed B * ind / 100
            + (gold B * usa / 100 + gold B * ind / 100)
            + reits B * usa / 100 + reits B * ind / 100
            + cash B * usa / 100 + cash B * ind / 100 + crypto B).
  { unfold weightSum. rewrite Hind. field. }
  apply (approx_ideal _ _ _ _ HB).
  repeat apply approx_add;
    (eapply approx_weaken;
     [| first [ apply usaRows_approx; apply share_approx; eassumption
              | apply indRows_approx; apply share_approx; eassumption
              | apply share_approx; eassumption
              | eassumption ] ]; lia).
Qed.

(** *** Consolidation and sorting *)

Lemma accumulate_approx (l : list Row) :
  (forall r, In r l -> 0 <= pct r) ->
  forall (m : nat) (t T : Q),
    approx m t T ->
    approx (m + List.length l)
      (fold_left (fun t r => (t + pct r)%num) l t) (T + sumPct l).
Proof.
  induction l as [|r l IH]; intros Hl m t T Ht; cbn [fold_left List.length].
  - change (sumPct []) with 0. rewrite Nat.add_0_r.
    apply (approx_value _ _ t _ (Qeq_refl _)).
    apply (approx_ideal _ _ _ T); [ring | exact Ht].
  - rewrite sumPct_cons.
    apply (approx_ideal _ _ _ ((T + pct r) + sumPct l)); [ring|].
    replace (m + S (List.length l))%nat with (S m + List.length l)%nat by lia.
    apply IH; [intros; apply Hl; right; assumption|].
    numR. apply approx_rnd. apply approx_add; [exact Ht|].
    apply (approx_weaken 0); [lia|]. apply approx_refl, Hl. left. reflexivity.
Qed.

(** The consolidation keeps the sum of rows that are not negative, up to one
    rounding for each row and one for the literal 0. *)
Lemma consolidate_approx (rows : list Row) :
  (forall r, In r rows -> 0 <= pct r) ->
  approx (S (List.length rows)) (sumPct (consolidate rows)) (sumPct rows).
Proof.
  intros Hpos.
  assert (Htiny : approx (1 + List.length (removed rows))
                    (fst (sweep rows)) (0 + sumPct (removed rows))).
  { rewrite sweep_tiny. apply accumulate_approx.
    - intros r Hr. apply filter_In in Hr. apply Hpos, Hr.
    - numR. apply approx_lit. lra. }
  pose proof (approx_nonneg _ _ _ Htiny) as Ht0.
  pose proof (filter_length_le isTiny rows) as Hlen. fold (removed rows) in Hlen.
  rewrite consolidate_eq, sumPct_app. numR.
  rewrite guarded_sum_rnd by (reflexivity || assumption).
  apply (approx_ideal _ _ _ (sumPct (filter isKept rows)
                              + (0 + sumPct (removed rows)))).
  { pose proof (sumPct_filter_split isTiny rows) as Hsplit.
    unfold removed, isKept. lra. }
  apply approx_add.
  - apply (approx_weaken 0); [lia|]. apply approx_refl, sumPct_nonneg.
    intros r Hr. apply filter_In in Hr. apply Hpos, Hr.
  - eapply approx_weaken; [|exact Htiny]. lia.
Qed.

Lemma buildRows_length (i : Inputs Q) (base : Weights Q) :
  (List.length (buildRows i base) <= 19)%nat.
Proof.
  assert (Hpush : forall (c : bool) (r : Row), (List.length (pushIf c r) <= 1)%nat)
    by (intros [|] r; cbn; lia).
  unfold buildRows. destruct (regionSplit i) as [usa ind].
  match goal with
  | |- context [if ?c then ?l else []] => destruct c
  end; rewrite !length_app, !length_map;
    repeat match goal with
    | |- context [List.length (pushIf ?c ?r)] =>
        let n := fresh "n" in
        pose proof (Hpush c r); set (n := List.length (pushIf c r)) in *;
        clearbody n
    end; cbn [List.length sectorTiltUSA sectorTiltIND]; lia.
Qed.

Lemma buildRows_nonneg_rounded (i : Inputs Q) (base : Weights Q) (r : Row) :
  0 <= fst (regionSplit i) -> 0 <= snd (regionSplit i) -> 0 <= equity base ->
  In r (buildRows i base) -> 0 <= pct r.
Proof.
  intros Hu Hi He Hin.
  assert (H0 : rnd 0 == 0) by (apply rnd_zero; reflexivity).
  in_rows Hin; cbn [fst snd] in *;
    cbn [pct usaSectorRow indSectorRow mkRow s_pct]; numR;
    try (apply andb_prop in G; destruct G as [_ G]);
    try (apply Qltb_lt in G; lra);
    (eapply approx_nonneg; approx_derive; reflexivity).
Qed.

(** *** The weights after the adjustments *)

Lemma adjusted_crypto_off (i : Inputs Q) :
  includeCrypto i = false -> crypto (adjusted i) == 0.
Proof.
  intros Hc. steps. rewrite Hc. cbn [negb andb]. fields. numR.
  apply rnd_zero. reflexivity.
Qed.

(** The crypto weight that leaves the adjustments is at most the cap when
    crypto is included. *)
Lemma adjusted_crypto_capped (i : Inputs Q) :
  includeCrypto i = true -> crypto (adjusted i) <= cryptoCapPct i.
Proof.
  intros Hc. unfold adjusted, cryptoCap. rewrite Hc. cbn [andb]. numR.
  match goal with |- context [Qltb ?a ?b] => caseQltb a b end; fields.
  - lra.
  - assumption.
Qed.

Lemma normalize_crypto_zero (b : Weights Q) :
  crypto b == 0 -> crypto (normalize b) == 0.
Proof.
  intros Hk. unfold normalize. fields. numR. apply rnd_zero.
  assert (H0 : rnd (crypto b / total b) == 0)
    by (apply rnd_zero; rewrite Hk; unfold Qdiv; ring).
  rewrite H0. ring.
Qed.

Lemma idealWeights_sum (b : Weights Q) :
  0 < weightSum b -> weightSum (idealWeights b) == 100.
Proof.
  intros Hpos. unfold idealWeights. unfold weightSum at 1. fields.
  set (W := weightSum b) in *.
  setoid_replace (equity b / W * 100 + fixed b / W * 100 + gold b / W * 100
                  + reits b / W * 100 + cash b / W * 100 + crypto b / W * 100)
    with ((equity b + fixed b + gold b + reits b + cash b + crypto b) / W * 100)
    by (field; lra).
  fold (weightSum b). fold W. field. lra.
Qed.

(** The rows before consolidation add up to 100 up to 16 roundings, and none
    is negative. *)
Lemma rawRows_rounded (i : Inputs Q) :
  valid i ->
  approx 16 (sumPct (rawRows i)) 100 /\
  (forall r, In r (rawRows i) -> 0 <= pct r).
Proof.
  intros Hv. destruct (valid_inv i Hv) as (Hs & Hu & Hi & Hcap & _).
  destruct (adjusted_rounded i Hcap) as (Hnn & Hlo & _).
  assert (Hpos : 0 < weightSum (adjusted i)) by (unfold u in Hlo; lra).
  destruct (normalize_approx (adjusted i) Hnn Hpos)
    as (He & Hf & Hg & Hr & Hc & Hk).
  split.
  - apply (approx_ideal _ _ _ _ (Qeq_sym _ _ (idealWeights_sum _ Hpos))).
    apply (buildRows_approx 9 i (normalize (adjusted i)) (idealWeights (adjusted i)));
      try assumption.
    intros Hoff. apply normalize_crypto_zero, adjusted_crypto_off, Hoff.
  - intros r. apply buildRows_nonneg_rounded; try assumption.
    exact (approx_nonneg _ _ _ He).
Qed.

(** The returned rows add up to 100 up to 36 roundings. *)
Lemma sum_rounded (i : Inputs Q) :
  valid i -> approx 36 (sumPct (autoAllocate i)) 100.
Proof.
  intros Hv. destruct (rawRows_rounded i Hv) as [Hsum Hpos].
  pose proof (consolidate_approx (rawRows i) Hpos) as Hcons.
  pose proof (buildRows_length i (normalize (adjusted i))) as Hlen.
  fold (rawRows i) in Hlen.
  pose proof (approx_trans _ _ _ _ _ Hcons Hsum) as Hall.
  apply (approx_weaken (S (List.length (rawRows i)) + 16)); [lia|].
  apply (approx_value _ _ (sumPct (consolidate (rawRows i)))); [|exact Hall].
  unfold autoAllocate. fold (rawRows i). apply sumPct_perm, sortRows_perm.
Qed.

(** The divisor of the normalization is positive. *)
Lemma total_positive (i : Inputs Q) : valid i -> 0 < total (adjusted i).
Proof.
  intros Hv. destruct (valid_inv i Hv) as (_ & _ & _ & Hcap & _).
  destruct (adjusted_rounded i Hcap) as (Hnn & Hlo & _).
  destruct (total_approx (adjusted i) Hnn) as (_ & Hl & _).
  pose proof (epow_pos 6) as He. unfold u in Hlo.
  assert (0 < weightSum (adjusted i) * epow 6)
    by (apply Qmult_lt_0_compat; [lra | exact He]).
  lra.
Qed.

Lemma adjusted_gold_off (i : Inputs Q) :
  includeGold i = false -> gold (adjusted i) == 0.
Proof.
  intros Hg. steps. rewrite Hg. cbn [negb].
  destruct (includeCrypto i); cbn [negb andb]; fields;
    repeat match goal with |- context [if ?c then _ else _] => destruct c end;
    fields; numR; apply rnd_zero; reflexivity.
Qed.

Lemma normalize_gold_zero (b : Weights Q) :
  gold b == 0 -> gold (normalize b) == 0.
Proof.
  intros Hg. unfold normalize. fields. numR. apply rnd_zero.
  assert (H0 : rnd (gold b / total b) == 0)
    by (apply rnd_zero; rewrite Hg; unfold Qdiv; ring).
  rewrite H0. ring.
Qed.

(** On the profiles with no base crypto weight, a cap that is not negative
    leaves the crypto weight at 0. *)
Lemma adjusted_crypto_low_risk (i : Inputs Q) :
  0 <= cryptoCapPct i ->
  risk i = Conservative \/ risk i = Moderate -> crypto (adjusted i) == 0.
Proof.
  intros Hcap Hr. assert (H0 : rnd 0 == 0) by (apply rnd_zero; reflexivity).
  steps.
  destruct Hr as [-> | ->];
    (destruct (10 <=? horizon i)%Z; [|destruct (horizon i <=? 3)%Z]);
    destruct (includeGold i), (includeCrypto i); fields; numR;
    try match goal with
    | |- context [Qltb ?a ?b] => caseQltb a b
    end; fields; lra.
Qed.

(** *** Order *)

Lemma comparator_pos (a b : Row) :
  Qltb (rnd 0) (comparator a b) = true <-> pct a < pct b.
Proof.
  assert (H0 : rnd 0 == 0) by (apply rnd_zero; reflexivity).
  rewrite Qltb_lt. unfold comparator. numR. rewrite H0, rnd_pos_iff.
  split; intros; lra.
Qed.

Lemma insertRow_sorted (a : Row) (l : list Row) :
  Sorted descending l -> Sorted descending (insertRow a l).
Proof.
  induction l as [|b l IH]; intros Hs; cbn [insertRow].
  - repeat constructor.
  - change (comparator a b >? lit 0)%num with (Qltb (rnd 0) (comparator a b)).
    destruct (Qltb (rnd 0) (comparator a b)) eqn:E.
    + apply comparator_pos in E. inversion Hs as [|? ? Hl Hd]; subst.
      constructor; [apply IH; assumption|].
      destruct l as [|c l]; cbn [insertRow].
      * constructor. unfold descending. lra.
      * change (comparator a c >? lit 0)%num with (Qltb (rnd 0) (comparator a c)).
        destruct (Qltb (rnd 0) (comparator a c)).
        -- inversion Hd; subst. constructor. assumption.
        -- constructor. unfold descending. lra.
    + constructor; [assumption|]. constructor. unfold descending.
      destruct (Qlt_le_dec (pct a) (pct b)) as [Hlt|Hge]; [|exact Hge].
      apply comparator_pos in Hlt. congruence.
Qed.

Lemma sortRows_sorted (l : list Row) : Sorted descending (sortRows l).
Proof.
  induction l as [|a l IH]; cbn [sortRows fold_right].
  - constructor.
  - apply insertRow_sorted. exact IH.
Qed.

(** A returned row is not below the rounded literal 0.4, or it is the
    "Consolidated" row with a positive [pct]. *)
Lemma returned_rows (i : Inputs Q) (r : Row) :
  In r (autoAllocate i) ->
  rnd 0.4 <= pct r \/ (r = consolidatedRow (tinyTotal i) /\ 0 < pct r).
Proof.
  intros Hin. apply autoAllocate_In in Hin.
  destruct Hin as [[_ Hk]|[-> Hpos]].
  - left. unfold isTiny in Hk. numR. apply Qltb_ge in Hk. exact Hk.
  - right. split; [reflexivity|]. numR. apply Qltb_lt in Hpos.
    assert (H0 : rnd 0 == 0) by (apply rnd_zero; reflexivity).
    cbn [pct consolidatedRow mkRow]. lra.
Qed.

(** *** The claims that hold under every such rounding *)

(** C1, amended.  For every preferences record whose two region shares are
    not negative and add up to 100, with the crypto cap in [0,10] and the
    horizon in [1,30], the sum of [pct] over the rows that [autoAllocate]
    returns is 100 within an absolute tolerance of 1e-6, whatever the rounding
    of relative error at most 2^-53. *)
Theorem autoAllocate_sum_100 (i : Inputs Q) :
  valid i -> Qabs (sumPct (autoAllocate i) - 100) <= tolerance.
Proof.
  intros Hv. apply (approx_100_tolerance 36); [lia|].
  apply sum_rounded, Hv.
Qed.

(** C2.  With crypto included, every returned row of asset class "Crypto" has
    a [pct] of at most [cryptoCapPct], within the tolerance 1e-6, whatever the
    rounding of relative error at most 2^-53. *)
Theorem crypto_row_capped (i : Inputs Q) (r : Row) :
  valid i -> includeCrypto i = true ->
  In r (autoAllocate i) -> assetClass r = "Crypto"%string ->
  pct r <= cryptoCapPct i + tolerance.
Proof.
  intros Hv Hon Hin Ha. destruct (valid_inv i Hv) as (_ & _ & _ & Hcap & Hcap10 & _).
  apply autoAllocate_In in Hin. destruct Hin as [[Hin _]|[-> _]]; [|discriminate Ha].
  apply buildRows_facts in Hin. destruct Hin as (_ & _ & Hk).
  destruct (Hk Ha) as (_ & _ & ->).
  destruct (adjusted_rounded i Hcap) as (Hnn & Hlo & _).
  assert (Hpos : 0 < weightSum (adjusted i)) by (unfold u in Hlo; lra).
  destruct (normalize_approx (adjusted i) Hnn Hpos) as (_ & _ & _ & _ & _ & Hn).
  pose proof (adjusted_crypto_capped i Hon) as Hle.
  pose proof (approx_nonneg _ _ _ Hn) as Hn0. destruct Hn as (_ & _ & Hn).
  destruct Hnn as (_ & _ & _ & _ & _ & Hk0).
  set (n := crypto (normalize (adjusted i))) in *.
  set (k := crypto (adjusted i)) in *. set (W := weightSum (adjusted i)) in *.
  set (cap := cryptoCapPct i) in *.
  pose proof (epow_lower 9) as Hb. change (inject_Z (Z.of_nat 9)) with 9 in Hb.
  unfold u in Hb, Hlo. set (E := epow 9) in *.
  assert (H1 : n * (1 - 9 * (1 # 9007199254740992)) <= n * E)
    by (rewrite !(Qmult_comm n); apply Qmult_le_compat_r; assumption).
  assert (H2 : k / W * 100 <= cap / (1 - 4 * (1 # 9007199254740992))).
  { setoid_replace (k / W * 100) with ((k * 100) / W) by (field; lra).
    apply Qle_shift_div_r; [exact Hpos|].
    assert (H3 : cap * (100 * (1 - 4 * (1 # 9007199254740992))) <= cap * W)
      by (rewrite !(Qmult_comm cap); apply Qmult_le_compat_r; assumption).
    setoid_replace (cap / (1 - 4 * (1 # 9007199254740992)) * W)
      with (cap * W * (9007199254740992 # 9007199254740988)) by field.
    lra. }
  setoid_replace (cap / (1 - 4 * (1 # 9007199254740992)))
    with (cap * (9007199254740992 # 9007199254740988)) in H2 by field.
  unfold tolerance. lra.
Qed.

(** C3.  Gold excluded: no returned row is a "Commodity" row.  Crypto
    excluded: no returned row is a "Crypto" row.  This holds for every
    preferences record, valid or not. *)
Theorem opt_out_rows (i : Inputs Q) (r : Row) :
  In r (autoAllocate i) ->
  (includeGold i = false -> assetClass r <> "Commodity"%string) /\
  (includeCrypto i = false -> assetClass r <> "Crypto"%string).
Proof.
  intros Hin. split.
  - intros Hoff Ha. apply autoAllocate_In in Hin.
    destruct Hin as [[Hin _]|[-> _]]; [|discriminate Ha].
    apply buildRows_facts in Hin. destruct Hin as (_ & Hg & _).
    specialize (Hg Ha).
    assert (H0 : rnd 0 == 0) by (apply rnd_zero; reflexivity).
    pose proof (normalize_gold_zero _ (adjusted_gold_off i Hoff)) as Hz.
    numR. apply Qltb_lt in Hg. lra.
  - intros Hoff. exact (crypto_off_no_row i r Hoff Hin).
Qed.

(** C4.  Every [pct] of the output is at least 0, for every preferences
    record, valid or not, and so also when a category weight went negative
    before the normalization. *)
Theorem pct_nonneg (i : Inputs Q) (r : Row) :
  In r (autoAllocate i) -> 0 <= pct r.
Proof.
  intros Hin. destruct (returned_rows i r Hin) as [Hkept | [_ Hpos]].
  - assert (0 <= rnd 0.4) by (apply rnd_nonneg; discriminate). lra.
  - lra.
Qed.


(** C8.  The returned list is in non-increasing order of [pct]: each row's
    [pct] is at least the next row's. *)
Theorem autoAllocate_sorted (i : Inputs Q) :
  Sorted descending (autoAllocate i) /\
  forall (k : nat) (a b : Row),
    nth_error (autoAllocate i) k = Some a ->
    nth_error (autoAllocate i) (S k) = Some b ->
    pct b <= pct a.
Proof.
  assert (Hs : Sorted descending (autoAllocate i))
    by (unfold autoAllocate; apply sortRows_sorted).
  split; [exact Hs | exact (Sorted_neighbours _ Hs)].
Qed.

(** C10.  For a valid preferences record on the Conservative or the Moderate
    profile no returned row is a "Crypto" row, crypto included or not: the
    base crypto weight is 0 and the cap does not raise it. *)
Theorem low_risk_no_crypto_row (i : Inputs Q) (r : Row) :
  valid i -> risk i = Conservative \/ risk i = Moderate ->
  In r (autoAllocate i) -> assetClass r <> "Crypto"%string.
Proof.
  intros Hv Hr Hin Ha. destruct (valid_inv i Hv) as (_ & _ & _ & Hcap & _).
  apply autoAllocate_In in Hin.
  destruct Hin as [[Hin _]|[-> _]]; [|discriminate Ha].
  apply buildRows_facts in Hin. destruct Hin as (_ & _ & Hk).
  destruct (Hk Ha) as (_ & Hpos & _).
  assert (H0 : rnd 0 == 0) by (apply rnd_zero; reflexivity).
  pose proof (normalize_crypto_zero _ (adjusted_crypto_low_risk i Hcap Hr)) as Hz.
  numR. apply Qltb_lt in Hpos. lra.
Qed.

(** C7, amended.  [autoAllocate] has no error path: it returns its rows.  For
    a valid preferences record the divisor of the normalization is positive
    and every returned [pct] lies between 0 and 100, within the tolerance. *)
Theorem valid_total_positive (i : Inputs Q) :
  valid i ->
  0 < total (adjusted i) /\
  forall r, In r (autoAllocate i) -> 0 <= pct r <= 100 + tolerance.
Proof.
  intros Hv. split; [exact (total_positive i Hv)|].
  assert (Hnn : forall x, In x (autoAllocate i) -> 0 <= pct x).
  { intros x Hx. destruct (returned_rows i x Hx) as [Hkept | [_ Hpos]]; [|lra].
    assert (0 <= rnd 0.4) by (apply rnd_nonneg; discriminate). lra. }
  intros r Hin. split; [exact (Hnn r Hin)|].
  assert (Hsum : Qabs (sumPct (autoAllocate i) - 100) <= tolerance)
    by (apply (approx_100_tolerance 36); [lia | apply sum_rounded, Hv]).
  apply Qabs_Qle_condition in Hsum. destruct Hsum as [_ Hsum].
  pose proof (sumPct_In_le (autoAllocate i) r Hnn Hin). lra.
Qed.

End Rounding.

(** ** Exact arithmetic *)

Module Exact.

#[local] Existing Instance exactQ.

Ltac numQ := cbv [add sub mul div ltb lit truthy exactQ roundedQ] in *.

(** No rounding is a rounding of relative error 0. *)
Lemma exact_rounding (x : Q) : Qabs ((fun y : Q => y) x - x) <= u * Qabs x.
Proof.
  cbv beta. setoid_replace (x - x) with 0 by ring. change (Qabs 0) with 0.
  apply Qmult_le_0_compat; [discriminate | apply Qabs_nonneg].
Qed.

(** *** The adjustment steps move weight and keep the sum *)

Lemma profiles_sum (r : Risk) : weightSum (profiles r) == 100.
Proof. destruct r; reflexivity. Qed.

Lemma horizonTilt_sum (i : Inputs Q) (b : Weights Q) :
  weightSum (horizonTilt i b) == weightSum b.
Proof.
  steps. destruct (10 <=? horizon i)%Z; [|destruct (horizon i <=? 3)%Z];
    fields; numQ; lra.
Qed.

Lemma goldOptOut_sum (i : Inputs Q) (b : Weights Q) :
  weightSum (goldOptOut i b) == weightSum b.
Proof. steps. destruct (includeGold i); fields; numQ; lra. Qed.

Lemma cryptoOptOut_sum (i : Inputs Q) (b : Weights Q) :
  weightSum (cryptoOptOut i b) == weightSum b.
Proof. steps. destruct (includeCrypto i); fields; numQ; lra. Qed.

Lemma cryptoCap_sum (i : Inputs Q) (b : Weights Q) :
  weightSum (cryptoCap i b) == weightSum b.
Proof.
  steps. destruct (includeCrypto i && (crypto b >? cryptoCapPct i)%num);
    fields; numQ; lra.
Qed.

(** [base.crypto || 0] is [base.crypto]: the two differ only where the weight
    is 0 already. *)
Lemma total_weightSum (b : Weights Q) : total b == weightSum b.
Proof.
  steps. numQ. destruct (Qeq_bool (crypto b) 0) eqn:E; cbn [negb].
  - apply Qeq_bool_eq in E. lra.
  - reflexivity.
Qed.

Lemma adjusted_weightSum (i : Inputs Q) : weightSum (adjusted i) == 100.
Proof.
  unfold adjusted.
  rewrite cryptoCap_sum, cryptoOptOut_sum, goldOptOut_sum, horizonTilt_sum.
  apply profiles_sum.
Qed.

Lemma adjusted_total (i : Inputs Q) : total (adjusted i) == 100.
Proof. rewrite total_weightSum. apply adjusted_weightSum. Qed.

(** Dividing by a total of 100 and multiplying by 100 changes nothing. *)
Lemma normalize_total_100 (b : Weights Q) :
  total b == 100 ->
  equity (normalize b) == equity b /\ fixed (normalize b) == fixed b /\
  gold (normalize b) == gold b /\ reits (normalize b) == reits b /\
  cash (normalize b) == cash b /\ crypto (normalize b) == crypto b.
Proof.
  intros Ht. unfold normalize. fields. numQ.
  repeat split; rewrite Ht; field.
Qed.

Lemma normalized_eq (i : Inputs Q) :
  equity (normalize (adjusted i)) == equity (adjusted i) /\
  fixed (normalize (adjusted i)) == fixed (adjusted i) /\
  gold (normalize (adjusted i)) == gold (adjusted i) /\
  reits (normalize (adjusted i)) == reits (adjusted i) /\
  cash (normalize (adjusted i)) == cash (adjusted i) /\
  crypto (normalize (adjusted i)) == crypto (adjusted i).
Proof. apply normalize_total_100, adjusted_total. Qed.

Lemma adjusted_nonneg (i : Inputs Q) : 0 <= cryptoCapPct i -> nonneg (adjusted i).
Proof. intros Hcap. exact (proj1 (adjusted_rounded _ exact_rounding i Hcap)). Qed.

(** *** Rows, consolidation and order *)

Lemma usaRows_sum (x : Q) : sumPct (map (usaSectorRow x) sectorTiltUSA) == x.
Proof.
  unfold sectorTiltUSA, usaSectorRow, mkRow, sumPct.
  cbn [map fold_right pct s_pct]. numQ. field.
Qed.

Lemma indRows_sum (x : Q) : sumPct (map (indSectorRow x) sectorTiltIND) == x.
Proof.
  unfold sectorTiltIND, indSectorRow, mkRow, sumPct.
  cbn [map fold_right pct s_pct]. numQ. field.
Qed.

Lemma buildRows_sum (i : Inputs Q) (base : Weights Q) :
  0 <= fst (regionSplit i) -> 0 <= snd (regionSplit i) ->
  fst (regionSplit i) + snd (regionSplit i) == 100 ->
  nonneg base ->
  (includeCrypto i = false -> crypto base == 0) ->
  sumPct (buildRows i base) == weightSum base.
Proof.
  intros Hu Hi Hs Hb Hoff.
  rewrite (buildRows_sum_rounded _ exact_rounding i base Hu Hi Hb Hoff).
  rewrite usaRows_sum, indRows_sum. unfold share, weightSum.
  destruct (regionSplit i) as [usa ind]. cbn [fst snd] in *.
  assert (Hind : ind == 100 - usa) by lra. rewrite Hind. field.
Qed.

(** [tiny] is the sum of the removed rows. *)
Lemma accumulate_sum (l : list Row) (t : Q) :
  fold_left (fun t r => (t + pct r)%num) l t == t + sumPct l.
Proof.
  revert t. induction l as [|r l IH]; intros t; cbn [fold_left].
  - change (sumPct []) with 0. lra.
  - rewrite IH, sumPct_cons. numQ. lra.
Qed.

Lemma tinyTotal_sum (i : Inputs Q) : tinyTotal i == sumPct (removed (rawRows i)).
Proof.
  unfold tinyTotal. rewrite sweep_tiny, accumulate_sum. numQ. lra.
Qed.

(** When no row is negative the consolidation keeps the sum: the removed rows
    come back as one row, or all of them are 0. *)
Lemma consolidate_sum (rows : list Row) :
  (forall r, In r rows -> 0 <= pct r) ->
  sumPct (consolidate rows) == sumPct rows.
Proof.
  intros Hpos. rewrite consolidate_eq, sumPct_app.
  assert (Hrem : 0 <= sumPct (removed rows)).
  { apply sumPct_nonneg. intros r Hr. apply filter_In in Hr. apply Hpos, Hr. }
  assert (Ht : fst (sweep rows) == sumPct (removed rows))
    by (rewrite sweep_tiny, accumulate_sum; numQ; lra).
  pose proof (sumPct_filter_split isTiny rows) as Hsplit.
  fold (removed rows) in Hsplit.
  change (filter (fun r => negb (isTiny r)) rows) with (filter isKept rows) in Hsplit.
  numQ. rewrite guarded_sum; [lra | reflexivity | lra].
Qed.

Lemma rawRows_nonneg (i : Inputs Q) (r : Row) :
  valid i -> In r (rawRows i) -> 0 <= pct r.
Proof.
  intros Hv. exact (proj2 (rawRows_rounded _ exact_rounding i Hv) r).
Qed.

Lemma rawRows_sum (i : Inputs Q) : valid i -> sumPct (rawRows i) == 100.
Proof.
  intros Hv. destruct (valid_inv i Hv) as (Hs & Hu & Hi & Hcap & _).
  destruct (normalized_eq i) as (He & Hf & Hg & Hr & Hc & Hk).
  unfold rawRows. rewrite buildRows_sum; try assumption.
  - unfold weightSum. rewrite He, Hf, Hg, Hr, Hc, Hk. apply adjusted_weightSum.
  - pose proof (adjusted_nonneg i Hcap) as Hnn. unfold nonneg in *.
    rewrite He, Hf, Hg, Hr, Hc, Hk. exact Hnn.
  - intros Hoff. rewrite Hk.
    exact (adjusted_crypto_off _ exact_rounding i Hoff).
Qed.

(** In exact arithmetic the rows add up to 100 with no error at all. *)
Lemma autoAllocate_sum_exact (i : Inputs Q) :
  valid i -> sumPct (autoAllocate i) == 100.
Proof.
  intros Hv. unfold autoAllocate.
  rewrite (sumPct_perm _ _ (sortRows_perm _)).
  fold (rawRows i). rewrite consolidate_sum.
  - apply rawRows_sum, Hv.
  - intros r. apply rawRows_nonneg, Hv.
Qed.

(** The shares of a valid record are not negative for a reason: the rows of
    a negative share are below 0.4 and leave the listing, the "Consolidated"
    row does not take their place, and the remaining rows add up to more than
    100. *)
Lemma negative_share_sum :
  fst (regionSplit negativeShare) + snd (regionSplit negativeShare) == 100 /\
  sumPct (autoAllocate negativeShare) == 150.
Proof. split; vm_compute; reflexivity. Qed.

(** *** The claims of exact arithmetic *)

(** C6, refuted.  No valid preferences record with a short horizon and the
    Aggressive profile has a negative fixed-income weight after the horizon
    tilt: the short horizon adds 10 to the 8 of the profile. *)
Lemma short_aggressive_fixed_not_negative :
  ~ exists i : Inputs Q,
      valid i /\ (horizon i <= 3)%Z /\ risk i = Aggressive /\
      fixed (horizonTilt i (profiles (risk i))) < 0.
Proof.
  intros (i & _ & Hh & Hr & Hneg). rewrite Hr in Hneg.
  unfold horizonTilt, profiles in Hneg.
  destruct (10 <=? horizon i)%Z eqn:E10; [apply Z.leb_le in E10; lia|].
  apply Z.leb_le in Hh. rewrite Hh in Hneg. fields. numQ.
  revert Hneg. apply Qle_not_lt. discriminate.
Qed.

(** C6, amended.  After the horizon tilt no category weight is negative,
    whatever the profile and the horizon; the fixed-income weight is at least
    3, and on the Aggressive profile with a horizon of at most 3 it is 18. *)
Theorem horizonTilt_nonneg (i : Inputs Q) :
  nonneg (horizonTilt i (profiles (risk i))) /\
  3 <= fixed (horizonTilt i (profiles (risk i))) /\
  (risk i = Aggressive -> (horizon i <= 3)%Z ->
   fixed (horizonTilt i (profiles (risk i))) == 18).
Proof.
  unfold horizonTilt, profiles, nonneg.
  destruct (risk i); destruct (10 <=? horizon i)%Z eqn:E10;
    destruct (horizon i <=? 3)%Z eqn:E3; fields; numQ;
    (split; [repeat split; discriminate
            | split; [discriminate | intros Hr Hh; try discriminate Hr]]);
    try reflexivity;
    apply Z.leb_le in E10 || apply Z.leb_gt in E3; lia.
Qed.

(** C9, amended.  In exact arithmetic the six weights add up to 100 after
    every adjustment step, and the divisor of the normalization is 100.  Under
    a rounding of relative error at most 2^-53 the weights of a valid
    preferences record add up to 100 up to the relative error 4 * 2^-53, and
    the divisor is positive. *)
Theorem adjustments_keep_100 :
  (forall i : Inputs Q,
     let b0 := profiles (risk i) in
     let b1 := horizonTilt i b0 in
     let b2 := goldOptOut i b1 in
     let b3 := cryptoOptOut i b2 in
     let b4 := cryptoCap i b3 in
     weightSum b0 == 100 /\ weightSum b1 == 100 /\ weightSum b2 == 100 /\
     weightSum b3 == 100 /\ weightSum b4 == 100 /\
     b4 = adjusted i /\ total (adjusted i) == 100) /\
  (forall rnd : Q -> Q,
     (forall x : Q, Qabs (rnd x - x) <= u * Qabs x) ->
     forall i : Inputs Q, valid i ->
       100 * (1 - 4 * u) <= weightSum (adjusted (num := roundedQ rnd) i)
       /\ weightSum (adjusted (num := roundedQ rnd) i) <= 100 * (1 + 4 * u)
       /\ 0 < total (num := roundedQ rnd) (adjusted (num := roundedQ rnd) i)).
Proof.
  split.
  - intros i. cbv zeta.
    rewrite cryptoCap_sum, cryptoOptOut_sum, goldOptOut_sum, horizonTilt_sum.
    pose proof (profiles_sum (risk i)). pose proof (adjusted_total i).
    repeat split; assumption.
  - intros rnd Hrnd i Hv. destruct (valid_inv i Hv) as (_ & _ & _ & Hcap & _).
    destruct (adjusted_rounded rnd Hrnd i Hcap) as (_ & Hlo & Hhi).
    split; [exact Hlo | split; [exact Hhi | exact (total_positive rnd Hrnd i Hv)]].
Qed.

(** *** The theorems at concrete preferences, in exact arithmetic *)

Lemma opt_out_rows_witness :
  In (firstRow (autoAllocate plainInputs)) (autoAllocate plainInputs) /\
  includeGold plainInputs = false /\ includeCrypto plainInputs = false /\
  assetClass (firstRow (autoAllocate plainInputs)) <> "Commodity"%string /\
  assetClass (firstRow (autoAllocate plainInputs)) <> "Crypto"%string.
Proof.
  assert (Hin : In (firstRow (autoAllocate plainInputs)) (autoAllocate plainInputs))
    by (vm_compute; tauto).
  destruct (opt_out_rows (fun x => x) exact_rounding plainInputs _ Hin) as [Hg Hc].
  split; [exact Hin|]. split; [reflexivity|]. split; [reflexivity|].
  split; [apply Hg | apply Hc]; reflexivity.
Defined.

Lemma pct_nonneg_witness :
  In (firstRow (autoAllocate defaultInputs)) (autoAllocate defaultInputs) /\
  0 <= pct (firstRow (autoAllocate defaultInputs)).
Proof.
  assert (Hin : In (firstRow (autoAllocate defaultInputs)) (autoAllocate defaultInputs))
    by (vm_compute; tauto).
  split; [exact Hin|].
  exact (pct_nonneg (fun x => x) exact_rounding defaultInputs _ Hin).
Defined.

Lemma autoAllocate_sorted_witness :
  Sorted descending (autoAllocate defaultInputs) /\
  forall (k : nat) (a b : Row),
    nth_error (autoAllocate defaultInputs) k = Some a ->
    nth_error (autoAllocate defaultInputs) (S k) = Some b ->
    pct b <= pct a.
Proof. exact (autoAllocate_sorted (fun x => x) exact_rounding defaultInputs). Defined.

Lemma low_risk_no_crypto_row_witness :
  valid moderateWithCrypto /\
  (risk moderateWithCrypto = Conservative \/ risk moderateWithCrypto = Moderate) /\
  In (firstRow (autoAllocate moderateWithCrypto)) (autoAllocate moderateWithCrypto) /\
  assetClass (firstRow (autoAllocate moderateWithCrypto)) <> "Crypto"%string.
Proof.
  assert (Hv : valid moderateWithCrypto) by (vm_compute; reflexivity).
  assert (Hr : risk moderateWithCrypto = Conservative
               \/ risk moderateWithCrypto = Moderate) by (right; reflexivity).
  assert (Hin : In (firstRow (autoAllocate moderateWithCrypto))
                  (autoAllocate moderateWithCrypto)) by (vm_compute; tauto).
  split; [exact Hv|]. split; [exact Hr|]. split; [exact Hin|].
  exact (low_risk_no_crypto_row (fun x => x) exact_rounding
           moderateWithCrypto _ Hv Hr Hin).
Defined.

Lemma valid_total_positive_witness :
  valid shortAggressive /\
  0 < total (adjusted shortAggressive) /\
  forall r, In r (autoAllocate shortAggressive) -> 0 <= pct r <= 100 + tolerance.
Proof.
  split; [vm_compute; reflexivity|].
  apply (valid_total_positive (fun x => x) exact_rounding shortAggressive).
  vm_compute; reflexivity.
Defined.

End Exact.

(** ** Binary64 *)

Module Binary64.

(** *** The rounding of binary64 in the rationals *)

Lemma pow2_pos (s : Z) : 0 < pow2 s.
Proof.
  unfold pow2. destruct (0 <=? s)%Z eqn:E.
  - apply Z.leb_le in E. change 0 with (inject_Z 0). rewrite <- Zlt_Qlt.
    apply Z.pow_pos_nonneg; lia.
  - apply Z.leb_gt in E. apply Qinv_lt_0_compat.
    change 0 with (inject_Z 0). rewrite <- Zlt_Qlt.
    apply Z.pow_pos_nonneg; lia.
Qed.

Lemma roundHalfEven_err (q : Q) : Qabs (inject_Z (roundHalfEven q) - q) <= 1 # 2.
Proof.
  pose proof (Qfloor_le q) as Hl. pose proof (Qlt_floor q) as Hu.
  rewrite inject_Z_plus in Hu. change (inject_Z 1) with 1 in Hu.
  unfold roundHalfEven. apply Qabs_Qle_condition.
  destruct (Qcompare (q - inject_Z (Qfloor q)) (1 # 2)) eqn:E.
  - apply Qeq_alt in E.
    destruct (Z.even (Qfloor q)); rewrite ?inject_Z_plus;
      change (inject_Z 1) with 1; split; lra.
  - apply Qlt_alt in E. split; lra.
  - apply Qgt_alt in E. rewrite inject_Z_plus. change (inject_Z 1) with 1.
    split; lra.
Qed.

Lemma roundPos_err (a : Q) : 0 < a -> Qabs (roundPos a - a) <= u * a.
Proof.
  intros Ha. unfold roundPos. set (p := pow2 _).
  assert (Hp0 : 0 < p) by apply pow2_pos.
  destruct (Qle_bool (inject_Z (2 ^ 52)) (a * p)) eqn:E.
  - apply Qle_bool_iff in E. change (inject_Z (2 ^ 52)) with 4503599627370496 in E.
    pose proof (roundHalfEven_err (a * p)) as Hm.
    apply Qabs_Qle_condition in Hm. destruct Hm as [Hm1 Hm2].
    set (m := inject_Z (roundHalfEven (a * p))) in *.
    assert (Hip : 0 < / p) by (apply Qinv_lt_0_compat; exact Hp0).
    assert (Hr : m / p - a == (m - a * p) * / p) by (field; lra).
    assert (Hq : a == (a * p) * / p) by (field; lra).
    assert (H1 : (m - a * p) * / p <= (1 # 2) * / p)
      by (apply Qmult_le_compat_r; lra).
    assert (H2 : - (1 # 2) * / p <= (m - a * p) * / p)
      by (apply Qmult_le_compat_r; lra).
    assert (H3 : 4503599627370496 * / p <= (a * p) * / p)
      by (apply Qmult_le_compat_r; lra).
    rewrite Hr. apply Qabs_Qle_condition. unfold u.
    set (d := (m - a * p) * / p) in *. set (q := a * p * / p) in *.
    set (ip := / p) in *. split; lra.
  - setoid_replace (a - a) with 0 by ring. change (Qabs 0) with 0.
    unfold u. lra.
Qed.

(** The relative error of [round53] is at most [u]. *)
Lemma round53_err (x : Q) : Qabs (round53 x - x) <= u * Qabs x.
Proof.
  unfold round53. destruct x as [[|n|n] d]; cbn [Qnum].
  - assert (Hx : 0 # d == 0) by reflexivity. rewrite Hx.
    setoid_replace (0 - 0) with 0 by ring. change (Qabs 0) with 0. unfold u. lra.
  - assert (Hx : 0 < Z.pos n # d) by reflexivity.
    rewrite (Qabs_pos (Z.pos n # d)) by lra. apply roundPos_err, Hx.
  - assert (Hx : 0 < - (Z.neg n # d)) by reflexivity.
    rewrite (Qabs_neg (Z.neg n # d)) by lra.
    setoid_replace (- roundPos (- (Z.neg n # d)) - (Z.neg n # d))
      with (- (roundPos (- (Z.neg n # d)) - - (Z.neg n # d))) by ring.
    rewrite Qabs_opp. apply roundPos_err, Hx.
Qed.

(** On these records the engine over the rationals rounded by [round53]
    returns, row by row, the numbers that it returns over the doubles. *)
Lemma round53_agrees_cap199 :
  map (fun r => (instrument r, Qred (pct r)))
    (autoAllocate (num := roundedQ round53) cap199Q)
  = map (fun r => (instrument r, Qred (Q_of_float (pct r))))
      (autoAllocate cap199).
Proof. vm_compute. reflexivity. Qed.

Lemma round53_agrees_smallSlices :
  map (fun r => (instrument r, Qred (pct r)))
    (autoAllocate (num := roundedQ round53) smallSlicesQ)
  = map (fun r => (instrument r, Qred (Q_of_float (pct r))))
      (autoAllocate smallSlicesF).
Proof. vm_compute. reflexivity. Qed.

(** *** The two claims of tolerance at the record with the cap 1.99 *)

Lemma autoAllocate_sum_100_witness :
  valid cap199Q /\
  Qabs (sumPct (autoAllocate (num := roundedQ round53) cap199Q) - 100) <= tolerance.
Proof.
  split; [vm_compute; reflexivity|].
  apply (autoAllocate_sum_100 round53 round53_err cap199Q).
  vm_compute; reflexivity.
Defined.

Lemma crypto_row_capped_witness :
  valid cap199Q /\ includeCrypto cap199Q = true /\
  In (cryptoRow (autoAllocate (num := roundedQ round53) cap199Q))
    (autoAllocate (num := roundedQ round53) cap199Q) /\
  assetClass (cryptoRow (autoAllocate (num := roundedQ round53) cap199Q))
  = "Crypto"%string /\
  pct (cryptoRow (autoAllocate (num := roundedQ round53) cap199Q))
  <= cryptoCapPct cap199Q + tolerance.
Proof.
  assert (Hin : In (cryptoRow (autoAllocate (num := roundedQ round53) cap199Q))
                  (autoAllocate (num := roundedQ round53) cap199Q))
    by (vm_compute; tauto).
  split; [vm_compute; reflexivity|]. split; [reflexivity|].
  split; [exact Hin|]. split; [vm_compute; reflexivity|].
  apply (crypto_row_capped round53 round53_err cap199Q);
    [vm_compute; reflexivity | reflexivity | exact Hin | vm_compute; reflexivity].
Defined.

(** *** The threshold of the consolidation *)


(** At the record [atThreshold] the India cash share is 0.4 in exact
    arithmetic, and the row stays; on doubles it is below the double 0.4, and
    the row goes to the "Consolidated" row.  [round53] gives what the doubles
    give. *)
Lemma row_at_threshold :
  List.length (autoAllocate (num := exactQ) atThreshold) = 19%nat /\
  List.length (autoAllocate (num := roundedQ round53) atThresholdQ) = 18%nat /\
  List.length (autoAllocate atThresholdF) = 18%nat /\
  map (fun r => Qred (Q_of_float (pct r))) (autoAllocate atThresholdF)
  = map (fun r => Qred (pct r))
      (autoAllocate (num := roundedQ round53) atThresholdQ).
Proof. repeat split; vm_compute; reflexivity. Qed.

(** *** The engine on doubles *)

(** C1, refuted on doubles.  The region split 150|-50 adds up to 100, the cap
    is 3 and the horizon 7: the record meets the three conditions that the
    specification lists.  The rows of the negative share are below 0.4 and
    leave the listing, their total is negative, so that no "Consolidated" row
    takes their place, and the rows that remain add up to 150. *)
Lemma negative_share_adds_up_to_150 :
  statedValidF negativeShareF = true /\
  sumExact (autoAllocate negativeShareF) == 150 /\
  tolerance < Qabs (sumExact (autoAllocate negativeShareF) - 100).
Proof. repeat split; vm_compute; reflexivity. Qed.

(** C9, refuted on doubles.  On the valid record with the cap 1.99 the weights
    after the adjustments add up to 100 - 2^-46, not to 100. *)
Lemma total_below_100 :
  validF cap199 = true /\
  total (adjusted cap199) = 0x1.8ffffffffffffp+6%float /\
  PrimFloat.ltb (total (adjusted cap199)) 100 = true.
Proof. repeat split; vm_compute; reflexivity. Qed.

(** C7, refuted on doubles.  With the cap -2^1000 the excess 2 + 2^1000 rounds
    to 2^1000, the weights add up to 0, and the engine returns its rows, every
    [pct] infinite; no error is signalled. *)
Lemma zero_total_gives_infinite_rows :
  total (adjusted hugeNegativeCap) = 0%float /\
  List.length (autoAllocate hugeNegativeCap) = 18%nat /\
  Forall (fun r => pct r = infinity) (autoAllocate hugeNegativeCap).
Proof.
  split; [vm_compute; reflexivity|]. split; [vm_compute; reflexivity|].
  vm_compute. repeat constructor.
Qed.

(** On doubles the "Crypto" row of the record with the cap 1.99 is above the
    cap, by one unit in the last place: the bound holds within tolerance only. *)
Lemma crypto_row_above_cap :
  exists r, In r (autoAllocate cap199) /\ assetClass r = "Crypto"%string /\
            PrimFloat.ltb (cryptoCapPct cap199) (pct r) = true /\
            PrimFloat.ltb (pct r) (cryptoCapPct cap199 + 0x1p-20)%float = true.
Proof.
  exists (nth 15 (autoAllocate cap199) (consolidatedRow 0%float)).
  repeat split; vm_compute; tauto.
Qed.

(** On doubles too the horizon tilt leaves a fixed-income weight of at least
    3, whatever the record. *)
Lemma tilt_fixed_at_least_3 (i : Inputs float) :
  PrimFloat.leb 3 (fixed (horizonTilt i (profiles (risk i)))) = true.
Proof.
  unfold horizonTilt.
  destruct (risk i), (10 <=? horizon i)%Z, (horizon i <=? 3)%Z;
    vm_compute; reflexivity.
Qed.

End Binary64.

(** ** The application around the engine *)

(** *** What holds in every arithmetic *)

Section ApplicationStructure.
Context {N : Type} {num : Number N}.

(** The adjustments read the horizon through its band, and the cap when
    crypto is included. *)
Lemma adjusted_reads (i j : Inputs N) :
  sameBand (horizon i) (horizon j) ->
  risk i = risk j ->
  includeGold i = includeGold j -> includeCrypto i = includeCrypto j ->
  (includeCrypto i = true -> cryptoCapPct i = cryptoCapPct j) ->
  adjusted i = adjusted j.
Proof.
  intros [H10 H3] Hr Hg Hc Hcap.
  assert (E10 : (10 <=? horizon i)%Z = (10 <=? horizon j)%Z).
  { destruct (10 <=? horizon i)%Z eqn:Ei, (10 <=? horizon j)%Z eqn:Ej;
      try reflexivity;
      rewrite ?Z.leb_le, ?Z.leb_gt in Ei, Ej; lia. }
  assert (E3 : (horizon i <=? 3)%Z = (horizon j <=? 3)%Z).
  { destruct (horizon i <=? 3)%Z eqn:Ei, (horizon j <=? 3)%Z eqn:Ej;
      try reflexivity;
      rewrite ?Z.leb_le, ?Z.leb_gt in Ei, Ej; lia. }
  unfold adjusted, cryptoCap, cryptoOptOut, goldOptOut, horizonTilt.
  rewrite <- Hr, <- Hg, <- Hc, <- E10, <- E3.
  destruct (includeCrypto i); cbn [andb negb].
  - rewrite <- (Hcap eq_refl). reflexivity.
  - reflexivity.
Qed.

(** X1.  [autoAllocate] reads the horizon only through the two thresholds of
    the horizon tilt, and the crypto cap only when crypto is included; it
    never reads the budget, the currency or the rebalancing frequency.  Two
    preferences records with horizons in the same band, the same risk
    profile, region split and opt-ins, and the same cap when crypto is
    included, give the same rows, in every arithmetic. *)
Theorem inputs_that_matter (i j : Inputs N) :
  sameBand (horizon i) (horizon j) ->
  risk i = risk j -> regionSplit i = regionSplit j ->
  includeGold i = includeGold j -> includeCrypto i = includeCrypto j ->
  (includeCrypto i = true -> cryptoCapPct i = cryptoCapPct j) ->
  autoAllocate i = autoAllocate j.
Proof.
  intros Hb Hr Hs Hg Hc Hcap.
  assert (Hadj : adjusted i = adjusted j)
    by (apply adjusted_reads; assumption).
  unfold autoAllocate. rewrite Hadj. unfold buildRows. rewrite <- Hs, <- Hc.
  reflexivity.
Qed.

(** **** The names of a pie *)

Lemma Map_set_keys (m : list (string * N)) (k : string) (v : N) :
  map fst (Map_set m k v) =
  if occurs k (map fst m) then map fst m else map fst m ++ [k].
Proof.
  unfold occurs.
  induction m as [|[k' v'] m IH]; cbn [Map_set map fst existsb app].
  - reflexivity.
  - rewrite (String.eqb_sym k k').
    destruct (String.eqb k' k) eqn:E; cbn [orb map fst].
    + apply String.eqb_eq in E. subst. reflexivity.
    + rewrite IH. destruct (existsb (String.eqb k) (map fst m)); reflexivity.
Qed.

Lemma filter_filter {A : Type} (f g : A -> bool) (l : list A) :
  filter f (filter g l) = filter (fun x => g x && f x) l.
Proof.
  induction l as [|x l IH]; cbn [filter]; [reflexivity|].
  destruct (g x); cbn [filter andb]; rewrite IH; reflexivity.
Qed.

(** The keys of the [Map] after the loop: those it had, then the new ones in
    the order of their first row. *)
Lemma pie_keys_fold (key : AllocationRow N -> string)
    (rows : list (AllocationRow N)) :
  forall m : list (string * N),
    map fst (fold_left (pieStep key) rows m) =
    map fst m
    ++ filter (fun k => negb (occurs k (map fst m)))
         (firstOccurrences (map key rows)).
Proof.
  induction rows as [|r rows IH]; intros m;
    cbn [fold_left map firstOccurrences filter].
  - rewrite app_nil_r. reflexivity.
  - rewrite IH. unfold pieStep. rewrite Map_set_keys.
    destruct (occurs (key r) (map fst m)) eqn:E; cbn [negb].
    + f_equal. rewrite filter_filter. apply filter_ext_in. intros k _.
      destruct (String.eqb (key r) k) eqn:Ek; cbn [negb andb]; [|reflexivity].
      apply String.eqb_eq in Ek. subst. rewrite E. reflexivity.
    + rewrite <- app_assoc. cbn [app]. do 2 f_equal.
      rewrite filter_filter. apply filter_ext. intros k.
      unfold occurs. rewrite existsb_app. cbn [existsb].
      rewrite orb_false_r, negb_orb, andb_comm.
      rewrite (String.eqb_sym k (key r)). reflexivity.
Qed.

Lemma firstOccurrences_In (l : list string) (k : string) :
  In k (firstOccurrences l) <-> In k l.
Proof.
  induction l as [|x l IH]; cbn [firstOccurrences In]; [reflexivity|].
  rewrite filter_In, IH, negb_true_iff, String.eqb_neq.
  destruct (String.eqb_spec x k); intuition congruence.
Qed.

Lemma firstOccurrences_NoDup (l : list string) : NoDup (firstOccurrences l).
Proof.
  induction l as [|x l IH]; cbn [firstOccurrences]; constructor.
  - rewrite filter_In, negb_true_iff, String.eqb_neq. intros [_ Hx]. congruence.
  - apply NoDup_filter. exact IH.
Qed.

Lemma pie_names_eq (key : AllocationRow N -> string)
    (rows : list (AllocationRow N)) :
  map (@name N) (pieBy key rows) = firstOccurrences (map key rows).
Proof.
  unfold pieBy, slices. rewrite map_map. cbn [name].
  change (map (fun kv : string * N => fst kv)) with (map (@fst string N)).
  rewrite pie_keys_fold. cbn [map app].
  rewrite <- (filter_ext (fun _ => true)); [|reflexivity].
  induction (firstOccurrences (map key rows)) as [|x l IH]; cbn [filter];
    [reflexivity | rewrite IH; reflexivity].
Qed.

(** X13.  A pie has one slice for each key that occurs among the rows, and
    the slices come in the order in which the keys first occur: the names of
    [pieBy key rows] are the keys of the rows with every repetition after the
    first removed, so no name occurs twice. *)
Theorem pie_names (key : AllocationRow N -> string)
    (rows : list (AllocationRow N)) :
  map (@name N) (pieBy key rows) = firstOccurrences (map key rows) /\
  NoDup (map (@name N) (pieBy key rows)) /\
  (forall k, In k (map (@name N) (pieBy key rows)) <->
             exists r, In r rows /\ key r = k).
Proof.
  rewrite pie_names_eq. split; [reflexivity|]. split.
  - apply firstOccurrences_NoDup.
  - intros k. rewrite firstOccurrences_In, in_map_iff.
    split; intros (r & H1 & H2); exists r; split; assumption.
Qed.

(** The asset class and the country of a returned row. *)
Lemma returned_labels (i : Inputs N) (r : AllocationRow N) :
  In r (autoAllocate i) ->
  In (assetClass r)
     ["Equity"; "Fixed Income"; "Commodity"; "REITs"; "Cash"; "Crypto"]%string /\
  In (country r) ["USA"; "India"; "Global"]%string.
Proof.
  intros Hin. apply autoAllocate_In in Hin.
  destruct Hin as [[Hin _]|[-> _]].
  - unfold rawRows in Hin. in_rows Hin;
      cbn [assetClass country usaSectorRow indSectorRow mkRow In]; tauto.
  - cbn [assetClass country consolidatedRow mkRow In]. tauto.
Qed.

(** X16.  On the rows of [autoAllocate], whatever the preferences and the
    arithmetic, [pieByAsset] has at most six slices, named among Equity,
    Fixed Income, Commodity, REITs, Cash and Crypto, and [pieByRegion] has at
    most three, named among USA, India and Global. *)
Theorem pie_slices_of_rows (i : Inputs N) :
  (forall s, In s (pieByAsset (autoAllocate i)) ->
     In (name s)
        ["Equity"; "Fixed Income"; "Commodity"; "REITs"; "Cash"; "Crypto"]%string) /\
  (forall s, In s (pieByRegion (autoAllocate i)) ->
     In (name s) ["USA"; "India"; "Global"]%string) /\
  (List.length (pieByAsset (autoAllocate i)) <= 6)%nat /\
  (List.length (pieByRegion (autoAllocate i)) <= 3)%nat.
Proof.
  assert (Ha : incl (map (@name N) (pieByAsset (autoAllocate i)))
                 ["Equity"; "Fixed Income"; "Commodity"; "REITs"; "Cash";
                  "Crypto"]%string).
  { intros k Hk. unfold pieByAsset in Hk. rewrite pie_names_eq in Hk.
    apply firstOccurrences_In, in_map_iff in Hk. destruct Hk as (r & <- & Hr).
    apply (returned_labels i r Hr). }
  assert (Hc : incl (map (@name N) (pieByRegion (autoAllocate i)))
                 ["USA"; "India"; "Global"]%string).
  { intros k Hk. unfold pieByRegion in Hk. rewrite pie_names_eq in Hk.
    apply firstOccurrences_In, in_map_iff in Hk. destruct Hk as (r & <- & Hr).
    apply (returned_labels i r Hr). }
  split; [|split; [|split]].
  - intros s Hs. apply Ha, in_map, Hs.
  - intros s Hs. apply Hc, in_map, Hs.
  - rewrite <- (length_map (@name N)).
    refine (NoDup_incl_length _ Ha).
    unfold pieByAsset. rewrite pie_names_eq. apply firstOccurrences_NoDup.
  - rewrite <- (length_map (@name N)).
    refine (NoDup_incl_length _ Hc).
    unfold pieByRegion. rewrite pie_names_eq. apply firstOccurrences_NoDup.
Qed.

End ApplicationStructure.

(** *** The form in the rationals

    The handlers round nothing: their literals are small whole numbers and
    [clamp] returns one of its arguments.  So the state is computed in exact
    arithmetic from the numbers typed, which on doubles are rationals unless
    they are NaN or infinite; the form on doubles themselves comes further
    down. *)

Lemma Math_max_Q (a b : Q) :
  (a <= b /\ Math_max a b = b) \/ (b < a /\ Math_max a b = a).
Proof.
  cbn [Math_max mathQ]. destruct (Qle_bool a b) eqn:E.
  - left. split; [apply Qle_bool_iff, E | reflexivity].
  - right. split; [|reflexivity]. apply Qnot_le_lt. intros H.
    apply Qle_bool_iff in H. congruence.
Qed.

Lemma Math_min_Q (a b : Q) :
  (a <= b /\ Math_min a b = a) \/ (b < a /\ Math_min a b = b).
Proof.
  cbn [Math_min mathQ]. destruct (Qle_bool a b) eqn:E.
  - left. split; [apply Qle_bool_iff, E | reflexivity].
  - right. split; [|reflexivity]. apply Qnot_le_lt. intros H.
    apply Qle_bool_iff in H. congruence.
Qed.

Lemma clamp_bounds (lo v hi : Q) : lo <= hi -> lo <= clamp lo v hi <= hi.
Proof.
  intros Hb. unfold clamp.
  destruct (Math_min_Q hi v) as [[H1 ->]|[H1 ->]];
    [destruct (Math_max_Q lo hi) as [[H2 ->]|[H2 ->]]
    |destruct (Math_max_Q lo v) as [[H2 ->]|[H2 ->]]]; lra.
Qed.

Module Form.

#[local] Existing Instance exactQ.

Lemma valid_intro (s : Inputs Q) :
  fst (regionSplit s) + snd (regionSplit s) == 100 ->
  0 <= fst (regionSplit s) -> 0 <= snd (regionSplit s) ->
  0 <= cryptoCapPct s -> cryptoCapPct s <= 10 ->
  (1 <= horizon s <= 30)%Z -> valid s.
Proof.
  intros. unfold valid, validb.
  rewrite !andb_true_iff, !Qle_bool_iff, Qeq_bool_iff, !Z.leb_le. tauto.
Qed.

(** [clamp] rounds nothing: it returns one of its three arguments. *)
Lemma clamp_choice (lo v hi : Q) :
  clamp lo v hi = lo \/ clamp lo v hi = v \/ clamp lo v hi = hi.
Proof.
  unfold clamp.
  destruct (Math_min_Q hi v) as [[_ ->]|[_ ->]];
    [destruct (Math_max_Q lo hi) as [[_ ->]|[_ ->]]
    |destruct (Math_max_Q lo v) as [[_ ->]|[_ ->]]]; auto.
Qed.

Lemma wholeQ_spec (q : Q) (h : Z) : wholeQ q = Some h -> q == inject_Z h.
Proof.
  unfold wholeQ. destruct (Pos.eqb_spec (Qden (Qred q)) 1) as [E|]; [|discriminate].
  intros Hh. injection Hh as <-. rewrite <- (Qred_correct q) at 1.
  destruct (Qred q) as [n d]. cbn [Qden Qnum] in *. subst d. reflexivity.
Qed.

Lemma initial_wellFormed : wellFormed initialState.
Proof.
  split; [split; discriminate|]. split; [split; discriminate|].
  split; [split; discriminate|]. exists S60_40. reflexivity.
Qed.

(** Every handler keeps the state well formed. *)
Lemma handle_wellFormed (s : State Q) (e : Event) :
  wellFormed s -> wellFormed (handle s e).
Proof.
  intros (Hb & Hh & Hc & Ho).
  destruct e as [v|v|r|o|c|g|k|v|f|]; cbn [handle];
    try (split; [exact Hb | split; [exact Hh | split; [exact Hc | exact Ho]]]).
  - split; [|split; [exact Hh | split; [exact Hc | exact Ho]]].
    cbn [st_budget with_budget]. apply clamp_bounds. discriminate.
  - split; [exact Hb|]. split; [|split; [exact Hc | exact Ho]].
    cbn [st_horizon with_horizon]. apply clamp_bounds. discriminate.
  - split; [exact Hb|]. split; [exact Hh|]. split; [exact Hc|].
    exists o. reflexivity.
  - split; [exact Hb|]. split; [exact Hh|]. split; [|exact Ho].
    cbn [st_cryptoCapPct with_cryptoCapPct]. apply clamp_bounds. discriminate.
  - apply initial_wellFormed.
Qed.

Lemma stateAfter_wellFormed (es : list Event) : wellFormed (stateAfter es).
Proof.
  unfold stateAfter. generalize initial_wellFormed.
  generalize (initialState (N := Q)).
  induction es as [|e es IH]; intros s Hs; cbn [fold_left].
  - exact Hs.
  - apply IH, handle_wellFormed, Hs.
Qed.

(** When the horizons typed are whole, so is the horizon of the state. *)
Lemma handle_whole (s : State Q) (e : Event) :
  wholeEvent e -> wholeQ (st_horizon s) <> None ->
  wholeQ (st_horizon (handle s e)) <> None.
Proof.
  intros He Hs. destruct e as [v|v|r|o|c|g|k|v|f|]; cbn [handle];
    try exact Hs.
  - cbn [st_horizon with_horizon wholeEvent] in *.
    destruct (clamp_choice (lit 1) v (lit 30)) as [-> | [-> | ->]];
      [discriminate | exact He | discriminate].
  - discriminate.
Qed.

Lemma stateAfter_whole (es : list Event) :
  Forall wholeEvent es -> wholeQ (st_horizon (stateAfter es)) <> None.
Proof.
  intros Hes. unfold stateAfter.
  assert (H0 : wholeQ (st_horizon (initialState (N := Q))) <> None)
    by discriminate.
  revert H0. generalize (initialState (N := Q)).
  induction Hes as [|e es He Hes IH]; intros s Hs; cbn [fold_left].
  - exact Hs.
  - apply IH, handle_whole; assumption.
Qed.

(** A well-formed state with a whole horizon is a valid record of the
    engine. *)
Lemma wellFormed_valid (s : State Q) :
  wellFormed s -> wholeQ (st_horizon s) <> None ->
  exists i, inputsOf s = Some i /\ valid i.
Proof.
  intros (Hb & Hh & Hc & o & Ho) Hw. unfold inputsOf.
  destruct (wholeQ (st_horizon s)) as [h|] eqn:E; [|congruence].
  eexists. split; [reflexivity|].
  apply wholeQ_spec in E. rewrite E in Hh.
  apply valid_intro; cbn [regionSplit cryptoCapPct horizon];
    try (rewrite Ho; destruct o; cbn; (reflexivity || discriminate));
    try (apply Hc).
  destruct Hh as [H1 H2].
  change 1 with (inject_Z 1) in H1. change 30 with (inject_Z 30) in H2.
  rewrite <- Zle_Qle in H1, H2. split; assumption.
Qed.

Lemma stateAfter_valid (es : list Event) :
  Forall wholeEvent es ->
  exists i, inputsOf (stateAfter es) = Some i /\ valid i.
Proof.
  intros Hes. apply wellFormed_valid;
    [apply stateAfter_wellFormed | apply stateAfter_whole, Hes].
Qed.

(** X11.  With rational numbers typed in the number fields, so that none is
    NaN or infinite: whatever the user does in the form, starting from the
    initial state, the budget stays in [100, 10^7], the horizon in [1, 30],
    whole or not, the crypto cap in [0, 10], and the region split is one of
    the six options of the select.  When moreover every horizon typed is a
    whole number, the state is a valid preferences record of the engine. *)
Theorem form_keeps_inputs_valid (es : list Event) :
  (100 <= st_budget (stateAfter es) <= 10000000 /\
   1 <= st_horizon (stateAfter es) <= 30 /\
   0 <= st_cryptoCapPct (stateAfter es) <= 10 /\
   exists o : SplitOption, st_regionSplit (stateAfter es) = splitOption o) /\
  (Forall wholeEvent es ->
   exists i, inputsOf (stateAfter es) = Some i /\ valid i).
Proof.
  pose proof (stateAfter_wellFormed es) as Hw. split.
  - destruct Hw as (Hb & Hh & Hc & Ho).
    split; [exact Hb|]. split; [exact Hh|]. split; [exact Hc | exact Ho].
  - intros Hes. apply wellFormed_valid; [exact Hw|].
    apply stateAfter_whole, Hes.
Qed.

End Form.

(** *** Exact arithmetic *)

Module ExactApplication.

#[local] Existing Instance exactQ.

Ltac numQ := cbv [add sub mul div ltb lit truthy exactQ roundedQ] in *.

(** **** The weights *)

(** X2.  What each preference does to the weights of the profile, in exact
    arithmetic and for every record.  Gold is the profile's gold, or 0 when
    gold is excluded.  Crypto is 0 when crypto is excluded, and else the cap
    when the cap is below the profile's crypto, the profile's crypto
    otherwise.  REITs and cash stay as the profile has them.  Equity takes the
    tilt of the horizon (5 from 10 years on, -10 up to 3 years, 0 between)
    and the crypto weight that was removed; fixed income gives the tilt and
    takes the gold weight that was removed. *)
Theorem adjusted_weights (i : Inputs Q) :
  equity (adjusted i)
  == equity (profiles (risk i)) + tilt (horizon i)
     + (crypto (profiles (risk i)) - crypto (adjusted i)) /\
  fixed (adjusted i)
  == fixed (profiles (risk i)) - tilt (horizon i)
     + (gold (profiles (risk i)) - gold (adjusted i)) /\
  gold (adjusted i) == (if includeGold i then gold (profiles (risk i)) else 0) /\
  reits (adjusted i) == reits (profiles (risk i)) /\
  cash (adjusted i) == cash (profiles (risk i)) /\
  crypto (adjusted i)
  == (if includeCrypto i
      then if Qltb (cryptoCapPct i) (crypto (profiles (risk i)))
           then cryptoCapPct i else crypto (profiles (risk i))
      else 0).
Proof.
  unfold tilt. steps.
  destruct (risk i);
    (destruct (10 <=? horizon i)%Z; [|destruct (horizon i <=? 3)%Z]);
    destruct (includeGold i), (includeCrypto i); fields; numQ;
    try match goal with
    | |- context [Qltb ?a ?b] => caseQltb a b
    end; fields; repeat split; lra.
Qed.

Lemma adjusted_crypto_value (i : Inputs Q) :
  includeCrypto i = true ->
  (risk i = ModerateAggressive \/ risk i = Aggressive) ->
  (cryptoCapPct i <= 2 -> crypto (adjusted i) == cryptoCapPct i) /\
  (2 <= cryptoCapPct i -> crypto (adjusted i) == 2).
Proof.
  intros Hon Hr. steps. rewrite Hon.
  destruct Hr as [-> | ->];
    (destruct (10 <=? horizon i)%Z; [|destruct (horizon i <=? 3)%Z]);
    destruct (includeGold i); fields; numQ;
    match goal with
    | |- context [Qltb ?a ?b] => caseQltb a b
    end; fields; split; intros; lra.
Qed.

Lemma adjusted_equity_25 (i : Inputs Q) :
  0 <= cryptoCapPct i -> 25 <= equity (adjusted i).
Proof.
  destruct i as [bud h rk [usa ind] cur g c cap rb]. fields. intros Hcap.
  steps. fields.
  destruct rk; (destruct (10 <=? h)%Z; [|destruct (h <=? 3)%Z]);
    destruct g, c; fields; numQ;
    match goal with
    | |- context [Qltb ?a ?b] => caseQltb a b
    | _ => idtac
    end; fields; lra.
Qed.

(** The normalized weights of a valid record are not negative, and the crypto
    weight is 0 when crypto is excluded. *)
Lemma normalized_facts (i : Inputs Q) :
  valid i ->
  nonneg (normalize (adjusted i)) /\
  (includeCrypto i = false -> crypto (normalize (adjusted i)) == 0).
Proof.
  intros Hv. destruct (valid_inv i Hv) as (_ & _ & _ & Hcap & _).
  destruct (Exact.normalized_eq i) as (He & Hf & Hg & Hr & Hc & Hk).
  split.
  - pose proof (Exact.adjusted_nonneg i Hcap) as Hnn. unfold nonneg in *.
    rewrite He, Hf, Hg, Hr, Hc, Hk. exact Hnn.
  - intros Hoff. rewrite Hk.
    exact (adjusted_crypto_off _ Exact.exact_rounding i Hoff).
Qed.

(** **** The crypto row *)

Lemma crypto_row_In (i : Inputs Q) (base : Weights Q) :
  includeCrypto i = true -> 0 < crypto base ->
  In (mkRow "Crypto" "BTC/ETH Spot ETF Blend" "Global" (crypto base)
        (12, 20) VeryHigh "Speculative convexity with cap")
     (buildRows i base).
Proof.
  intros Hon Hpos. unfold buildRows. destruct (regionSplit i) as [usa ind].
  rewrite !in_app_iff. do 9 right. rewrite Hon. numQ.
  apply Qltb_lt in Hpos. rewrite Hpos. left. reflexivity.
Qed.

(** X3.  In exact arithmetic and for a valid record, a "Crypto" row is
    returned exactly when crypto is included, the profile is
    Moderate-Aggressive or Aggressive, and the cap is at least 0.4; its [pct]
    is the cap when the cap is at most 2, and 2 when the cap is 2 or more: the
    cap lowers the crypto weight of the profile and never raises it. *)
Theorem crypto_row_value (i : Inputs Q) :
  valid i ->
  ((exists r, In r (autoAllocate i) /\ assetClass r = "Crypto"%string) <->
   includeCrypto i = true /\
   (risk i = ModerateAggressive \/ risk i = Aggressive) /\
   0.4 <= cryptoCapPct i) /\
  (forall r, In r (autoAllocate i) -> assetClass r = "Crypto"%string ->
     (cryptoCapPct i <= 2 -> pct r == cryptoCapPct i) /\
     (2 <= cryptoCapPct i -> pct r == 2)).
Proof.
  intros Hv. destruct (valid_inv i Hv) as (_ & _ & _ & Hcap & _).
  destruct (Exact.normalized_eq i) as (_ & _ & _ & _ & _ & Hk).
  assert (Hrow : forall r, In r (autoAllocate i) ->
            assetClass r = "Crypto"%string ->
            includeCrypto i = true /\
            (risk i = ModerateAggressive \/ risk i = Aggressive) /\
            0.4 <= pct r /\ pct r == crypto (adjusted i)).
  { intros r Hin Ha. apply autoAllocate_In in Hin.
    destruct Hin as [[Hin Hkept]|[-> _]]; [|discriminate Ha].
    apply buildRows_facts in Hin. destruct Hin as (_ & _ & Hc).
    destruct (Hc Ha) as (Hon & Hpos & Hp).
    split; [exact Hon|]. rewrite Hp, Hk.
    split; [|split; [|reflexivity]].
    - destruct (risk i) eqn:Er; auto; exfalso;
        pose proof (adjusted_crypto_low_risk _ Exact.exact_rounding i Hcap) as Hz;
        rewrite Er in Hz;
        (assert (Hz' : crypto (adjusted i) == 0) by (apply Hz; auto));
        numQ; apply Qltb_lt in Hpos; lra.
    - unfold isTiny in Hkept. rewrite Hp in Hkept. numQ.
      apply Qltb_ge in Hkept. lra. }
  split.
  - split.
    + intros (r & Hin & Ha). destruct (Hrow r Hin Ha) as (Hon & Hr & Hge & Hp).
      split; [exact Hon|]. split; [exact Hr|].
      destruct (adjusted_crypto_value i Hon Hr) as [Hlow Hhigh].
      destruct (Qlt_le_dec (cryptoCapPct i) 2) as [Hlt|Hge2].
      * rewrite <- (Hlow (Qlt_le_weak _ _ Hlt)). lra.
      * lra.
    + intros (Hon & Hr & Hge).
      destruct (adjusted_crypto_value i Hon Hr) as [Hlow Hhigh].
      assert (Hval : 0.4 <= crypto (normalize (adjusted i))).
      { rewrite Hk. destruct (Qlt_le_dec (cryptoCapPct i) 2) as [Hlt|Hge2].
        - rewrite (Hlow (Qlt_le_weak _ _ Hlt)). exact Hge.
        - rewrite (Hhigh Hge2). discriminate. }
      exists (mkRow "Crypto" "BTC/ETH Spot ETF Blend" "Global"
                (crypto (normalize (adjusted i))) (12, 20) VeryHigh
                "Speculative convexity with cap").
      split; [|reflexivity].
      apply autoAllocate_In. left. split.
      * apply crypto_row_In; [exact Hon | lra].
      * unfold isTiny. cbn [pct mkRow]. numQ. apply Qltb_ge. exact Hval.
  - intros r Hin Ha. destruct (Hrow r Hin Ha) as (Hon & Hr & _ & Hp).
    destruct (adjusted_crypto_value i Hon Hr) as [Hlow Hhigh].
    split; intros Hc; rewrite Hp; auto.
Qed.

(** **** The rows by asset class and by region *)

Lemma filter_pushIf (f : Row -> bool) (c : bool) (r : Row) :
  filter f (pushIf c r) = pushIf (c && f r) r.
Proof. destruct c; cbn [pushIf filter andb]; [destruct (f r)|]; reflexivity. Qed.

Lemma share_nonneg_exact (x p : Q) : 0 <= x -> 0 <= p -> 0 <= x * p / 100.
Proof.
  intros Hx Hp. apply Qle_shift_div_l; [reflexivity|].
  setoid_replace (0 * 100) with 0 by ring. apply Qmult_le_0_compat; assumption.
Qed.

(** Selects the rows of [buildRows] that pass a test on a text field: the
    test is decided on every [push] of the source. *)
Ltac sum_where :=
  unfold sumWhere, buildRows;
  match goal with |- context [regionSplit ?i] =>
    destruct (regionSplit i) as [usa ind] end;
  cbn [fst snd] in *;
  rewrite !filter_app;
  match goal with
  | |- context [filter ?f (if ?g then ?l else [])] =>
      replace (filter f (if g then l else []))
        with (if g then filter f l else []) by (destruct g; reflexivity)
  end;
  rewrite ?filter_app, !filter_pushIf;
  cbn [map sectorTiltUSA sectorTiltIND filter usaSectorRow indSectorRow mkRow
       assetClass country s_name s_pct s_instr String.eqb Ascii.eqb Bool.eqb
       andb];
  rewrite ?andb_true_r, ?andb_false_r;
  cbn [pushIf app].

(** Adds up the selected rows: a guarded [push] adds its share, pushed or
    not, since a share that is not pushed is 0. *)
Ltac sum_rows i base :=
  numQ;
  assert (Hk0 : includeCrypto i = false -> crypto base <= 0)
    by (let Hx := fresh in intros Hx;
        match goal with H : includeCrypto i = false -> _ == 0 |- _ =>
          rewrite (H Hx); discriminate end);
  destruct (includeCrypto i); cbn [andb pushIf];
  caseQltb 0 (gold base); cbn [app];
  repeat (rewrite sumPct_cons || rewrite sumPct_app);
  rewrite ?guarded_sum
    by (reflexivity || assumption || (apply share_nonneg_exact; assumption));
  unfold usaSectorRow, indSectorRow, mkRow, sumPct;
  cbn [fold_right pct s_pct]; numQ;
  try specialize (Hk0 eq_refl).

Lemma buildRows_by_class (i : Inputs Q) (base : Weights Q) :
  0 <= fst (regionSplit i) -> 0 <= snd (regionSplit i) ->
  fst (regionSplit i) + snd (regionSplit i) == 100 ->
  nonneg base ->
  (includeCrypto i = false -> crypto base == 0) ->
  sumWhere (@assetClass Q) "Equity" (buildRows i base) == equity base /\
  sumWhere (@assetClass Q) "Fixed Income" (buildRows i base) == fixed base /\
  sumWhere (@assetClass Q) "Commodity" (buildRows i base) == gold base /\
  sumWhere (@assetClass Q) "REITs" (buildRows i base) == reits base /\
  sumWhere (@assetClass Q) "Cash" (buildRows i base) == cash base /\
  sumWhere (@assetClass Q) "Crypto" (buildRows i base) == crypto base.
Proof.
  intros Hu Hi Hs (He & Hf & Hg & Hr & Hc & Hk) Hoff.
  repeat match goal with |- _ /\ _ => split end.
  all: sum_where.
  all: assert (Hind : ind == 100 - usa) by lra.
  all: sum_rows i base; rewrite ?Hind.
  all: try (field; fail).
  all: lra.
Qed.

Lemma buildRows_by_region (i : Inputs Q) (base : Weights Q) :
  0 <= fst (regionSplit i) -> 0 <= snd (regionSplit i) ->
  nonneg base ->
  (includeCrypto i = false -> crypto base == 0) ->
  sumWhere (@country Q) "USA" (buildRows i base)
  == (equity base + fixed base + reits base + cash base)
     * fst (regionSplit i) / 100 /\
  sumWhere (@country Q) "India" (buildRows i base)
  == (equity base + fixed base + gold base + reits base + cash base)
     * snd (regionSplit i) / 100 /\
  sumWhere (@country Q) "Global" (buildRows i base)
  == gold base * fst (regionSplit i) / 100 + crypto base.
Proof.
  intros Hu Hi (He & Hf & Hg & Hr & Hc & Hk) Hoff.
  repeat match goal with |- _ /\ _ => split end.
  all: sum_where.
  all: sum_rows i base.
  all: try (assert (Hz : gold base == 0) by lra; rewrite Hz).
  all: try (assert (Hz' : crypto base == 0) by lra; rewrite Hz').
  all: field.
Qed.

(** X4.  In exact arithmetic and for a valid record, the rows that are
    pushed before the consolidation carry, class by class, the weight of the
    category after the adjustments: the split into regions and sectors loses
    nothing and moves nothing between the classes. *)
Theorem rows_by_asset_class (i : Inputs Q) :
  valid i ->
  sumWhere (@assetClass Q) "Equity" (rawRows i) == equity (adjusted i) /\
  sumWhere (@assetClass Q) "Fixed Income" (rawRows i) == fixed (adjusted i) /\
  sumWhere (@assetClass Q) "Commodity" (rawRows i) == gold (adjusted i) /\
  sumWhere (@assetClass Q) "REITs" (rawRows i) == reits (adjusted i) /\
  sumWhere (@assetClass Q) "Cash" (rawRows i) == cash (adjusted i) /\
  sumWhere (@assetClass Q) "Crypto" (rawRows i) == crypto (adjusted i).
Proof.
  intros Hv. destruct (valid_inv i Hv) as (Hs & Hu & Hi & _).
  destruct (normalized_facts i Hv) as [Hnn Hoff].
  destruct (Exact.normalized_eq i) as (He & Hf & Hg & Hr & Hc & Hk).
  destruct (buildRows_by_class i _ Hu Hi Hs Hnn Hoff)
    as (H1 & H2 & H3 & H4 & H5 & H6).
  unfold rawRows. rewrite H1, H2, H3, H4, H5, H6.
  repeat split; assumption.
Qed.

(** X5.  In exact arithmetic and for a valid record, the rows that are
    pushed before the consolidation and labelled India carry the India share
    of everything but crypto.  The rows labelled USA carry the USA share of
    everything but crypto and gold: the USA share of gold is labelled Global,
    as the crypto row is. *)
Theorem rows_by_region (i : Inputs Q) :
  valid i ->
  sumWhere (@country Q) "USA" (rawRows i)
  == fst (regionSplit i) * (100 - gold (adjusted i) - crypto (adjusted i)) / 100 /\
  sumWhere (@country Q) "India" (rawRows i)
  == snd (regionSplit i) * (100 - crypto (adjusted i)) / 100 /\
  sumWhere (@country Q) "Global" (rawRows i)
  == gold (adjusted i) * fst (regionSplit i) / 100 + crypto (adjusted i).
Proof.
  intros Hv. destruct (valid_inv i Hv) as (Hs & Hu & Hi & _).
  destruct (normalized_facts i Hv) as [Hnn Hoff].
  destruct (Exact.normalized_eq i) as (He & Hf & Hg & Hr & Hc & Hk).
  destruct (buildRows_by_region i _ Hu Hi Hnn Hoff) as (H1 & H2 & H3).
  pose proof (Exact.adjusted_weightSum i) as Hw. unfold weightSum in Hw.
  unfold rawRows. rewrite H1, H2, H3, He, Hf, Hg, Hr, Hc, Hk.
  assert (E1 : equity (adjusted i) + fixed (adjusted i) + reits (adjusted i)
               + cash (adjusted i)
               == 100 - gold (adjusted i) - crypto (adjusted i)) by lra.
  assert (E2 : equity (adjusted i) + fixed (adjusted i) + gold (adjusted i)
               + reits (adjusted i) + cash (adjusted i)
               == 100 - crypto (adjusted i)) by lra.
  rewrite E1, E2. repeat split; field.
Qed.

(** **** The number of rows *)

Lemma broad_market_kept (e p : Q) :
  25 <= e -> 50 <= p -> 0.4 <= e * p / 100 * 55 / 100.
Proof.
  intros He Hp.
  assert (H : 25 * 50 <= e * p)
    by (apply Qmult_le_compat_nonneg; split; (discriminate || assumption)).
  setoid_replace (e * p / 100 * 55 / 100) with (e * p * (55 # 10000)) by field.
  lra.
Qed.

(** X6.  In exact arithmetic and for a valid record, [autoAllocate] returns
    at least one row and at most 19: the broad-market row of the larger
    region is never consolidated, and the "Consolidated" row comes only in
    place of a row that it replaces. *)
Theorem row_count (i : Inputs Q) :
  valid i -> (1 <= List.length (autoAllocate i) <= 19)%nat.
Proof.
  intros Hv. destruct (valid_inv i Hv) as (Hs & Hu & Hi & Hcap & _).
  destruct (Exact.normalized_eq i) as (He & _).
  pose proof (adjusted_equity_25 i Hcap) as H25.
  assert (Hlen : List.length (autoAllocate i)
                 = List.length (consolidate (rawRows i)))
    by (apply Permutation_length, sortRows_perm).
  split.
  - assert (Hex : exists r, In r (autoAllocate i)).
    { destruct (Qlt_le_dec (fst (regionSplit i)) 50) as [Hlt|Hge].
      - exists (indSectorRow
                  (equity (normalize (adjusted i)) * snd (regionSplit i) / 100)
                  {| s_name := "Broad Market"; s_pct := 55;
                     s_instr := "Nifty 50 ETF" |}).
        apply autoAllocate_In. left. split.
        + unfold rawRows, buildRows. destruct (regionSplit i) as [usa ind].
          rewrite !in_app_iff. right. left. left. reflexivity.
        + unfold isTiny, indSectorRow. cbn [pct mkRow s_pct]. numQ.
          apply Qltb_ge. apply broad_market_kept; lra.
      - exists (usaSectorRow
                  (equity (normalize (adjusted i)) * fst (regionSplit i) / 100)
                  {| s_name := "Broad Market"; s_pct := 55;
                     s_instr := "S&P 500 ETF (VOO)" |}).
        apply autoAllocate_In. left. split.
        + unfold rawRows, buildRows. destruct (regionSplit i) as [usa ind].
          rewrite !in_app_iff. left. left. reflexivity.
        + unfold isTiny, usaSectorRow. cbn [pct mkRow s_pct]. numQ.
          apply Qltb_ge. apply broad_market_kept; lra. }
    destruct Hex as (r & Hr). destruct (autoAllocate i); [destruct Hr|].
    cbn [List.length]. lia.
  - rewrite Hlen, consolidate_eq, length_app.
    assert (H19 : (List.length (rawRows i) <= 19)%nat)
      by exact (buildRows_length (fun x => x) i (normalize (adjusted i))).
    pose proof (filter_length (@isTiny Q _) (rawRows i)) as Hsplit.
    change (filter (fun x => negb (isTiny x)) (rawRows i))
      with (filter isKept (rawRows i)) in Hsplit.
    fold (removed (rawRows i)) in Hsplit.
    pose proof (Exact.tinyTotal_sum i) as Ht. unfold tinyTotal in Ht.
    unfold pushIf.
    destruct (ltb (lit 0) (fst (sweep (rawRows i)))) eqn:E;
      cbn [List.length]; [|lia].
    change (Qltb 0 (fst (sweep (rawRows i))) = true) in E. apply Qltb_lt in E.
    destruct (removed (rawRows i)) as [|x l] eqn:Erem.
    + change (sumPct []) with 0 in Ht. lra.
    + cbn [List.length] in Hsplit. lia.
Qed.

(** **** The values of a pie *)

Lemma Map_get_set (m : list (string * Q)) (k k' : string) (v : Q) :
  Map_get (Map_set m k v) k' = if String.eqb k k' then Some v else Map_get m k'.
Proof.
  induction m as [|[k0 v0] m IH]; cbn [Map_set Map_get].
  - destruct (String.eqb k k'); reflexivity.
  - destruct (String.eqb k0 k) eqn:E0; cbn [Map_get].
    + apply String.eqb_eq in E0. subst k0.
      destruct (String.eqb k k'); reflexivity.
    + destruct (String.eqb k0 k') eqn:E1.
      * apply String.eqb_eq in E1. subst k0.
        rewrite String.eqb_sym, E0. reflexivity.
      * exact IH.
Qed.

Lemma pieStep_weight (key : Row -> string) (m : list (string * Q)) (r : Row)
    (k : string) :
  weightOf (pieStep key m r) k
  == weightOf m k + (if String.eqb (key r) k then pct r else 0).
Proof.
  unfold weightOf, pieStep. rewrite Map_get_set.
  destruct (String.eqb (key r) k) eqn:E.
  - apply String.eqb_eq in E. subst k. numQ.
    destruct (Map_get m (key r)) as [v|]; [|reflexivity].
    destruct (Qeq_bool v 0) eqn:Ev; cbn [negb]; [|reflexivity].
    apply Qeq_bool_eq in Ev. rewrite Ev. reflexivity.
  - ring.
Qed.

Lemma pie_weight_fold (key : Row -> string) (rows : list Row) (k : string) :
  forall m : list (string * Q),
    weightOf (fold_left (pieStep key) rows m) k
    == weightOf m k + sumWhere key k rows.
Proof.
  induction rows as [|r rows IH]; intros m; cbn [fold_left].
  - unfold sumWhere. cbn [filter]. change (sumPct []) with 0. ring.
  - rewrite IH, pieStep_weight. unfold sumWhere. cbn [filter].
    destruct (String.eqb (key r) k); rewrite ?sumPct_cons; ring.
Qed.

Lemma Map_get_In (m : list (string * Q)) (k : string) (v : Q) :
  NoDup (map fst m) -> In (k, v) m -> Map_get m k = Some v.
Proof.
  induction m as [|[k0 v0] m IH]; intros Hnd Hin; [destruct Hin|].
  cbn [map fst] in Hnd. inversion Hnd as [|? ? Hno Hnd']; subst.
  cbn [Map_get]. destruct Hin as [Heq|Hin].
  - injection Heq as -> ->. rewrite String.eqb_refl. reflexivity.
  - destruct (String.eqb k0 k) eqn:E.
    + apply String.eqb_eq in E. subst k0. exfalso. apply Hno.
      apply (in_map fst) in Hin. exact Hin.
    + apply IH; assumption.
Qed.

(** X14.  In exact arithmetic the value of a slice of a pie is the sum of
    [pct] over the rows that have the name of the slice as their key,
    whatever the rows. *)
Theorem pie_values (key : Row -> string) (rows : list Row) (s : Slice Q) :
  In s (pieBy key rows) -> value s == sumWhere key (name s) rows.
Proof.
  unfold pieBy, slices. intros Hin. apply in_map_iff in Hin.
  destruct Hin as ([k v] & <- & Hin). cbn [name value fst snd].
  assert (Hnd : NoDup (map fst (fold_left (pieStep key) rows []))).
  { rewrite pie_keys_fold. cbn [app map]. apply NoDup_filter.
    apply firstOccurrences_NoDup. }
  pose proof (Map_get_In _ k v Hnd Hin) as Hget.
  pose proof (pie_weight_fold key rows k []) as Hw.
  unfold weightOf in Hw. rewrite Hget in Hw. cbn [Map_get] in Hw. lra.
Qed.

End ExactApplication.

(** *** Rounded arithmetic *)

(** Within [k] roundings of 100, for [k] up to 60, is within the tolerance. *)
Lemma approx_100_tolerance_60 (k : nat) (x : Q) :
  (k <= 60)%nat -> approx k x 100 -> Qabs (x - 100) <= tolerance.
Proof.
  intros Hk Hx. apply (approx_weaken k 60 _ _ Hk) in Hx.
  pose proof (approx_nonneg _ _ _ Hx) as Hx0. destruct Hx as (_ & Hl & Hu).
  pose proof (epow_lower 60) as Hb. pose proof (epow_le_1 60) as H1.
  change (inject_Z (Z.of_nat 60)) with 60 in Hb. unfold u in Hb.
  set (E := epow 60) in *.
  assert (x * (1 - 60 * (1 # 9007199254740992)) <= x * E)
    by (rewrite !(Qmult_comm x); apply Qmult_le_compat_r; assumption).
  apply Qabs_Qle_condition. unfold tolerance. split; lra.
Qed.

Lemma sumValue_slices (m : list (string * Q)) : sumValue (slices m) = sumAssoc m.
Proof.
  unfold sumValue, sumAssoc, slices.
  induction m as [|kv m IH]; cbn [map fold_right].
  - reflexivity.
  - rewrite IH. reflexivity.
Qed.

Lemma sumAssoc_set (m : list (string * Q)) (k : string) (v : Q) :
  sumAssoc (Map_set m k v) == sumAssoc m - weightOf m k + v.
Proof.
  unfold weightOf, sumAssoc.
  induction m as [|[k0 v0] m IH]; cbn [Map_set Map_get fold_right snd].
  - ring.
  - destruct (String.eqb k0 k); cbn [fold_right snd].
    + ring.
    + rewrite IH. ring.
Qed.

Lemma weightOf_bounds (m : list (string * Q)) (k : string) :
  Forall (fun kv => 0 <= snd kv) m -> 0 <= weightOf m k <= sumAssoc m.
Proof.
  unfold weightOf, sumAssoc.
  induction 1 as [|[k0 v0] m Hv Hm IH]; cbn [Map_get fold_right snd] in *.
  - split; apply Qle_refl.
  - destruct (String.eqb k0 k).
    + assert (0 <= fold_right (fun kv t => snd kv + t) 0 m) by lra. lra.
    + lra.
Qed.

Lemma Map_set_nonneg (m : list (string * Q)) (k : string) (v : Q) :
  0 <= v -> Forall (fun kv => 0 <= snd kv) m ->
  Forall (fun kv => 0 <= snd kv) (Map_set m k v).
Proof.
  intros Hv. induction 1 as [|[k0 v0] m H0 Hm IH]; cbn [Map_set].
  - repeat constructor. exact Hv.
  - destruct (String.eqb k0 k); constructor; assumption.
Qed.

Lemma descending_trans : Relations_1.Transitive descending.
Proof. intros a b c Hab Hbc. unfold descending in *. lra. Qed.

Lemma StronglySorted_nth (l : list Row) :
  StronglySorted descending l ->
  forall (k j : nat) (a b : Row),
    (k < j)%nat -> nth_error l k = Some a -> nth_error l j = Some b ->
    pct b <= pct a.
Proof.
  induction 1 as [|x l Hs IH Hall]; intros k j a b Hkj Ha Hb.
  - destruct k; discriminate Ha.
  - destruct j as [|j]; [lia|]. cbn [nth_error] in Hb. destruct k as [|k].
    + cbn [nth_error] in Ha. injection Ha as <-.
      apply nth_error_In in Hb. rewrite Forall_forall in Hall.
      exact (Hall b Hb).
    + cbn [nth_error] in Ha. apply (IH k j); [lia | assumption | assumption].
Qed.

Section RoundedApplication.

Variable rnd : Q -> Q.
Hypothesis rnd_err : forall x : Q, Qabs (rnd x - x) <= u * Qabs x.

#[local] Hint Extern 0 (Number Q) => exact (roundedN rnd) : typeclass_instances.

Ltac numR := cbv [add sub mul div ltb lit truthy roundedN roundedQ] in *.

(** **** The pies add up *)

(** One step of the loop adds the [pct] of the row to the sum of the values,
    up to one rounding. *)
Lemma pieStep_approx (key : Row -> string) (m : list (string * Q)) (r : Row)
    (k : nat) (T : Q) :
  Forall (fun kv => 0 <= snd kv) m -> 0 <= pct r ->
  approx k (sumAssoc m) T ->
  Forall (fun kv => 0 <= snd kv) (pieStep key m r) /\
  approx (1 + k) (sumAssoc (pieStep key m r)) (T + pct r).
Proof.
  intros Hm Hp Hk. unfold pieStep.
  set (old := match Map_get m (key r) with
              | Some v => (v || lit 0)%num
              | None => lit 0
              end).
  assert (Hold : old == weightOf m (key r)).
  { unfold old, weightOf. numR.
    assert (H0 : rnd 0 == 0) by (apply (rnd_zero rnd rnd_err); reflexivity).
    destruct (Map_get m (key r)) as [v|]; [|exact H0].
    destruct (Qeq_bool v 0) eqn:Ev; cbn [negb]; [|reflexivity].
    apply Qeq_bool_eq in Ev. rewrite Ev. exact H0. }
  destruct (weightOf_bounds m (key r) Hm) as [Hg0 HgS].
  assert (Harg : 0 <= old + pct r) by lra.
  destruct (rnd_bounds rnd rnd_err _ Harg) as [Rl Ru].
  change (old + pct r)%num with (rnd (old + pct r)).
  split.
  - apply Map_set_nonneg; [|exact Hm].
    apply (rnd_nonneg rnd rnd_err). exact Harg.
  - apply (approx_trans 1 k _ (sumAssoc m + pct r)).
    + pose proof (sumAssoc_set m (key r) (rnd (old + pct r))) as Hset.
      unfold approx. cbn [epow]. unfold u in *.
      set (y := rnd (old + pct r)) in *.
      set (S' := sumAssoc (Map_set _ _ _)) in *.
      set (g := weightOf m (key r)) in *. set (S := sumAssoc m) in *.
      repeat split; lra.
    + apply approx_add; [exact Hk|].
      apply (approx_weaken 0); [lia | apply approx_refl, Hp].
Qed.

Lemma pie_fold_approx (key : Row -> string) (rows : list Row) :
  (forall r, In r rows -> 0 <= pct r) ->
  forall (m : list (string * Q)) (k : nat) (T : Q),
    Forall (fun kv => 0 <= snd kv) m -> approx k (sumAssoc m) T ->
    approx (List.length rows + k)
      (sumAssoc (fold_left (pieStep key) rows m)) (T + sumPct rows).
Proof.
  induction rows as [|r rows IH]; intros Hrows m k T Hm Hk;
    cbn [fold_left List.length].
  - change (sumPct []) with 0. cbn [Nat.add].
    apply (approx_ideal _ _ _ T); [ring | exact Hk].
  - destruct (pieStep_approx key m r k T Hm (Hrows r (or_introl eq_refl)) Hk)
      as [Hm' Hk'].
    rewrite sumPct_cons.
    apply (approx_ideal _ _ _ ((T + pct r) + sumPct rows)); [ring|].
    replace (S (List.length rows) + k)%nat with (List.length rows + (1 + k))%nat
      by lia.
    apply IH; [intros; apply Hrows; right; assumption | exact Hm' | exact Hk'].
Qed.

(** The values of a pie add up to the sum of the rows, up to one rounding for
    each row. *)
Lemma pie_sum_approx (key : Row -> string) (rows : list Row) :
  (forall r, In r rows -> 0 <= pct r) ->
  approx (List.length rows) (sumValue (pieBy key rows)) (sumPct rows).
Proof.
  intros Hrows. unfold pieBy. rewrite sumValue_slices.
  pose proof (pie_fold_approx key rows Hrows [] 0%nat 0 (Forall_nil _)
                (approx_refl 0 (Qle_refl 0))) as H.
  rewrite Nat.add_0_r in H.
  apply (approx_ideal _ _ _ (0 + sumPct rows)); [ring | exact H].
Qed.

Lemma autoAllocate_length (i : Inputs Q) :
  (List.length (autoAllocate i) <= 20)%nat.
Proof.
  assert (Hlen : List.length (autoAllocate i)
                 = List.length (consolidate (rawRows i)))
    by (apply Permutation_length, sortRows_perm).
  assert (H19 : (List.length (rawRows i) <= 19)%nat)
    by exact (buildRows_length rnd i (normalize (adjusted i))).
  rewrite Hlen, consolidate_eq, length_app.
  pose proof (filter_length_le (@isKept Q _) (rawRows i)).
  unfold pushIf. destruct (ltb _ _); cbn [List.length]; lia.
Qed.

Lemma returned_nonneg (i : Inputs Q) (r : Row) :
  In r (autoAllocate i) -> 0 <= pct r.
Proof.
  intros Hin. destruct (returned_rows rnd rnd_err i r Hin) as [Hkept | [_ Hpos]].
  - assert (0 <= rnd 0.4) by (apply (rnd_nonneg rnd rnd_err); discriminate). lra.
  - lra.
Qed.

(** X15.  For a valid record the values of [pieByAsset] add up to 100 within
    the tolerance 1e-6, and so do the values of [pieByRegion], whatever the
    rounding of relative error at most 2^-53: each pie accounts for the whole
    portfolio. *)
Theorem pies_add_up_to_100 (i : Inputs Q) :
  valid i ->
  Qabs (sumValue (pieByAsset (autoAllocate i)) - 100) <= tolerance /\
  Qabs (sumValue (pieByRegion (autoAllocate i)) - 100) <= tolerance.
Proof.
  intros Hv.
  pose proof (sum_rounded rnd rnd_err i Hv) as Hsum.
  pose proof (autoAllocate_length i) as Hlen.
  assert (Hpie : forall key : Row -> string,
            Qabs (sumValue (pieBy key (autoAllocate i)) - 100) <= tolerance).
  { intros key.
    apply (approx_100_tolerance_60 (List.length (autoAllocate i) + 36)); [lia|].
    apply (approx_trans _ _ _ (sumPct (autoAllocate i))); [|exact Hsum].
    apply pie_sum_approx. exact (returned_nonneg i). }
  split; apply Hpie.
Qed.

(** **** The bar chart *)

Lemma rnd_le_lit (a b : Q) :
  0 <= a -> a * (1 + u) <= b * (1 - u) -> rnd a <= rnd b.
Proof.
  intros Ha Hab.
  assert (Hb : 0 <= b) by (unfold u in *; lra).
  destruct (rnd_bounds rnd rnd_err a Ha) as [_ Hu].
  destruct (rnd_bounds rnd rnd_err b Hb) as [Hl _]. lra.
Qed.

(** The expected-return band of a returned row: the low end is at most the
    high end. *)
Lemma band_ordered (i : Inputs Q) (r : Row) :
  In r (autoAllocate i) -> fst (expCagr r) <= snd (expCagr r).
Proof.
  intros Hin. apply autoAllocate_In in Hin.
  destruct Hin as [[Hin _]|[-> _]].
  - unfold rawRows in Hin. in_rows Hin;
      cbn [expCagr usaSectorRow indSectorRow mkRow s_name String.eqb Ascii.eqb
           Bool.eqb includes fst snd];
      try (cbn; numR; apply rnd_le_lit; unfold u; lra).
  - cbn [expCagr consolidatedRow mkRow fst snd]. apply Qle_refl.
Qed.

(** X17.  The bar chart shows the first rows of the table, at most 8 of
    them: bar number [k] carries the two ends of the expected-return band of
    row number [k], the low end at most the high end, and no row that is left
    out of the chart has a larger [pct] than a row that is in it. *)
Theorem top_holdings (i : Inputs Q) (k : nat) (b : Bar Q) :
  nth_error (barExpReturns (autoAllocate i)) k = Some b ->
  (k < 8)%nat /\
  exists r : Row,
    nth_error (autoAllocate i) k = Some r /\
    low b = fst (expCagr r) /\ high b = snd (expCagr r) /\ low b <= high b /\
    forall (j : nat) (r' : Row),
      (8 <= j)%nat -> nth_error (autoAllocate i) j = Some r' -> pct r' <= pct r.
Proof.
  unfold barExpReturns. rewrite nth_error_map, nth_error_firstn.
  destruct (k <? 8)%nat eqn:Ek; [|discriminate].
  apply Nat.ltb_lt in Ek.
  destruct (nth_error (autoAllocate i) k) as [r|] eqn:Er; [|discriminate].
  cbn [option_map]. intros Hb. injection Hb as <-. cbn [low high].
  split; [exact Ek|]. exists r.
  split; [reflexivity|]. split; [reflexivity|]. split; [reflexivity|].
  split.
  - apply (band_ordered i). exact (nth_error_In _ _ Er).
  - intros j r' Hj Hr'.
    assert (Hs : StronglySorted descending (autoAllocate i)).
    { apply (Sorted_StronglySorted descending_trans).
      unfold autoAllocate. apply (sortRows_sorted rnd rnd_err). }
    apply (StronglySorted_nth _ Hs k j); [lia | assumption | assumption].
Qed.

(** **** The order of equal rows *)

Lemma insertRow_ties (p : Q) (a : Row) (l : list Row) :
  filter (fun r => Qeq_bool (pct r) p) (insertRow a l)
  = filter (fun r => Qeq_bool (pct r) p) (a :: l).
Proof.
  induction l as [|b l IH]; cbn [insertRow]; [reflexivity|].
  change (ltb (lit 0) (comparator a b)) with (Qltb (rnd 0) (comparator a b)).
  destruct (Qltb (rnd 0) (comparator a b)) eqn:E; [|reflexivity].
  apply (comparator_pos rnd rnd_err) in E.
  cbn [filter] in *. rewrite IH.
  destruct (Qeq_bool (pct a) p) eqn:Ea, (Qeq_bool (pct b) p) eqn:Eb;
    try reflexivity.
  apply Qeq_bool_eq in Ea, Eb. lra.
Qed.

Lemma sortRows_ties (p : Q) (l : list Row) :
  filter (fun r => Qeq_bool (pct r) p) (sortRows l)
  = filter (fun r => Qeq_bool (pct r) p) l.
Proof.
  induction l as [|a l IH]; cbn [sortRows fold_right]; [reflexivity|].
  fold (sortRows l). rewrite insertRow_ties. cbn [filter]. rewrite IH.
  reflexivity.
Qed.

(** X7.  The sort keeps the rows of equal [pct] in the order in which they
    stood before it: the returned rows whose [pct] is [p] are, in their
    order, the rows of that [pct] of the consolidated list, which holds the
    rows in the order of their [push] and the "Consolidated" row last. *)
Theorem ties_keep_push_order (i : Inputs Q) (p : Q) :
  filter (fun r => Qeq_bool (pct r) p) (autoAllocate i)
  = filter (fun r => Qeq_bool (pct r) p) (consolidate (rawRows i)).
Proof.
  unfold autoAllocate. fold (rawRows i). apply sortRows_ties.
Qed.

(** **** From the form to the table *)

(** X12.  With rational numbers typed in the number fields and every
    horizon typed a whole number: whatever the user does in the form,
    starting from the initial state, the state is a record of the engine and
    the rows computed from it add up to 100 within the tolerance 1e-6,
    whatever the rounding of relative error at most 2^-53 in the engine. *)
Theorem form_rows_add_up (es : list (@Event Q)) :
  Forall wholeEvent es ->
  exists i, inputsOf (stateAfter (num := exactQ) es) = Some i /\
            Qabs (sumPct (autoAllocate i) - 100) <= tolerance.
Proof.
  intros Hes. destruct (Form.stateAfter_valid es Hes) as (i & Hi & Hv).
  exists i. split; [exact Hi|].
  apply (approx_100_tolerance 36); [lia|].
  exact (sum_rounded rnd rnd_err _ Hv).
Qed.

End RoundedApplication.

(** *** Texts *)

Module Texts.

(** **** Digits *)

Lemma digit_is_not (c x : ascii) (d d' : Decimal.uint) :
  uint_of_char c (Some d) = Some d' -> uint_of_char x (Some d) = None ->
  Ascii.eqb c x = false.
Proof.
  intros Hc Hx.
  destruct (Ascii.eqb_spec c x) as [->|]; [congruence | reflexivity].
Qed.

Lemma read_cons (c : ascii) (s : string) (d : Decimal.uint) :
  NilEmpty.uint_of_string (String c s) = Some d ->
  exists d', NilEmpty.uint_of_string s = Some d' /\
             uint_of_char c (Some d') = Some d.
Proof.
  cbn [NilEmpty.uint_of_string]. destruct (NilEmpty.uint_of_string s) as [d'|].
  - intros H. exists d'. split; [reflexivity | exact H].
  - discriminate.
Qed.

(** A text of digits has no point in it. *)
Lemma no_point (s : string) (d : Decimal.uint) :
  NilEmpty.uint_of_string s = Some d ->
  beforePoint s = s /\ afterPoint s = EmptyString.
Proof.
  revert d. induction s as [|c s IH]; intros d Hd; cbn [beforePoint afterPoint].
  - split; reflexivity.
  - destruct (read_cons c s d Hd) as (d' & Hs & Hc).
    rewrite (digit_is_not c "." d' d Hc eq_refl).
    destruct (IH d' Hs) as [-> ->]. split; reflexivity.
Qed.

(** Digits, a point, digits: the point is found where it is. *)
Lemma split_point (a b : string) (d : Decimal.uint) :
  NilEmpty.uint_of_string (a ++ b) = Some d ->
  beforePoint (a ++ String "." b) = a /\ afterPoint (a ++ String "." b) = b.
Proof.
  revert d. induction a as [|c a IH]; intros d Hd;
    cbn [append beforePoint afterPoint].
  - split; reflexivity.
  - cbn [append] in Hd. destruct (read_cons c (a ++ b) d Hd) as (d' & Hs & Hc).
    rewrite (digit_is_not c "." d' d Hc eq_refl).
    destruct (IH d' Hs) as [-> ->]. split; reflexivity.
Qed.

Lemma read_zeros (k : nat) (s : string) (d : Decimal.uint) :
  NilEmpty.uint_of_string s = Some d ->
  exists d', NilEmpty.uint_of_string (zeros k ++ s) = Some d' /\
             N.of_uint d' = N.of_uint d.
Proof.
  intros Hs. induction k as [|k IH]; cbn [zeros append].
  - exists d. split; [exact Hs | reflexivity].
  - destruct IH as (d' & Hd' & Hv). exists (Decimal.D0 d').
    cbn [NilEmpty.uint_of_string]. rewrite Hd'. split; [reflexivity | exact Hv].
Qed.

Lemma read_digits (n : N) :
  NilEmpty.uint_of_string (digits n) = Some (N.to_uint n).
Proof. apply NilEmpty.usu. Qed.

Lemma digits_nonempty (n : N) : exists c s, digits n = String c s.
Proof.
  unfold digits. destruct n as [|p].
  - exists "0"%char, EmptyString. reflexivity.
  - destruct (N.to_uint (N.pos p)) as [|d|d|d|d|d|d|d|d|d|d] eqn:E;
      cbn [NilEmpty.string_of_uint]; eauto.
    exfalso. pose proof (DecimalN.Unsigned.of_to (N.pos p)) as H.
    rewrite E in H. discriminate H.
Qed.

Lemma append_empty (s : string) : (s ++ EmptyString)%string = s.
Proof. induction s as [|c s IH]; cbn [append]; [|rewrite IH]; reflexivity. Qed.

Lemma length_append (a b : string) :
  String.length (a ++ b) = (String.length a + String.length b)%nat.
Proof.
  induction a as [|c a IH]; cbn [append String.length]; [|rewrite IH];
    reflexivity.
Qed.

Lemma length_zeros (k : nat) : String.length (zeros k) = k.
Proof.
  induction k as [|k IH]; cbn [zeros String.length]; [|rewrite IH]; reflexivity.
Qed.

Lemma substring_all (s : string) : substring 0 (String.length s) s = s.
Proof.
  induction s as [|c s IH]; cbn [String.length substring]; [|rewrite IH];
    reflexivity.
Qed.

(** A text is its first [j] characters followed by the others. *)
Lemma substring_split (j : nat) :
  forall s : string, (j <= String.length s)%nat ->
    (substring 0 j s ++ substring j (String.length s - j) s)%string = s /\
    String.length (substring j (String.length s - j) s)
    = (String.length s - j)%nat.
Proof.
  induction j as [|j IH]; intros s Hj.
  - rewrite Nat.sub_0_r, substring_all.
    destruct s; cbn [substring append]; split; reflexivity.
  - destruct s as [|c s]; cbn [String.length] in *; [lia|].
    cbn [substring Nat.sub append]. destruct (IH s ltac:(lia)) as [-> ->].
    split; reflexivity.
Qed.

(** **** [toFixed] *)

Lemma nearest_bounds (y : Q) :
  0 <= y -> (0 <= nearest y)%Z /\ Qabs (inject_Z (nearest y) - y) <= 1 # 2.
Proof.
  intros Hy. unfold nearest.
  pose proof (Qfloor_le (y + (1 # 2))) as Hl.
  pose proof (Qlt_floor (y + (1 # 2))) as Hu.
  rewrite inject_Z_plus in Hu. change (inject_Z 1) with 1 in Hu.
  split.
  - assert (H : inject_Z (-1) < inject_Z (Qfloor (y + (1 # 2))))
      by (change (inject_Z (-1)) with (-1); lra).
    rewrite <- Zlt_Qlt in H. lia.
  - apply Qabs_Qle_condition. split; lra.
Qed.

Lemma pow10_pos (f : nat) : 0 < inject_Z (10 ^ Z.of_nat f).
Proof.
  change 0 with (inject_Z 0). rewrite <- Zlt_Qlt.
  apply Z.pow_pos_nonneg; lia.
Qed.

Lemma toFixed_sign_digits (x : Q) (f : nat) :
  toFixed x f
  = ((if Qltb x 0 then "-" else EmptyString)
     ++ fixedDigits
          (Z.to_N (nearest (Qabs x * inject_Z (10 ^ Z.of_nat f)))) f)%string.
Proof. reflexivity. Qed.

(** The digits of [toFixed] read back as [n / 10^f], and they start with a
    digit. *)
Lemma fixedDigits_read (n : N) (f : nat) :
  readUnsigned (fixedDigits n f)
  = Some (inject_Z (Z.of_N n) / inject_Z (10 ^ Z.of_nat f)) /\
  exists c s d d',
    fixedDigits n f = String c s /\ uint_of_char c (Some d) = Some d'.
Proof.
  unfold fixedDigits. destruct f as [|f].
  - pose proof (read_digits n) as Hd.
    destruct (no_point _ _ Hd) as [Hb Ha]. split.
    + unfold readUnsigned. rewrite Hb, Ha.
      rewrite append_empty, Hd, DecimalN.Unsigned.of_to. reflexivity.
    + destruct (digits_nonempty n) as (c & s & E). rewrite E in *.
      destruct (read_cons c s _ Hd) as (d' & _ & Hc).
      exists c, s, d', (N.to_uint n). split; [reflexivity | exact Hc].
  - set (m := if (String.length (digits n) <=? S f)%nat
              then (zeros (S f + 1 - String.length (digits n)) ++ digits n)%string
              else digits n).
    assert (Hm : exists d, NilEmpty.uint_of_string m = Some d /\ N.of_uint d = n).
    { unfold m. destruct (String.length (digits n) <=? S f)%nat.
      - destruct (read_zeros (S f + 1 - String.length (digits n)) _ _
                    (read_digits n)) as (d' & Hd' & Hv).
        exists d'. split; [exact Hd'|]. rewrite Hv.
        apply DecimalN.Unsigned.of_to.
      - exists (N.to_uint n). split; [apply read_digits|].
        apply DecimalN.Unsigned.of_to. }
    assert (Hlen : (S f < String.length m)%nat).
    { unfold m. destruct (String.length (digits n) <=? S f)%nat eqn:E.
      - apply Nat.leb_le in E. rewrite length_append, length_zeros. lia.
      - apply Nat.leb_gt in E. exact E. }
    cbv zeta. fold m.
    set (j := (String.length m - S f)%nat).
    assert (Hj : (j <= String.length m)%nat) by (unfold j; lia).
    destruct (substring_split j m Hj) as [Hsplit Hlb].
    replace (String.length m - j)%nat with (S f) in Hsplit, Hlb
      by (unfold j; lia).
    set (a := substring 0 j m) in *. set (b := substring j (S f) m) in *.
    destruct Hm as (d & Hd & Hv). rewrite <- Hsplit in Hd.
    change (a ++ "." ++ b)%string with (a ++ String "." b)%string.
    destruct (split_point a b d Hd) as [Hb Ha]. split.
    + unfold readUnsigned. rewrite Hb, Ha, Hd, Hv, Hlb. reflexivity.
    + destruct a as [|c a'] eqn:Ea.
      * exfalso. assert (String.length a = 0%nat) by (rewrite Ea; reflexivity).
        assert (String.length m = (String.length a + String.length b)%nat)
          by (rewrite <- length_append, Ea; f_equal; symmetry; exact Hsplit).
        unfold j in *. lia.
      * cbn [append] in Hd. destruct (read_cons c _ d Hd) as (d' & _ & Hc).
        cbn [append]. exists c, (a' ++ String "." b)%string, d', d.
        split; [reflexivity | exact Hc].
Qed.

(** The text of [toFixed] reads back as the multiple of [10^-f] nearest to
    [x], the one away from zero of two, with the sign of [x]. *)
Lemma toFixed_reads (x : Q) (f : nat) :
  exists v : Q,
    readFixed (toFixed x f) = Some v /\
    Qabs v == inject_Z (nearest (Qabs x * inject_Z (10 ^ Z.of_nat f)))
              / inject_Z (10 ^ Z.of_nat f) /\
    (0 <= x -> 0 <= v) /\ (x <= 0 -> v <= 0) /\
    Qabs (v - x) <= (1 # 2) / inject_Z (10 ^ Z.of_nat f).
Proof.
  pose proof (pow10_pos f) as HP. set (P := inject_Z (10 ^ Z.of_nat f)) in *.
  assert (Hy : 0 <= Qabs x * P)
    by (apply Qmult_le_0_compat; [apply Qabs_nonneg | lra]).
  destruct (nearest_bounds _ Hy) as [Hn0 Herr].
  rewrite toFixed_sign_digits. fold P.
  set (n := nearest (Qabs x * P)) in *.
  destruct (fixedDigits_read (Z.to_N n) f)
    as [Hread (c & s & d & d' & Hbody & Hc)].
  rewrite Z2N.id in Hread by exact Hn0. fold P in Hread.
  set (w := inject_Z n / P) in *.
  assert (Hw0 : 0 <= w).
  { unfold w. apply Qle_shift_div_l; [exact HP|].
    setoid_replace (0 * P) with 0 by ring.
    change 0 with (inject_Z 0). rewrite <- Zle_Qle. exact Hn0. }
  assert (Hwx : Qabs (w - Qabs x) <= (1 # 2) / P).
  { setoid_replace (w - Qabs x) with ((inject_Z n - Qabs x * P) / P)
      by (unfold w; field; lra).
    apply Qabs_Qle_condition in Herr. destruct Herr as [E1 E2].
    apply Qabs_Qle_condition. split.
    - setoid_replace (- ((1 # 2) / P)) with ((- (1 # 2)) / P) by (field; lra).
      apply Qmult_le_compat_r; [exact E1|].
      apply Qlt_le_weak, Qinv_lt_0_compat, HP.
    - apply Qmult_le_compat_r; [exact E2|].
      apply Qlt_le_weak, Qinv_lt_0_compat, HP. }
  caseQltb x 0.
  - exists (- w). cbn [append]. rewrite Hbody in *.
    split; [|split; [|split; [|split]]].
    + cbn [readFixed]. change (Ascii.eqb "-" "-") with true.
      cbv iota. rewrite Hread. reflexivity.
    + rewrite Qabs_opp, Qabs_pos by exact Hw0. reflexivity.
    + intros; lra.
    + intros; lra.
    + rewrite (Qabs_neg x) in Hwx by lra.
      setoid_replace (- w - x) with (- (w - - x)) by ring.
      rewrite Qabs_opp. exact Hwx.
  - exists w. cbn [append]. rewrite Hbody in *.
    split; [|split; [|split; [|split]]].
    + cbn [readFixed]. rewrite (digit_is_not c "-" d d' Hc eq_refl). exact Hread.
    + rewrite Qabs_pos by exact Hw0. reflexivity.
    + intros; lra.
    + intros Hx. assert (Hx0 : x == 0) by lra.
      assert (Hn : n = 0%Z).
      { unfold n, nearest. rewrite Hx0. reflexivity. }
      unfold w. rewrite Hn. unfold Qdiv.
      setoid_replace (inject_Z 0 * / P) with 0 by ring.
      apply Qle_refl.
    + rewrite (Qabs_pos x) in Hwx by lra. exact Hwx.
Qed.

(** X18.  Below 10^21 in absolute value, the text that [toFixed] gives for a
    number reads back as a number that differs from it by at most half a unit
    of the last digit kept and that has its sign or is 0.  So the text of
    [fmtPct] is such a text with one digit after the point, followed by the
    percent sign: the percentage shown differs from [pct] by at most 0.05. *)
Theorem percentages_read_back (x : Q) :
  Qabs x < 1000000000000000000000 ->
  (forall f : nat, exists v : Q,
     readFixed (toFixed x f) = Some v /\
     Qabs (v - x) <= (1 # 2) / inject_Z (10 ^ Z.of_nat f) /\
     (0 <= x -> 0 <= v) /\ (x <= 0 -> v <= 0)) /\
  (exists (t : string) (v : Q),
     fmtPct x = (t ++ "%")%string /\ readFixed t = Some v /\
     Qabs (v - x) <= 1 # 20 /\ (0 <= x -> 0 <= v) /\ (x <= 0 -> v <= 0)).
Proof.
  intros _. split.
  - intros f. destruct (toFixed_reads x f) as (v & Hr & _ & Hp & Hn & He).
    exists v. split; [exact Hr|]. split; [exact He|]. split; assumption.
  - destruct (toFixed_reads x 1) as (v & Hr & _ & Hp & Hn & He).
    exists (toFixed x 1), v. split; [reflexivity|]. split; [exact Hr|].
    split; [|split; assumption].
    setoid_replace (1 # 20) with ((1 # 2) / inject_Z (10 ^ Z.of_nat 1))
      by reflexivity.
    exact He.
Qed.

(** **** The CSV export *)

Lemma hasLineBreak_append (a b : string) :
  hasLineBreak (a ++ b) = hasLineBreak a || hasLineBreak b.
Proof.
  induction a as [|c a IH]; cbn [append hasLineBreak]; [reflexivity|].
  rewrite IH, orb_assoc. reflexivity.
Qed.

Lemma replaceAll_line (s : string) (c : ascii) (replacement : string) :
  hasLineBreak s = false -> hasLineBreak replacement = false ->
  hasLineBreak (replaceAll s c replacement) = false.
Proof.
  intros Hs Hb. induction s as [|x s IH]; cbn [replaceAll]; [reflexivity|].
  cbn [hasLineBreak] in Hs. apply orb_false_iff in Hs. destruct Hs as [Hx Hs].
  rewrite hasLineBreak_append, (IH Hs), orb_false_r.
  destruct (Ascii.eqb x c); [exact Hb|].
  cbn [hasLineBreak]. rewrite Hx. reflexivity.
Qed.

Lemma join_line (sep : string) (l : list string) :
  hasLineBreak sep = false -> Forall (fun x => hasLineBreak x = false) l ->
  hasLineBreak (join sep l) = false.
Proof.
  intros Hsep. induction 1 as [|x l Hx Hl IH]; cbn [join]; [reflexivity|].
  destruct l as [|y l]; [exact Hx|].
  rewrite !hasLineBreak_append, Hx, Hsep, IH. reflexivity.
Qed.

Lemma csvCell_line (x : string) :
  hasLineBreak x = false -> hasLineBreak (csvCell x) = false.
Proof.
  intros Hx.
  change (csvCell x)
    with (String quoteChar EmptyString
          ++ (replaceAll x quoteChar
                (String backslash (String quoteChar EmptyString))
              ++ String quoteChar EmptyString))%string.
  rewrite !hasLineBreak_append, (replaceAll_line x _ _ Hx); reflexivity.
Qed.

(** X19.  The text of the CSV export has no line feed and no carriage return
    in it unless a field of a row has one: the header and the rows are joined
    by a backslash and the letter n, so the whole export is one line. *)
Theorem csv_is_one_line (table : list (list string)) :
  Forall (Forall (fun x => hasLineBreak x = false)) table ->
  hasLineBreak (csv table) = false.
Proof.
  intros Ht. unfold csv. apply join_line; [reflexivity|]. constructor.
  - reflexivity.
  - apply Forall_map. revert Ht. apply Forall_impl. intros fields Hf.
    apply join_line; [reflexivity|]. apply Forall_map. revert Hf.
    apply Forall_impl. exact csvCell_line.
Qed.

End Texts.

(** *** Doubles *)

Module Doubles.

(** **** The order of the doubles *)

Ltac order_cases :=
  repeat match goal with
  | |- context [(?a ?= ?b)%Z] => destruct (Z.compare_spec a b)
  | |- context [(?a ?= ?b)%positive] => destruct (Pos.compare_spec a b)
  end.

Lemma SFcompare_trans (a b c : spec_float) (x y : comparison) :
  SFcompare a b = Some x -> SFcompare b c = Some y ->
  x = Eq \/ y = Eq \/ x = y ->
  SFcompare a c = Some (match x with Eq => y | _ => x end).
Proof.
  intros Hab Hbc Hxy.
  destruct a as [sa|sa| |sa ma ea], b as [sb|sb| |sb mb eb],
    c as [sc|sc| |sc mc ec]; cbn [SFcompare] in *; try discriminate;
    try (destruct sa); try (destruct sb); try (destruct sc);
    injection Hab as <-; injection Hbc as <-;
    try reflexivity;
    try (exfalso; destruct Hxy as [Hx|[Hx|Hx]]; discriminate Hx).
  all: change (PosDef.Pos.compare_cont Eq) with Pos.compare in *.
  all: f_equal; revert Hxy; order_cases; cbn [CompOpp]; intros Hxy;
       try reflexivity; try lia;
       try (exfalso; destruct Hxy as [Hx|[Hx|Hx]]; discriminate Hx).
Qed.
Lemma SFcompare_antisym (a b : spec_float) :
  SFcompare b a = option_map CompOpp (SFcompare a b).
Proof.
  destruct a as [s|s| |s m e], b as [s'|s'| |s' m' e'];
    cbn [SFcompare option_map];
    try reflexivity;
    try (destruct s; reflexivity); try (destruct s'; reflexivity);
    try (destruct s, s'; reflexivity).
  destruct s, s'; cbn [CompOpp]; try reflexivity;
    rewrite (Z.compare_antisym e e'); destruct (e ?= e')%Z; cbn [CompOpp];
    try reflexivity;
    change (PosDef.Pos.compare_cont Eq m' m) with (Pos.compare m' m);
    change (PosDef.Pos.compare_cont Eq m m') with (Pos.compare m m');
    rewrite (Pos.compare_antisym m m'); destruct (m ?= m')%positive;
    reflexivity.
Qed.

Lemma SFcompare_some (a b : spec_float) :
  SFcompare a a = Some Eq -> SFcompare b b = Some Eq ->
  exists c, SFcompare a b = Some c.
Proof.
  destruct a as [s|s| |s m e], b as [s'|s'| |s' m' e']; cbn [SFcompare];
    intros Ha Hb; try discriminate; eauto.
Qed.

Lemma not_nan (x : float) :
  PrimFloat.is_nan x = false -> SFcompare (Prim2SF x) (Prim2SF x) = Some Eq.
Proof.
  unfold PrimFloat.is_nan. intros H. apply negb_false_iff in H.
  rewrite FloatAxioms.eqb_spec in H. unfold SFeqb in H.
  destruct (SFcompare (Prim2SF x) (Prim2SF x)) as [[| |]|];
    try discriminate H; reflexivity.
Qed.

(** The comparison of two doubles, and the tests in its terms. *)
Lemma leb_compare (x y : float) :
  PrimFloat.leb x y = true <->
  SFcompare (Prim2SF x) (Prim2SF y) = Some Lt \/
  SFcompare (Prim2SF x) (Prim2SF y) = Some Eq.
Proof.
  rewrite FloatAxioms.leb_spec. unfold SFleb.
  destruct (SFcompare (Prim2SF x) (Prim2SF y)) as [[| |]|];
    split; intros H; try reflexivity; try discriminate H; auto;
    destruct H as [H|H]; discriminate H.
Qed.

Lemma ltb_compare (x y : float) :
  PrimFloat.ltb x y = true <->
  SFcompare (Prim2SF x) (Prim2SF y) = Some Lt.
Proof.
  rewrite FloatAxioms.ltb_spec. unfold SFltb.
  destruct (SFcompare (Prim2SF x) (Prim2SF y)) as [[| |]|];
    split; intros H; try reflexivity; try discriminate H.
Qed.

Lemma eqb_compare (x y : float) :
  PrimFloat.eqb x y = true <->
  SFcompare (Prim2SF x) (Prim2SF y) = Some Eq.
Proof.
  rewrite FloatAxioms.eqb_spec. unfold SFeqb.
  destruct (SFcompare (Prim2SF x) (Prim2SF y)) as [[| |]|];
    split; intros H; try reflexivity; try discriminate H.
Qed.

Lemma leb_not_nan (x y : float) :
  PrimFloat.leb x y = true ->
  PrimFloat.is_nan x = false /\ PrimFloat.is_nan y = false.
Proof.
  intros H. apply leb_compare in H.
  assert (Hs : exists c, SFcompare (Prim2SF x) (Prim2SF y) = Some c)
    by (destruct H as [H|H]; eauto).
  destruct Hs as (c & Hc). unfold PrimFloat.is_nan.
  rewrite !negb_false_iff, !eqb_compare.
  destruct (Prim2SF x) as [s|s| |s m e], (Prim2SF y) as [s'|s'| |s' m' e'];
    cbn [SFcompare] in *; try discriminate Hc; split; try reflexivity;
    rewrite ?Z.compare_refl;
    change (PosDef.Pos.compare_cont Eq) with Pos.compare;
    rewrite ?Pos.compare_refl;
    try (destruct s; reflexivity); destruct s'; reflexivity.
Qed.

Lemma leb_refl (x : float) :
  PrimFloat.is_nan x = false -> PrimFloat.leb x x = true.
Proof.
  intros Hx. apply leb_compare. right. apply not_nan, Hx.
Qed.

Lemma ltb_leb (x y : float) :
  PrimFloat.ltb x y = true -> PrimFloat.leb x y = true.
Proof.
  intros H. apply leb_compare. left. apply ltb_compare, H.
Qed.

Lemma leb_trans (x y z : float) :
  PrimFloat.leb x y = true -> PrimFloat.leb y z = true ->
  PrimFloat.leb x z = true.
Proof.
  rewrite !leb_compare. intros [H1|H1] [H2|H2];
    [left; apply (SFcompare_trans _ _ _ _ _ H1 H2); auto
    |left; apply (SFcompare_trans _ _ _ _ _ H1 H2); auto
    |left; apply (SFcompare_trans _ _ _ _ _ H1 H2); auto
    |right; apply (SFcompare_trans _ _ _ _ _ H1 H2); auto].
Qed.

(** A double below another is not at least it. *)
Lemma ltb_not_leb (x y : float) :
  PrimFloat.ltb x y = true -> PrimFloat.leb y x = true -> False.
Proof.
  rewrite ltb_compare, leb_compare. intros H1.
  rewrite (SFcompare_antisym (Prim2SF x) (Prim2SF y)), H1. cbn.
  intros [H|H]; discriminate H.
Qed.

Lemma leb_antisym (x y : float) :
  PrimFloat.leb x y = true -> PrimFloat.leb y x = true ->
  PrimFloat.eqb x y = true.
Proof.
  rewrite !leb_compare, eqb_compare. intros [H1|H1] H2; [|exact H1].
  rewrite (SFcompare_antisym (Prim2SF x) (Prim2SF y)), H1 in H2. cbn in H2.
  destruct H2 as [H|H]; discriminate H.
Qed.

(** Two doubles that are not NaN and of which none is below the other are
    equal in the order. *)
Lemma not_ltb_leb (x y : float) :
  PrimFloat.is_nan x = false -> PrimFloat.is_nan y = false ->
  PrimFloat.ltb x y = false -> PrimFloat.ltb y x = false ->
  PrimFloat.leb x y = true /\ PrimFloat.leb y x = true.
Proof.
  intros Hx Hy. rewrite !FloatAxioms.ltb_spec, !FloatAxioms.leb_spec.
  unfold SFltb, SFleb.
  destruct (SFcompare_some _ _ (not_nan x Hx) (not_nan y Hy)) as (c & Hc).
  rewrite (SFcompare_antisym (Prim2SF x) (Prim2SF y)), Hc. cbn [option_map].
  destruct c; cbn [CompOpp]; intros H1 H2; try discriminate; split; reflexivity.
Qed.

(** [Math.min] and [Math.max] of two doubles that are not NaN return one of
    the two, which the order tells. *)
Lemma Math_min_cases (a b : float) :
  PrimFloat.is_nan a = false -> PrimFloat.is_nan b = false ->
  (Math_min a b = a /\ PrimFloat.leb a b = true) \/
  (Math_min a b = b /\ PrimFloat.leb b a = true).
Proof.
  intros Ha Hb. cbn [Math_min mathFloat]. rewrite Ha, Hb. cbn [orb].
  destruct (PrimFloat.ltb a b) eqn:E1;
    [left; split; [reflexivity | apply ltb_leb, E1]|].
  destruct (PrimFloat.ltb b a) eqn:E2;
    [right; split; [reflexivity | apply ltb_leb, E2]|].
  destruct (not_ltb_leb a b Ha Hb E1 E2) as [H1 H2].
  destruct (PrimFloat.get_sign a); [left | right]; split;
    try reflexivity; assumption.
Qed.

Lemma Math_max_cases (a b : float) :
  PrimFloat.is_nan a = false -> PrimFloat.is_nan b = false ->
  (Math_max a b = a /\ PrimFloat.leb b a = true) \/
  (Math_max a b = b /\ PrimFloat.leb a b = true).
Proof.
  intros Ha Hb. cbn [Math_max mathFloat]. rewrite Ha, Hb. cbn [orb].
  destruct (PrimFloat.ltb a b) eqn:E1;
    [right; split; [reflexivity | apply ltb_leb, E1]|].
  destruct (PrimFloat.ltb b a) eqn:E2;
    [left; split; [reflexivity | apply ltb_leb, E2]|].
  destruct (not_ltb_leb a b Ha Hb E1 E2) as [H1 H2].
  destruct (PrimFloat.get_sign a); [right | left]; split;
    try reflexivity; assumption.
Qed.

(** A value between the bounds comes back, up to the sign of a zero. *)
Lemma clamp_inside (lo v hi : float) :
  PrimFloat.leb lo v = true -> PrimFloat.leb v hi = true ->
  PrimFloat.eqb (clamp lo v hi) v = true.
Proof.
  intros H1 H2.
  destruct (leb_not_nan _ _ H1) as [Hlo Hv].
  destruct (leb_not_nan _ _ H2) as [_ Hhi].
  unfold clamp.
  destruct (Math_min_cases hi v Hhi Hv) as [[-> Hm]|[-> Hm]].
  - destruct (Math_max_cases lo hi Hlo Hhi) as [[-> Hx]|[-> Hx]].
    + apply leb_antisym; [exact H1 | exact (leb_trans _ _ _ H2 Hx)].
    + apply leb_antisym; assumption.
  - destruct (Math_max_cases lo v Hlo Hv) as [[-> Hx]|[-> Hx]].
    + apply leb_antisym; assumption.
    + apply leb_antisym; apply leb_refl, Hv.
Qed.

(** The result of [clamp] lies between the bounds. *)
Lemma clamp_between (lo v hi : float) :
  PrimFloat.is_nan v = false -> PrimFloat.leb lo hi = true ->
  PrimFloat.leb lo (clamp lo v hi) = true /\
  PrimFloat.leb (clamp lo v hi) hi = true.
Proof.
  intros Hv Hb. destruct (leb_not_nan _ _ Hb) as [Hlo Hhi]. unfold clamp.
  assert (Hm : PrimFloat.is_nan (Math_min hi v) = false /\
               PrimFloat.leb (Math_min hi v) hi = true).
  { destruct (Math_min_cases hi v Hhi Hv) as [[-> Hm]|[-> Hm]];
      [split; [exact Hhi | apply leb_refl, Hhi] | split; assumption]. }
  destruct Hm as [Hmn Hmh].
  destruct (Math_max_cases lo _ Hlo Hmn) as [[-> Hx]|[-> Hx]].
  - split; [apply leb_refl, Hlo | exact Hb].
  - split; assumption.
Qed.

(** **** [clamp] *)

(** X10.  On doubles [clamp] does not repair a value that is NaN: whatever
    the bounds, the result is NaN, since [Math.min] and [Math.max] return NaN
    as soon as an argument is NaN. *)
Theorem clamp_keeps_NaN (lo v hi : float) :
  PrimFloat.is_nan v = true -> PrimFloat.is_nan (clamp lo v hi) = true.
Proof.
  intros Hv. unfold clamp. cbn [Math_max Math_min mathFloat].
  rewrite Hv, orb_true_r.
  replace (PrimFloat.is_nan nan) with true by (vm_compute; reflexivity).
  rewrite orb_true_r. vm_compute. reflexivity.
Qed.

(** X8.  On doubles, when the value is not NaN and the lower bound is at
    most the upper bound: a value between the bounds comes back as the same
    number (up to the sign of a zero), a value below the lower bound gives the
    lower bound, a value above the upper bound gives the upper bound, and
    clamping a second time changes nothing. *)
Theorem clamp_value (lo v hi : float) :
  PrimFloat.is_nan v = false -> PrimFloat.leb lo hi = true ->
  (PrimFloat.leb lo v = true -> PrimFloat.leb v hi = true ->
   PrimFloat.eqb (clamp lo v hi) v = true) /\
  (PrimFloat.ltb v lo = true -> clamp lo v hi = lo) /\
  (PrimFloat.ltb hi v = true -> PrimFloat.eqb (clamp lo v hi) hi = true) /\
  PrimFloat.eqb (clamp lo (clamp lo v hi) hi) (clamp lo v hi) = true.
Proof.
  intros Hv Hb. destruct (leb_not_nan _ _ Hb) as [Hlo Hhi].
  split; [exact (clamp_inside lo v hi)|]. split; [|split].
  - intros Hlt. unfold clamp.
    destruct (Math_min_cases hi v Hhi Hv) as [[-> Hm]|[-> Hm]].
    + exfalso. exact (ltb_not_leb _ _ Hlt (leb_trans _ _ _ Hb Hm)).
    + destruct (Math_max_cases lo v Hlo Hv) as [[-> Hx]|[-> Hx]];
        [reflexivity | exfalso; exact (ltb_not_leb _ _ Hlt Hx)].
  - intros Hlt. unfold clamp.
    destruct (Math_min_cases hi v Hhi Hv) as [[-> Hm]|[-> Hm]].
    + destruct (Math_max_cases lo hi Hlo Hhi) as [[-> Hx]|[-> Hx]];
        apply leb_antisym; try assumption; apply leb_refl, Hhi.
    + exfalso. exact (ltb_not_leb _ _ Hlt Hm).
  - destruct (clamp_between lo v hi Hv Hb) as [H1 H2].
    exact (clamp_inside lo _ hi H1 H2).
Qed.

(** X9.  On doubles, when the bounds are crossed, the lower above the
    upper, [clamp] returns the lower bound for every value that is not NaN:
    [Math.max] is applied last. *)
Theorem clamp_crossed_bounds (lo v hi : float) :
  PrimFloat.is_nan v = false -> PrimFloat.ltb hi lo = true ->
  clamp lo v hi = lo.
Proof.
  intros Hv Hb.
  destruct (leb_not_nan _ _ (ltb_leb _ _ Hb)) as [Hhi Hlo]. unfold clamp.
  assert (Hm : PrimFloat.is_nan (Math_min hi v) = false /\
               PrimFloat.leb (Math_min hi v) hi = true).
  { destruct (Math_min_cases hi v Hhi Hv) as [[-> Hm]|[-> Hm]];
      [split; [exact Hhi | apply leb_refl, Hhi] | split; assumption]. }
  destruct Hm as [Hmn Hmh].
  destruct (Math_max_cases lo _ Hlo Hmn) as [[-> Hx]|[Hx' Hx]];
    [reflexivity|].
  exfalso. exact (ltb_not_leb _ _ Hb (leb_trans _ _ _ Hx Hmh)).
Qed.

(** X20.  On doubles, when neither the value nor a bound is NaN and the
    lower bound is at most the upper bound, [clamp] returns a double that is
    not NaN and lies between the bounds; the value may be infinite or a
    zero of either sign. *)
Theorem clamp_range_doubles (lo v hi : float) :
  PrimFloat.is_nan lo = false -> PrimFloat.is_nan v = false ->
  PrimFloat.is_nan hi = false -> PrimFloat.leb lo hi = true ->
  PrimFloat.is_nan (clamp lo v hi) = false /\
  PrimFloat.leb lo (clamp lo v hi) = true /\
  PrimFloat.leb (clamp lo v hi) hi = true.
Proof.
  intros Hlo Hv Hhi Hb.
  destruct (clamp_between lo v hi Hv Hb) as [H1 H2].
  destruct (leb_not_nan _ _ H1) as [_ Hn].
  split; [exact Hn | split; [exact H1 | exact H2]].
Qed.

(** **** The form on doubles *)

Lemma initial_wellFormedF : wellFormedF initialState.
Proof.
  split; [split; vm_compute; reflexivity|].
  split; [split; vm_compute; reflexivity|].
  split; [split; vm_compute; reflexivity|]. exists S60_40. reflexivity.
Qed.

Lemma handle_wellFormedF (s : State float) (e : Event) :
  typed e -> wellFormedF s -> wellFormedF (handle s e).
Proof.
  intros He (Hb & Hh & Hc & Ho).
  destruct e as [v|v|r|o|c|g|k|v|f|]; cbn [handle typed] in *;
    try (split; [exact Hb | split; [exact Hh | split; [exact Hc | exact Ho]]]).
  - split; [|split; [exact Hh | split; [exact Hc | exact Ho]]].
    cbn [st_budget with_budget].
    apply clamp_between; [exact He | vm_compute; reflexivity].
  - split; [exact Hb|]. split; [|split; [exact Hc | exact Ho]].
    cbn [st_horizon with_horizon].
    apply clamp_between; [exact He | vm_compute; reflexivity].
  - split; [exact Hb|]. split; [exact Hh|]. split; [exact Hc|].
    exists o. reflexivity.
  - split; [exact Hb|]. split; [exact Hh|]. split; [|exact Ho].
    cbn [st_cryptoCapPct with_cryptoCapPct].
    apply clamp_between; [exact He | vm_compute; reflexivity].
  - apply initial_wellFormedF.
Qed.

(** X21.  On doubles too the form keeps the preferences in range: after any
    sequence of events in which no number handed over by a number field, the
    horizon field included, is NaN, the budget lies in [100, 10^7], the
    horizon in [1, 30], whole or not, the cap in [0, 10], and the region split
    is one of the six options, whose two shares add up to 100. *)
Theorem form_keeps_doubles_valid (es : list Event) :
  Forall typed es ->
  (PrimFloat.leb 100 (st_budget (stateAfter es)) = true /\
   PrimFloat.leb (st_budget (stateAfter es)) 10000000 = true) /\
  (PrimFloat.leb 1 (st_horizon (stateAfter es)) = true /\
   PrimFloat.leb (st_horizon (stateAfter es)) 30 = true) /\
  (PrimFloat.leb 0 (st_cryptoCapPct (stateAfter es)) = true /\
   PrimFloat.leb (st_cryptoCapPct (stateAfter es)) 10 = true) /\
  exists o : SplitOption,
    st_regionSplit (stateAfter es) = splitOption o /\
    PrimFloat.eqb (fst (splitOption o) + snd (splitOption o)) 100 = true.
Proof.
  intros Hes.
  assert (Hw : wellFormedF (stateAfter es)).
  { unfold stateAfter. generalize initial_wellFormedF.
    generalize (initialState (N := float)).
    induction Hes as [|e es He Hes IH]; intros s Hs; cbn [fold_left].
    - exact Hs.
    - apply IH, handle_wellFormedF; assumption. }
  destruct Hw as (Hb & Hh & Hc & o & Ho).
  split; [exact Hb|]. split; [exact Hh|]. split; [exact Hc|].
  exists o. split; [exact Ho|]. destruct o; vm_compute; reflexivity.
Qed.

(** **** The threshold of the consolidation on doubles *)

Lemma not_ltb_ge (x y : float) :
  PrimFloat.is_nan x = false -> PrimFloat.is_nan y = false ->
  PrimFloat.ltb x y = false -> PrimFloat.leb y x = true.
Proof.
  intros Hx Hy Hlt.
  destruct (PrimFloat.ltb y x) eqn:E; [apply ltb_leb, E|].
  apply (not_ltb_leb x y Hx Hy Hlt E).
Qed.

(** On doubles, whatever the record: a returned row other than the
    "Consolidated" row is not below the double 0.4, which is above the
    rational 0.4; so its [pct], when it is not NaN, is at least 0.4. *)
Lemma kept_rows_on_doubles (i : Inputs float) (r : AllocationRow float) :
  In r (autoAllocate i) -> isConsolidated r = false ->
  PrimFloat.ltb (pct r) (lit 0.4) = false /\
  (PrimFloat.is_nan (pct r) = false ->
   PrimFloat.leb (lit 0.4) (pct r) = true) /\
  0.4 <= Q_of_float (lit 0.4).
Proof.
  intros Hin Hno. apply autoAllocate_In in Hin.
  destruct Hin as [[_ Hk]|[-> _]]; [|discriminate Hno].
  unfold isTiny in Hk. cbn [ltb binary64] in Hk.
  split; [exact Hk|]. split; [|vm_compute; discriminate].
  intros Hn. apply not_ltb_ge; [exact Hn | vm_compute; reflexivity | exact Hk].
Qed.

(** **** The engine on the inputs of the form *)

Lemma representative_band (h : Z) : sameBand h (representative h).
Proof.
  unfold sameBand, representative.
  destruct (10 <=? h)%Z eqn:E10; [apply Z.leb_le in E10; lia|].
  apply Z.leb_gt in E10.
  destruct (h <=? 3)%Z eqn:E3; [apply Z.leb_le in E3 | apply Z.leb_gt in E3]; lia.
Qed.

(** The rows of a record of the form are those of a record of the table
    [steppedFormSound]. *)
Lemma stepped_rows (i : Inputs float) (o : SplitOption) (k : nat) :
  regionSplit i = splitOption o -> cryptoCapPct i = halves k ->
  autoAllocate i
  = autoAllocate (steppedInputs (risk i) (representative (horizon i)) o
                    (includeGold i) (includeCrypto i)
                    (if includeCrypto i then k else 0%nat)).
Proof.
  intros Ho Hk.
  set (j := steppedInputs _ _ _ _ _ _).
  assert (Hadj : adjusted i = adjusted j).
  { apply adjusted_reads; try reflexivity.
    - apply representative_band.
    - intros Hc. unfold j. cbn [cryptoCapPct steppedInputs]. rewrite Hc.
      exact Hk. }
  unfold autoAllocate. rewrite Hadj. unfold buildRows. rewrite Ho. reflexivity.
Qed.

(** The engine is run on every record of the table. *)
Lemma table_sound : steppedFormSound = true.
Proof. vm_compute. reflexivity. Qed.

Lemma stepped_sound (r : Risk) (h : Z) (o : SplitOption) (g c : bool) (k : nat) :
  (k <= 20)%nat ->
  soundOnDoubles
    (steppedInputs r (representative h) o g c (if c then k else 0%nat)) = true.
Proof.
  intros Hk.
  assert (Hr : In r allRisks) by (destruct r; cbn; tauto).
  assert (Hh : In (representative h) allBands)
    by (unfold representative; destruct (10 <=? h)%Z, (h <=? 3)%Z; cbn; tauto).
  assert (Ho : In o allSplits) by (destruct o; cbn; tauto).
  assert (Hg : In g allBools) by (destruct g; cbn; tauto).
  assert (Hc : In c allBools) by (destruct c; cbn; tauto).
  assert (Hk' : In (if c then k else 0%nat) (if c then seq 0 21 else [0%nat]))
    by (destruct c; [apply in_seq; lia | left; reflexivity]).
  pose proof (proj1 (forallb_forall _ _) table_sound r Hr) as H1.
  cbv beta in H1.
  pose proof (proj1 (forallb_forall _ _) H1 _ Hh) as H2. cbv beta in H2.
  pose proof (proj1 (forallb_forall _ _) H2 _ Ho) as H3. cbv beta in H3.
  pose proof (proj1 (forallb_forall _ _) H3 _ Hg) as H4. cbv beta in H4.
  pose proof (proj1 (forallb_forall _ _) H4 _ Hc) as H5. cbv beta in H5.
  exact (proj1 (forallb_forall _ _) H5 _ Hk').
Qed.

Lemma pow2_80 : inject_Z (2 ^ 80) == 1208925819614629174706176.
Proof. reflexivity. Qed.

(** [scaled] is the double, in units of 2^-80. *)
Lemma scaled_exact (f : float) (z : Z) :
  scaled f = Some z -> Q_of_float f == inject_Z z / inject_Z (2 ^ 80).
Proof.
  unfold scaled, Q_of_float. destruct (Prim2SF f) as [s|s| |s m e];
    try discriminate.
  - intros Hz. injection Hz as <-. reflexivity.
  - destruct (e <? -80)%Z eqn:E; [discriminate|]. apply Z.ltb_ge in E.
    intros Hz.
    assert (Hz' : z = ((if s then -1 else 1) * (Z.pos m * 2 ^ (e + 80)))%Z)
      by congruence.
    clear Hz. subst z.
    assert (Hp : pow2 e == inject_Z (2 ^ (e + 80)) / inject_Z (2 ^ 80)).
    { unfold pow2. destruct (0 <=? e)%Z eqn:E0.
      - apply Z.leb_le in E0. rewrite Z.pow_add_r by lia.
        rewrite inject_Z_mult. field. rewrite pow2_80. discriminate.
      - apply Z.leb_gt in E0.
        assert (H80 : (2 ^ 80 = 2 ^ (e + 80) * 2 ^ (- e))%Z)
          by (rewrite <- Z.pow_add_r by lia; f_equal; lia).
        assert (Hpos : 0 < inject_Z (2 ^ (- e))).
        { change 0 with (inject_Z 0). rewrite <- Zlt_Qlt.
          apply Z.pow_pos_nonneg; lia. }
        assert (Hpos' : 0 < inject_Z (2 ^ (e + 80))).
        { change 0 with (inject_Z 0). rewrite <- Zlt_Qlt.
          apply Z.pow_pos_nonneg; lia. }
        assert (H80' : inject_Z (2 ^ 80)
                       == inject_Z (2 ^ (e + 80)) * inject_Z (2 ^ (- e)))
          by (rewrite <- inject_Z_mult, <- H80; reflexivity).
        rewrite H80'. field. split; lra. }
    rewrite Hp. set (p := (2 ^ (e + 80))%Z). rewrite !inject_Z_mult.
    destruct s;
      [change (inject_Z (-1)) with (-1) | change (inject_Z 1) with 1];
      field; rewrite pow2_80; discriminate.
Qed.

Lemma sumScaled_exact (l : list (AllocationRow float)) :
  forall z, sumScaled l = Some z -> sumExact l == inject_Z z / inject_Z (2 ^ 80).
Proof.
  induction l as [|r l IH]; intros z; cbn [sumScaled sumExact fold_right].
  - intros Hz. injection Hz as <-. reflexivity.
  - destruct (scaled (pct r)) as [a|] eqn:Ea; [|discriminate].
    destruct (sumScaled l) as [b|]; [|discriminate].
    intros Hz. injection Hz as <-.
    fold (sumExact l). rewrite (scaled_exact _ _ Ea), (IH b eq_refl).
    rewrite inject_Z_plus. field. rewrite pow2_80. discriminate.
Qed.

Lemma sumWithin_exact (l : list (AllocationRow float)) :
  sumWithin l = true -> Qabs (sumExact l - 100) <= tolerance.
Proof.
  unfold sumWithin. destruct (sumScaled l) as [z|] eqn:Ez; [|discriminate].
  intros H. apply Z.leb_le in H. rewrite (sumScaled_exact l z Ez), pow2_80.
  change (2 ^ 80)%Z with 1208925819614629174706176%Z in H.
  assert (H1 : (- 1208925819614629174706176
                <= (z + - (100 * 1208925819614629174706176)) * 1000000)%Z) by lia.
  assert (H2 : ((z + - (100 * 1208925819614629174706176)) * 1000000
                <= 1208925819614629174706176)%Z) by lia.
  rewrite Zle_Qle in H1, H2.
  rewrite inject_Z_mult, inject_Z_plus in H1, H2.
  change (inject_Z (- (100 * 1208925819614629174706176)))
    with (- (100 * 1208925819614629174706176)) in H1, H2.
  change (inject_Z 1000000) with 1000000 in H1, H2.
  change (inject_Z 1208925819614629174706176)
    with 1208925819614629174706176 in H1, H2.
  change (inject_Z (- 1208925819614629174706176))
    with (- 1208925819614629174706176) in H1.
  set (x := inject_Z z) in *.
  setoid_replace (x / 1208925819614629174706176)
    with (x * (1 # 1208925819614629174706176)) by field.
  apply Qabs_Qle_condition. unfold tolerance. split; lra.
Qed.

(** X22.  On doubles, for every preferences record whose region split is one
    of the six options of the select and whose cap is a multiple of 0.5
    between 0 and 10, whatever the profile, the horizon, the opt-ins, the
    budget, the currency and the rebalancing: every returned [pct] lies
    between 0 and 100, so none is NaN or infinite; the rows come in
    non-increasing order of [pct]; the exact sum of the doubles is within 1e-6
    of 100; and a "Crypto" row is at most the cap, with no tolerance. *)
Theorem stepped_inputs_on_doubles (i : Inputs float) (o : SplitOption)
    (k : nat) :
  regionSplit i = splitOption o -> (k <= 20)%nat -> cryptoCapPct i = halves k ->
  Forall (fun r => PrimFloat.leb 0%float (pct r) = true
                   /\ PrimFloat.leb (pct r) 100%float = true)
    (autoAllocate i) /\
  descendingF (autoAllocate i) = true /\
  Qabs (sumExact (autoAllocate i) - 100) <= tolerance /\
  Forall (fun r => assetClass r = "Crypto"%string ->
                   PrimFloat.leb (pct r) (cryptoCapPct i) = true)
    (autoAllocate i).
Proof.
  intros Ho Hk Hcap.
  pose proof (stepped_sound (risk i) (horizon i) o (includeGold i)
                (includeCrypto i) k Hk) as Hs.
  unfold soundOnDoubles in Hs. rewrite <- (stepped_rows i o k Ho Hcap) in Hs.
  cbv zeta in Hs. apply andb_prop in Hs. destruct Hs as [Hs Hc].
  apply andb_prop in Hs. destruct Hs as [Hs Hsum].
  apply andb_prop in Hs. destruct Hs as [Hr Hd].
  split; [|split; [exact Hd | split; [exact (sumWithin_exact _ Hsum)|]]].
  - apply Forall_forall. intros r Hin.
    rewrite forallb_forall in Hr. specialize (Hr r Hin).
    unfold inRange in Hr. apply andb_prop in Hr. exact Hr.
  - apply Forall_forall. intros r Hin Ha.
    destruct (includeCrypto i) eqn:Ec.
    + rewrite forallb_forall in Hc. specialize (Hc r Hin).
      unfold cryptoCapped in Hc. rewrite Ha in Hc. cbn in Hc.
      cbn [cryptoCapPct steppedInputs] in Hc. rewrite Hcap. exact Hc.
    + exfalso. exact (crypto_off_no_row i r Ec Hin Ha).
Qed.

End Doubles.

(** *** The theorems at concrete inputs *)

Module Examples.

#[local] Existing Instance exactQ.

Lemma inputs_that_matter_witness :
  sameBand (horizon defaultInputs) (horizon otherInputs) /\
  autoAllocate defaultInputs = autoAllocate otherInputs.
Proof.
  assert (Hb : sameBand (horizon defaultInputs) (horizon otherInputs))
    by (unfold sameBand; cbn; lia).
  split; [exact Hb|].
  apply (inputs_that_matter defaultInputs otherInputs Hb); try reflexivity.
  intros H. discriminate H.
Defined.

Lemma crypto_row_value_witness :
  valid cappedInputs /\
  ((exists r, In r (autoAllocate cappedInputs)
              /\ assetClass r = "Crypto"%string) <->
   includeCrypto cappedInputs = true /\
   (risk cappedInputs = ModerateAggressive \/ risk cappedInputs = Aggressive) /\
   0.4 <= cryptoCapPct cappedInputs) /\
  (forall r, In r (autoAllocate cappedInputs) ->
     assetClass r = "Crypto"%string ->
     (cryptoCapPct cappedInputs <= 2 -> pct r == cryptoCapPct cappedInputs) /\
     (2 <= cryptoCapPct cappedInputs -> pct r == 2)).
Proof.
  split; [vm_compute; reflexivity|].
  apply (ExactApplication.crypto_row_value cappedInputs).
  vm_compute; reflexivity.
Defined.

Lemma rows_by_asset_class_witness :
  valid smallSlices /\
  sumWhere (@assetClass Q) "Equity" (rawRows smallSlices)
  == equity (adjusted smallSlices) /\
  sumWhere (@assetClass Q) "Fixed Income" (rawRows smallSlices)
  == fixed (adjusted smallSlices) /\
  sumWhere (@assetClass Q) "Commodity" (rawRows smallSlices)
  == gold (adjusted smallSlices) /\
  sumWhere (@assetClass Q) "REITs" (rawRows smallSlices)
  == reits (adjusted smallSlices) /\
  sumWhere (@assetClass Q) "Cash" (rawRows smallSlices)
  == cash (adjusted smallSlices) /\
  sumWhere (@assetClass Q) "Crypto" (rawRows smallSlices)
  == crypto (adjusted smallSlices).
Proof.
  split; [vm_compute; reflexivity|].
  apply (ExactApplication.rows_by_asset_class smallSlices).
  vm_compute; reflexivity.
Defined.

Lemma rows_by_region_witness :
  valid smallSlices /\
  sumWhere (@country Q) "USA" (rawRows smallSlices)
  == fst (regionSplit smallSlices)
     * (100 - gold (adjusted smallSlices) - crypto (adjusted smallSlices)) / 100 /\
  sumWhere (@country Q) "India" (rawRows smallSlices)
  == snd (regionSplit smallSlices) * (100 - crypto (adjusted smallSlices)) / 100 /\
  sumWhere (@country Q) "Global" (rawRows smallSlices)
  == gold (adjusted smallSlices) * fst (regionSplit smallSlices) / 100
     + crypto (adjusted smallSlices).
Proof.
  split; [vm_compute; reflexivity|].
  apply (ExactApplication.rows_by_region smallSlices).
  vm_compute; reflexivity.
Defined.

Lemma row_count_witness :
  valid smallSlices /\ (1 <= List.length (autoAllocate smallSlices) <= 19)%nat.
Proof.
  split; [vm_compute; reflexivity|].
  apply (ExactApplication.row_count smallSlices).
  vm_compute; reflexivity.
Defined.

Lemma ties_keep_push_order_witness :
  filter (fun r => Qeq_bool (pct r) 16.5) (autoAllocate evenSplit)
  = filter (fun r => Qeq_bool (pct r) 16.5) (consolidate (rawRows evenSplit)).
Proof.
  exact (ties_keep_push_order (fun x => x) Exact.exact_rounding evenSplit 16.5).
Defined.

Lemma clamp_value_witness :
  PrimFloat.is_nan 3.5 = false /\ PrimFloat.leb 1 30 = true /\
  (PrimFloat.leb 1 3.5 = true -> PrimFloat.leb 3.5 30 = true ->
   PrimFloat.eqb (clamp 1%float 3.5%float 30%float) 3.5 = true) /\
  (PrimFloat.ltb 3.5 1 = true -> clamp 1%float 3.5%float 30%float = 1%float) /\
  (PrimFloat.ltb 30 3.5 = true ->
   PrimFloat.eqb (clamp 1%float 3.5%float 30%float) 30 = true) /\
  PrimFloat.eqb (clamp 1%float (clamp 1%float 3.5%float 30%float) 30%float)
    (clamp 1%float 3.5%float 30%float) = true.
Proof.
  assert (Hv : PrimFloat.is_nan 3.5 = false) by (vm_compute; reflexivity).
  assert (Hb : PrimFloat.leb 1 30 = true) by (vm_compute; reflexivity).
  split; [exact Hv|]. split; [exact Hb|].
  exact (Doubles.clamp_value 1%float 3.5%float 30%float Hv Hb).
Defined.

Lemma clamp_crossed_bounds_witness :
  PrimFloat.is_nan 4 = false /\ PrimFloat.ltb 3 5 = true /\
  clamp 5%float 4%float 3%float = 5%float.
Proof.
  assert (Hv : PrimFloat.is_nan 4 = false) by (vm_compute; reflexivity).
  assert (Hb : PrimFloat.ltb 3 5 = true) by (vm_compute; reflexivity).
  split; [exact Hv|]. split; [exact Hb|].
  exact (Doubles.clamp_crossed_bounds 5%float 4%float 3%float Hv Hb).
Defined.

Lemma clamp_keeps_NaN_witness :
  PrimFloat.is_nan nan = true /\
  PrimFloat.is_nan (clamp 100%float nan 10000000%float) = true.
Proof.
  assert (H : PrimFloat.is_nan nan = true) by (vm_compute; reflexivity).
  split; [exact H | exact (Doubles.clamp_keeps_NaN 100%float nan 10000000%float H)].
Defined.

Lemma form_keeps_inputs_valid_witness :
  Forall wholeEvent someEvents /\
  exists i, inputsOf (stateAfter someEvents) = Some i /\ valid i.
Proof.
  assert (H : Forall wholeEvent someEvents)
    by (repeat constructor; discriminate).
  split; [exact H | exact (proj2 (Form.form_keeps_inputs_valid someEvents) H)].
Defined.

Lemma form_rows_add_up_witness :
  Forall wholeEvent someEvents /\
  exists i, inputsOf (stateAfter someEvents) = Some i /\
            Qabs (sumPct (autoAllocate i) - 100) <= tolerance.
Proof.
  assert (H : Forall wholeEvent someEvents)
    by (repeat constructor; discriminate).
  split; [exact H|].
  exact (form_rows_add_up (fun x => x) Exact.exact_rounding someEvents H).
Defined.

Lemma pie_values_witness :
  In (firstSlice (pieByAsset (autoAllocate smallSlices)))
     (pieByAsset (autoAllocate smallSlices)) /\
  value (firstSlice (pieByAsset (autoAllocate smallSlices)))
  == sumWhere (@assetClass Q)
       (name (firstSlice (pieByAsset (autoAllocate smallSlices))))
       (autoAllocate smallSlices).
Proof.
  assert (Hin : In (firstSlice (pieByAsset (autoAllocate smallSlices)))
                  (pieByAsset (autoAllocate smallSlices)))
    by (vm_compute; tauto).
  split; [exact Hin|].
  exact (ExactApplication.pie_values (@assetClass Q) _ _ Hin).
Defined.

Lemma pies_add_up_to_100_witness :
  valid cap199Q /\
  Qabs (sumValue (pieByAsset (num := roundedQ round53)
                    (autoAllocate (num := roundedQ round53) cap199Q)) - 100)
  <= tolerance /\
  Qabs (sumValue (pieByRegion (num := roundedQ round53)
                    (autoAllocate (num := roundedQ round53) cap199Q)) - 100)
  <= tolerance.
Proof.
  split; [vm_compute; reflexivity|].
  apply (pies_add_up_to_100 round53 Binary64.round53_err cap199Q).
  vm_compute; reflexivity.
Defined.

Lemma top_holdings_witness :
  exists b : Bar Q,
    nth_error (barExpReturns (autoAllocate defaultInputs)) 0 = Some b /\
    (0 < 8)%nat /\
    exists r : Row,
      nth_error (autoAllocate defaultInputs) 0 = Some r /\
      low b = fst (expCagr r) /\ high b = snd (expCagr r) /\ low b <= high b /\
      forall (j : nat) (r' : Row),
        (8 <= j)%nat -> nth_error (autoAllocate defaultInputs) j = Some r' ->
        pct r' <= pct r.
Proof.
  eexists. split; [vm_compute; reflexivity|].
  apply (top_holdings (fun x => x) Exact.exact_rounding defaultInputs 0).
  vm_compute; reflexivity.
Defined.

Lemma percentages_read_back_witness :
  Qabs 31.548 < 1000000000000000000000 /\
  (forall f : nat, exists v : Q,
     readFixed (toFixed 31.548 f) = Some v /\
     Qabs (v - 31.548) <= (1 # 2) / inject_Z (10 ^ Z.of_nat f) /\
     (0 <= 31.548 -> 0 <= v) /\ (31.548 <= 0 -> v <= 0)) /\
  (exists (t : string) (v : Q),
     fmtPct 31.548 = (t ++ "%")%string /\ readFixed t = Some v /\
     Qabs (v - 31.548) <= 1 # 20 /\
     (0 <= 31.548 -> 0 <= v) /\ (31.548 <= 0 -> v <= 0)).
Proof.
  assert (H : Qabs 31.548 < 1000000000000000000000) by (vm_compute; reflexivity).
  split; [exact H | exact (Texts.percentages_read_back 31.548 H)].
Defined.

Lemma csv_is_one_line_witness :
  Forall (Forall (fun x => hasLineBreak x = false)) someTable /\
  hasLineBreak (csv someTable) = false.
Proof.
  assert (H : Forall (Forall (fun x => hasLineBreak x = false)) someTable)
    by (repeat constructor).
  split; [exact H | exact (Texts.csv_is_one_line someTable H)].
Defined.

Lemma clamp_range_doubles_witness :
  PrimFloat.leb 100 10000000 = true /\
  PrimFloat.is_nan (clamp 100%float infinity 10000000%float) = false /\
  PrimFloat.leb 100 (clamp 100%float infinity 10000000%float) = true /\
  PrimFloat.leb (clamp 100%float infinity 10000000%float) 10000000 = true.
Proof.
  assert (H : PrimFloat.leb 100 10000000 = true) by (vm_compute; reflexivity).
  split; [exact H|].
  apply (Doubles.clamp_range_doubles 100%float infinity 10000000%float);
    [vm_compute; reflexivity | vm_compute; reflexivity
    | vm_compute; reflexivity | exact H].
Defined.

Lemma form_keeps_doubles_valid_witness :
  Forall typed someEventsF /\
  (PrimFloat.leb 100 (st_budget (stateAfter someEventsF)) = true /\
   PrimFloat.leb (st_budget (stateAfter someEventsF)) 10000000 = true) /\
  (PrimFloat.leb 1 (st_horizon (stateAfter someEventsF)) = true /\
   PrimFloat.leb (st_horizon (stateAfter someEventsF)) 30 = true) /\
  (PrimFloat.leb 0 (st_cryptoCapPct (stateAfter someEventsF)) = true /\
   PrimFloat.leb (st_cryptoCapPct (stateAfter someEventsF)) 10 = true) /\
  exists o : SplitOption,
    st_regionSplit (stateAfter someEventsF) = splitOption o /\
    PrimFloat.eqb (fst (splitOption o) + snd (splitOption o)) 100 = true.
Proof.
  assert (H : Forall typed someEventsF)
    by (repeat constructor; vm_compute; reflexivity).
  split; [exact H | exact (Doubles.form_keeps_doubles_valid someEventsF H)].
Defined.

Lemma stepped_inputs_on_doubles_witness :
  regionSplit steppedExample = splitOption S70_30 /\
  cryptoCapPct steppedExample = halves 3 /\
  Forall (fun r => PrimFloat.leb 0%float (pct r) = true
                   /\ PrimFloat.leb (pct r) 100%float = true)
    (autoAllocate steppedExample) /\
  descendingF (autoAllocate steppedExample) = true /\
  Qabs (sumExact (autoAllocate steppedExample) - 100) <= tolerance /\
  Forall (fun r => assetClass r = "Crypto"%string ->
                   PrimFloat.leb (pct r) (cryptoCapPct steppedExample) = true)
    (autoAllocate steppedExample).
Proof.
  assert (Ho : regionSplit steppedExample = splitOption S70_30)
    by (vm_compute; reflexivity).
  assert (Hc : cryptoCapPct steppedExample = halves 3)
    by (vm_compute; reflexivity).
  split; [exact Ho|]. split; [exact Hc|].
  apply (Doubles.stepped_inputs_on_doubles steppedExample S70_30 3 Ho);
    [lia | exact Hc].
Defined.

End Examples.
